(** * SwarmBoard (Mission:Possible): the event-sourced core

    A shallow embedding of the mission/event core of the repository:
    the step schedule ([lib/stepSchedule.ts]), the scripted table
    ([lib/demoScript.ts]), the MongoDB-backed handlers
    ([api/missions/start], [api/events/emit], [api/agents/tick],
    [api/missions/fork], [api/dev/reset]) and the client-side replay of
    [app/swarmboard/page.tsx].

    Conventions of the embedding:
    - a JavaScript [number] holding a step is a [Z]; a [Date] is a [Z]
      (milliseconds); array indices are [nat];
    - an [ObjectId] is the [N] its 24 hexadecimal digits denote;
      [new ObjectId()] draws from a counter kept next to the collections;
    - the [missions] collection is a finite map keyed by [_id]; the
      [events] collection is the list of its documents in insertion order;
    - [new Date()] and the reply of the content generator are inputs of
      the handler that reads them. *)

From Stdlib Require Import ZArith NArith String Ascii List Lia.
From stdpp Require Import base decidable option list sorting gmap strings pretty.

Local Open Scope Z_scope.
Local Open Scope string_scope.
Local Open Scope list_scope.

(** ** Data model ([lib/types.ts]) *)

Abbreviation ObjectId := N (only parsing).
Abbreviation Date := Z (only parsing).

Inductive MissionStatus := StatusRunning | StatusDone | StatusFailed.
Inductive AgentType := Planner | Researcher | Executor | Critic.
Inductive EventType :=
  PLAN | ASSIGN | TOOL_CALL | TOOL_RESULT | CHECKPOINT | NOTE | FAIL | RETRY | DONE.
Inductive RunMode := RunScripted | RunReal.
Inductive Source := SrcScripted | SrcOpenai | SrcFallback.

#[global] Instance MissionStatus_eq_dec : EqDecision MissionStatus.
Proof. solve_decision. Defined.
#[global] Instance AgentType_eq_dec : EqDecision AgentType.
Proof. solve_decision. Defined.
#[global] Instance EventType_eq_dec : EqDecision EventType.
Proof. solve_decision. Defined.
#[global] Instance RunMode_eq_dec : EqDecision RunMode.
Proof. solve_decision. Defined.
#[global] Instance Source_eq_dec : EqDecision Source.
Proof. solve_decision. Defined.

(** [Record<string, unknown>]: the payload is opaque to the handlers, which
    only store and copy it. *)
Inductive PValue :=
  | PNum (z : Z)
  | PDec (literal : string)
  | PStr (s : string)
  | PBool (b : bool)
  | PStrs (l : list string)
  | PAgent (a : AgentType)
  | PType (t : EventType).

Abbreviation Payload := (list (string * PValue)) (only parsing).

Record Mission := mkMission {
  m_id : ObjectId;
  m_title : string;
  m_status : MissionStatus;
  m_currentStep : Z;
  m_createdAt : Date;
  m_updatedAt : Date;
  m_lastCheckpointAt : option Date;
  m_latestSummary : option string;      (* artifacts.latestSummary *)
  m_branchFromMissionId : option ObjectId;
  m_branchFromStep : option Z;
  m_runMode : option RunMode;
  m_llmProvider : option string;
  m_llmModel : option string
}.

Record MissionEvent := mkEvent {
  e_id : ObjectId;
  e_missionId : ObjectId;
  e_ts : Date;
  e_step : Z;
  e_agent : AgentType;
  e_type : EventType;
  e_summary : string;
  e_payload : Payload;
  e_source : option Source
}.

Definition agentName (a : AgentType) : string :=
  match a with
  | Planner => "Planner" | Researcher => "Researcher"
  | Executor => "Executor" | Critic => "Critic"
  end.

Definition typeName (t : EventType) : string :=
  match t with
  | PLAN => "PLAN" | ASSIGN => "ASSIGN" | TOOL_CALL => "TOOL_CALL"
  | TOOL_RESULT => "TOOL_RESULT" | CHECKPOINT => "CHECKPOINT" | NOTE => "NOTE"
  | FAIL => "FAIL" | RETRY => "RETRY" | DONE => "DONE"
  end.

(** ** Step schedule ([lib/stepSchedule.ts]) *)

Record StepSchedule := mkSchedule {
  s_step : Z;
  s_agent : AgentType;
  s_type : EventType
}.

Definition stepSchedule : list StepSchedule :=
  [ mkSchedule 1 Planner PLAN;
    mkSchedule 2 Planner ASSIGN;
    mkSchedule 3 Researcher TOOL_CALL;
    mkSchedule 4 Researcher TOOL_RESULT;
    mkSchedule 5 Critic NOTE;
    mkSchedule 6 Planner CHECKPOINT;
    mkSchedule 7 Executor TOOL_CALL;
    mkSchedule 8 Executor TOOL_RESULT;
    mkSchedule 9 Researcher FAIL;
    mkSchedule 10 Executor RETRY;
    mkSchedule 11 Executor TOOL_RESULT;
    mkSchedule 12 Critic NOTE;
    mkSchedule 13 Planner CHECKPOINT;
    mkSchedule 14 Executor TOOL_CALL;
    mkSchedule 15 Executor TOOL_RESULT;
    mkSchedule 16 Critic NOTE;
    mkSchedule 17 Planner DONE ].

Definition getScheduleForStep (step : Z) : option StepSchedule :=
  List.find (fun s => bool_decide (s_step s = step)) stepSchedule.

Definition getAgentAndTypeForStep (step : Z) : option (AgentType * EventType) :=
  match getScheduleForStep step with
  | None => None
  | Some schedule => Some (s_agent schedule, s_type schedule)
  end.

Definition isFinalStep (step : Z) : bool :=
  match getScheduleForStep step with
  | Some schedule => bool_decide (s_type schedule = DONE)
  | None => false
  end.

Definition getTotalSteps : Z := Z.of_nat (length stepSchedule).

(** ** Scripted table ([lib/demoScript.ts]) *)

Record DemoEvent := mkDemo {
  d_step : Z;
  d_agent : AgentType;
  d_type : EventType;
  d_summary : string;
  d_payload : Payload;
  d_delayMs : Z
}.

Definition demoScript : list DemoEvent :=
  [ mkDemo 1 Planner PLAN
      "Mission initialized: Research and summarize latest AI trends"
      [("objective", PStr "AI Trends Research"); ("estimatedSteps", PNum 16)] 0;
    mkDemo 2 Planner ASSIGN
      "Assigned Researcher to gather data from academic sources"
      [("assignee", PStr "Researcher"); ("task", PStr "academic_search")] 2500;
    mkDemo 3 Researcher TOOL_CALL
      "Querying ArXiv API for recent transformer papers"
      [("tool", PStr "arxiv_search"); ("query", PStr "transformers 2024")] 2000;
    mkDemo 4 Researcher TOOL_RESULT
      "Found 47 relevant papers on attention mechanisms"
      [("resultCount", PNum 47);
       ("topPapers", PStrs ["Attention Is Still All You Need";
                            "Mamba: Linear-Time Sequence Modeling"])] 3000;
    mkDemo 5 Researcher NOTE
      "Key trend identified: State-space models challenging transformers"
      [("insight", PStr "SSM architectures gaining traction")] 2000;
    mkDemo 6 Planner CHECKPOINT
      "Checkpoint: Research phase 1 complete. 47 papers collected, SSM trend identified."
      [("phase", PNum 1); ("papersCollected", PNum 47)] 2500;
    mkDemo 7 Executor TOOL_CALL
      "Summarizing top 10 papers using extraction pipeline"
      [("tool", PStr "summarizer"); ("inputCount", PNum 10)] 3000;
    mkDemo 8 Executor TOOL_RESULT
      "Generated summaries for all 10 papers"
      [("summariesGenerated", PNum 10); ("avgLength", PNum 250)] 2500;
    mkDemo 9 Executor FAIL
      "Failed to connect to external citation service (timeout)"
      [("error", PStr "ETIMEDOUT"); ("service", PStr "citation_api")] 3000;
    mkDemo 10 Executor RETRY
      "Retrying citation lookup with fallback service"
      [("attempt", PNum 2); ("fallback", PStr "semantic_scholar")] 2000;
    mkDemo 11 Executor TOOL_RESULT
      "Successfully retrieved citations via Semantic Scholar"
      [("citations", PNum 156); ("successfulRetry", PBool true)] 2500;
    mkDemo 12 Critic NOTE
      "Reviewing summary quality: 8/10 papers meet standards"
      [("approved", PNum 8); ("needsRevision", PNum 2)] 2500;
    mkDemo 13 Planner CHECKPOINT
      "Checkpoint: Analysis complete. 8 quality summaries, 156 citations mapped."
      [("phase", PNum 2); ("qualitySummaries", PNum 8); ("totalCitations", PNum 156)] 3000;
    mkDemo 14 Executor TOOL_CALL
      "Generating final report with trend analysis"
      [("tool", PStr "report_generator"); ("format", PStr "markdown")] 2500;
    mkDemo 15 Executor TOOL_RESULT
      "Final report generated: 2,400 words with visualizations"
      [("wordCount", PNum 2400); ("charts", PNum 3); ("tables", PNum 2)] 3000;
    mkDemo 16 Critic NOTE
      "Final review passed. Report is comprehensive and well-structured."
      [("qualityScore", PDec "9.2"); ("recommendation", PStr "approved")] 2000;
    mkDemo 17 Planner DONE
      "Mission complete: AI Trends Report delivered successfully"
      [("totalDuration", PStr "45s"); ("eventsProcessed", PNum 17)] 2500 ].

(** ** The database ([lib/mongo.ts])

    Two collections and the unique compound index
    [{ missionId: 1, step: 1 }] that [ensureIndexes] creates. *)

Record Store := mkStore {
  missions : gmap N Mission;
  events : list MissionEvent;
  uniqueIndex : bool;
  oidCounter : N        (* supply of [new ObjectId()], not a collection *)
}.

Definition emptyStore : Store := mkStore ∅ [] false 0%N.

Definition setMissions (ms : gmap N Mission) (s : Store) : Store :=
  mkStore ms (events s) (uniqueIndex s) (oidCounter s).

Definition setEvents (es : list MissionEvent) (s : Store) : Store :=
  mkStore (missions s) es (uniqueIndex s) (oidCounter s).

(** [new ObjectId()] *)
Definition newObjectId (s : Store) : ObjectId * Store :=
  (oidCounter s, mkStore (missions s) (events s) (uniqueIndex s) (N.succ (oidCounter s))).

Definition sameKey (mid : ObjectId) (step : Z) (e : MissionEvent) : bool :=
  bool_decide (e_missionId e = mid) && bool_decide (e_step e = step).

(** [events.findOne({ missionId, step })] *)
Definition findOneEvent (mid : ObjectId) (step : Z) (es : list MissionEvent)
  : option MissionEvent :=
  List.find (sameKey mid step) es.

Definition eventKey (e : MissionEvent) : N * Z := (e_missionId e, e_step e).

(** [createIndex(..., { unique: true })]: a no-op when the index exists,
    an error when the collection already holds two documents with one key. *)
Definition ensureIndexes (s : Store) : option Store :=
  if uniqueIndex s then Some s
  else if bool_decide (NoDup (eventKey <$> events s))
       then Some (mkStore (missions s) (events s) true (oidCounter s))
       else None.

(** [events.insertOne(doc)]: [None] is the duplicate-key error E11000. *)
Definition insertOneEvent (e : MissionEvent) (s : Store) : option Store :=
  if uniqueIndex s && bool_decide (is_Some (findOneEvent (e_missionId e) (e_step e) (events s)))
  then None
  else Some (setEvents (events s ++ [e]) s).

(** [events.insertMany(docs)] (ordered): stops at the first failing document,
    the ones before it stay inserted. *)
Fixpoint insertManyEvents (docs : list MissionEvent) (s : Store) : Store * bool :=
  match docs with
  | [] => (s, true)
  | d :: rest =>
      match insertOneEvent d s with
      | None => (s, false)
      | Some s' => insertManyEvents rest s'
      end
  end.

(** [missions.insertOne(doc)] *)
Definition insertOneMission (m : Mission) (s : Store) : Store :=
  setMissions (<[m_id m := m]> (missions s)) s.

(** The [$set] document built by the emit and tick handlers. *)
Record UpdateFields := mkUpdate {
  uf_updatedAt : Date;
  uf_currentStep : option Z;
  uf_lastCheckpointAt : option Date;
  uf_latestSummary : option string;
  uf_status : option MissionStatus
}.

Definition applySet (u : UpdateFields) (m : Mission) : Mission :=
  mkMission (m_id m) (m_title m)
    (default (m_status m) (uf_status u))
    (default (m_currentStep m) (uf_currentStep u))
    (m_createdAt m)
    (uf_updatedAt u)
    (match uf_lastCheckpointAt u with Some t => Some t | None => m_lastCheckpointAt m end)
    (match uf_latestSummary u with Some x => Some x | None => m_latestSummary m end)
    (m_branchFromMissionId m) (m_branchFromStep m)
    (m_runMode m) (m_llmProvider m) (m_llmModel m).

(** [missions.updateOne({ _id }, { $set: updateFields })] *)
Definition updateOneMission (mid : ObjectId) (u : UpdateFields) (s : Store) : Store :=
  setMissions (alter (applySet u) mid (missions s)) s.

(** [.sort({ step: 1 })] *)
Fixpoint insertByStep (e : MissionEvent) (l : list MissionEvent) : list MissionEvent :=
  match l with
  | [] => [e]
  | x :: rest =>
      if decide (e_step e <= e_step x) then e :: l else x :: insertByStep e rest
  end.

Definition sortByStep (l : list MissionEvent) : list MissionEvent :=
  foldr insertByStep [] l.

(** ** ObjectId strings: [ObjectId.isValid] and [new ObjectId(str)] on the
    24-hex-digit form the routes exchange. *)

Definition hexDigit (c : ascii) : option N :=
  let n := N_of_ascii c in
  if (48 <=? n)%N && (n <=? 57)%N then Some (n - 48)%N
  else if (97 <=? n)%N && (n <=? 102)%N then Some (n - 87)%N
  else if (65 <=? n)%N && (n <=? 70)%N then Some (n - 55)%N
  else None.

Fixpoint parseHex (s : string) (acc : N) : option N :=
  match s with
  | EmptyString => Some acc
  | String c rest =>
      match hexDigit c with
      | Some d => parseHex rest (16 * acc + d)%N
      | None => None
      end
  end.

Definition parseObjectId (s : string) : option ObjectId :=
  if Nat.eqb (String.length s) 24 then parseHex s 0%N else None.

Definition ObjectId_isValid (s : string) : bool :=
  bool_decide (is_Some (parseObjectId s)).

(** ** [POST /api/missions/start] *)

Record StartMissionBody := mkStartBody {
  sb_title : option string;
  sb_runMode : option string
}.

Inductive StartResponse :=
  | StartOk (missionId : ObjectId)
  | StartServerError.

(** [envModel] is [process.env.OPENAI_MODEL]. *)
Definition start (body : StartMissionBody) (envModel : option string)
    (now : Date) (s : Store) : Store * StartResponse :=
  let runMode := if bool_decide (sb_runMode body = Some "real") then RunReal else RunScripted in
  let title :=
    match sb_title body with
    | Some t => if bool_decide (t = "") then "AI Trends Research Mission" else t
    | None => "AI Trends Research Mission"
    end in
  match ensureIndexes s with
  | None => (s, StartServerError)
  | Some s1 =>
      let '(missionId, s2) := newObjectId s1 in
      let missionDoc :=
        mkMission missionId title StatusRunning 1 now now None None None None
          (Some runMode)
          (if bool_decide (runMode = RunReal) then Some "openai" else None)
          (if bool_decide (runMode = RunReal)
           then Some (match envModel with
                      | Some m => if bool_decide (m = "") then "o3-mini" else m
                      | None => "o3-mini"
                      end)
           else None) in
      let s3 := insertOneMission missionDoc s2 in
      let '(eid, s4) := newObjectId s3 in
      match insertOneEvent
              (mkEvent eid missionId now 1 Planner PLAN
                 "Mission initialized: Research and summarize latest AI trends"
                 [("objective", PStr "AI Trends Research"); ("estimatedSteps", PNum 17)]
                 (Some SrcScripted)) s4 with
      | None => (s4, StartServerError)
      | Some s5 => (s5, StartOk missionId)
      end
  end.

(** ** [POST /api/events/emit] *)

(** A field that is absent from the JSON body reads as the empty string
    (for [step]: as [0]); both are falsy, which is all the handler asks. *)
Record EmitEventBody := mkEmitBody {
  b_missionId : string;
  b_step : Z;
  b_agent : string;
  b_type : string;
  b_summary : string;
  b_payload : option Payload
}.

Definition validAgents : list AgentType := [Planner; Researcher; Executor; Critic].
Definition validTypes : list EventType :=
  [PLAN; ASSIGN; TOOL_CALL; TOOL_RESULT; CHECKPOINT; NOTE; FAIL; RETRY; DONE].

(** [validAgents.includes(body.agent)], returning the matching member. *)
Definition lookupAgent (name : string) : option AgentType :=
  List.find (fun a => bool_decide (agentName a = name)) validAgents.

Definition lookupType (name : string) : option EventType :=
  List.find (fun t => bool_decide (typeName t = name)) validTypes.

Inductive EmitResponse :=
  | EmitBadRequest (error : string)
  | EmitNotFound
  | EmitOk (duplicate : bool)
  | EmitServerError.

(** Lines "Update mission: currentStep = max(currentStep, step)" to
    "Handle DONE events" of the handler. *)
Definition emitUpdateFields (missionCurrentStep : Z) (now : Date)
    (step : Z) (type : EventType) (summary : string) : UpdateFields :=
  mkUpdate now
    (if decide (step > missionCurrentStep) then Some step else None)
    (if decide (type = CHECKPOINT) then Some now else None)
    (if decide (type = CHECKPOINT) then Some summary else None)
    (if decide (type = DONE) then Some StatusDone else None).

Definition missingRequired (body : EmitEventBody) : bool :=
  bool_decide (b_missionId body = "") || bool_decide (b_step body = 0)
  || bool_decide (b_agent body = "") || bool_decide (b_type body = "")
  || bool_decide (b_summary body = "").

(** The handler up to and including [events.insertOne]: the response it
    returns early, or the [$set] document that is still to be written. *)
Definition emitInsert (body : EmitEventBody) (now : Date) (s : Store)
  : Store * (EmitResponse + ObjectId * UpdateFields) :=
  if missingRequired body
  then (s, inl (EmitBadRequest "Missing required fields: missionId, step, agent, type, summary"))
  else
  match parseObjectId (b_missionId body) with
  | None => (s, inl (EmitBadRequest "Invalid missionId format"))
  | Some missionObjectId =>
  match lookupAgent (b_agent body) with
  | None =>
      (s, inl (EmitBadRequest
                 ("Invalid agent. Must be one of: "
                  ++ String.concat ", " (agentName <$> validAgents))%string))
  | Some agent =>
  match lookupType (b_type body) with
  | None =>
      (s, inl (EmitBadRequest
                 ("Invalid type. Must be one of: "
                  ++ String.concat ", " (typeName <$> validTypes))%string))
  | Some type =>
  match ensureIndexes s with
  | None => (s, inl EmitServerError)
  | Some s1 =>
  match missions s1 !! missionObjectId with
  | None => (s1, inl EmitNotFound)
  | Some mission =>
      let '(eid, s2) := newObjectId s1 in
      match insertOneEvent
              (mkEvent eid missionObjectId now (b_step body) agent type
                 (b_summary body) (default [] (b_payload body)) None) s2 with
      | None => (s2, inl (EmitOk true))
      | Some s3 =>
          (s3, inr (missionObjectId,
                    emitUpdateFields (m_currentStep mission) now (b_step body) type
                      (b_summary body)))
      end
  end end end end end.

(** The whole handler: the insert, then [missions.updateOne]. *)
Definition emit (body : EmitEventBody) (now : Date) (s : Store)
  : Store * EmitResponse :=
  match emitInsert body now s with
  | (s', inl response) => (s', response)
  | (s3, inr (missionObjectId, updateFields)) =>
      (updateOneMission missionObjectId updateFields s3, EmitOk false)
  end.

(** ** Content generator ([lib/openai.ts])

    [reply] is the JSON object parsed out of the completion; [None] stands
    for every path of [generateEventWithOpenAI] that returns [null] before
    that point (no API key, HTTP error, empty content, an exception). *)

Record ArtifactUpdate := mkArtifact { au_latestSummary : option string }.

Record LLMReply := mkReply {
  r_summary : option string;
  r_payload : option Payload;
  r_artifactUpdate : option ArtifactUpdate
}.

Record LLMGeneratedEvent := mkGenerated {
  g_summary : string;
  g_payload : Payload;
  g_artifactUpdate : option ArtifactUpdate
}.

Definition generateEventWithOpenAI (reply : option LLMReply) : option LLMGeneratedEvent :=
  match reply with
  | None => None
  | Some parsed =>
      match r_summary parsed with
      | None => None
      | Some sm =>
          if bool_decide (sm = "") then None
          else Some (mkGenerated (substring 0 160 sm) (default [] (r_payload parsed))
                       (r_artifactUpdate parsed))
      end
  end.

(** ** [POST /api/agents/tick] *)

Inductive TickResponse :=
  | TickBadRequest (error : string)
  | TickNotFound
  | TickStatus (status : MissionStatus)
  | TickEvent (step : Z) (used : Source) (event : option MissionEvent)
  | TickServerError.

(** [artifactUpdate?.latestSummary] when truthy, else [summary]. *)
Definition checkpointSummary (artifactUpdate : option ArtifactUpdate) (summary : string)
  : string :=
  match artifactUpdate with
  | Some (mkArtifact (Some x)) => if bool_decide (x = "") then summary else x
  | _ => summary
  end.

(** Lines "Update mission" to "Handle DONE" of the handler. *)
Definition tickUpdateFields (now : Date) (nextStep : Z) (type : EventType)
    (summary : string) (artifactUpdate : option ArtifactUpdate) : UpdateFields :=
  mkUpdate now
    (Some nextStep)
    (if decide (type = CHECKPOINT) then Some now else None)
    (if decide (type = CHECKPOINT) then Some (checkpointSummary artifactUpdate summary)
     else None)
    (if bool_decide (type = DONE) || isFinalStep nextStep then Some StatusDone else None).

(** The content of the event: generator first, scripted table second,
    generic text last. *)
Definition tickContent (reply : option LLMReply) (nextStep : Z)
    (agent : AgentType) (type : EventType)
  : string * Payload * option ArtifactUpdate * Source :=
  match generateEventWithOpenAI reply with
  | Some llmResult =>
      (g_summary llmResult, g_payload llmResult, g_artifactUpdate llmResult, SrcOpenai)
  | None =>
      match List.find (fun e => bool_decide (d_step e = nextStep)) demoScript with
      | Some scriptedEvent =>
          (d_summary scriptedEvent, d_payload scriptedEvent, None, SrcFallback)
      | None =>
          ((agentName agent ++ " completed " ++ typeName type ++ " for step "
             ++ pretty nextStep)%string,
           [("step", PNum nextStep); ("agent", PAgent agent); ("type", PType type)],
           None, SrcFallback)
      end
  end.

(** The handler up to and including [events.insertOne]: the response it
    returns early, or the [$set] document still to be written together with
    the response that follows it. *)
Definition tickInsert (missionId : string) (now : Date) (reply : option LLMReply)
    (s : Store) : Store * (TickResponse + ObjectId * UpdateFields * TickResponse) :=
  if bool_decide (missionId = "") then (s, inl (TickBadRequest "Missing missionId"))
  else
  match parseObjectId missionId with
  | None => (s, inl (TickBadRequest "Invalid missionId format"))
  | Some missionObjectId =>
  match missions s !! missionObjectId with
  | None => (s, inl TickNotFound)
  | Some mission =>
  if bool_decide (m_status mission ≠ StatusRunning)
  then (s, inl (TickStatus (m_status mission)))
  else
  let nextStep := m_currentStep mission + 1 in
  if decide (nextStep > getTotalSteps) then (s, inl (TickStatus StatusDone))
  else
  match getAgentAndTypeForStep nextStep with
  | None => (s, inl (TickStatus (m_status mission)))
  | Some (agent, type) =>
  match findOneEvent missionObjectId nextStep (events s) with
  | Some existingEvent =>
      (s, inl (TickEvent nextStep
                 (if bool_decide (e_source existingEvent = Some SrcOpenai)
                  then SrcOpenai else SrcFallback)
                 (Some existingEvent)))
  | None =>
      let '(summary, payload, artifactUpdate, usedSource) :=
        tickContent reply nextStep agent type in
      let '(eid, s1) := newObjectId s in
      let eventDoc :=
        mkEvent eid missionObjectId now nextStep agent type summary payload
          (Some usedSource) in
      match insertOneEvent eventDoc s1 with
      | None =>
          (s1, inl (TickEvent nextStep SrcFallback
                      (findOneEvent missionObjectId nextStep (events s1))))
      | Some s2 =>
          (s2, inr (missionObjectId,
                    tickUpdateFields now nextStep type summary artifactUpdate,
                    TickEvent nextStep usedSource (Some eventDoc)))
      end
  end end end end.

(** The whole handler: the insert, then [missions.updateOne]. *)
Definition tick (missionId : string) (now : Date) (reply : option LLMReply)
    (s : Store) : Store * TickResponse :=
  match tickInsert missionId now reply s with
  | (s', inl response) => (s', response)
  | (s2, inr (missionObjectId, updateFields, response)) =>
      (updateOneMission missionObjectId updateFields s2, response)
  end.

(** ** [POST /api/missions/fork] *)

(** [f_forkStep = None]: [typeof body.forkStep !== "number"]. *)
Record ForkBody := mkForkBody {
  f_parentMissionId : string;
  f_forkStep : option Z
}.

Inductive ForkResponse :=
  | ForkBadRequest (error : string)
  | ForkNotFound
  | ForkOk (missionId : ObjectId)
  | ForkServerError.

Definition notForkable : string :=
  "No events found at or before the specified forkStep".

(** [events.find({ missionId, step: { $lte: forkStep } }).sort({ step: 1 })] *)
Definition loadParentEvents (parentObjectId : ObjectId) (forkStep : Z)
    (es : list MissionEvent) : list MissionEvent :=
  sortByStep (filter (λ e, e_missionId e = parentObjectId ∧ e_step e <= forkStep) es).

(** [[...parentEvents].reverse().find((e) => e.type === "CHECKPOINT")] *)
Definition lastCheckpointOf (evs : list MissionEvent) : option MissionEvent :=
  List.find (fun e => bool_decide (e_type e = CHECKPOINT)) (rev evs).

(** The object literal of [parentEvents.map((event) => ({ ... }))]: the
    copy has its own [_id], the new [missionId], and no [source]. *)
Definition copyOf (newMissionId oid : ObjectId) (event : MissionEvent) : MissionEvent :=
  mkEvent oid newMissionId (e_ts event) (e_step event) (e_agent event)
    (e_type event) (e_summary event) (e_payload event) None.

(** [parentEvents.map(...)], one [new ObjectId()] per element. *)
Fixpoint copyEvents (newMissionId : ObjectId) (evs : list MissionEvent) (s : Store)
  : list MissionEvent * Store :=
  match evs with
  | [] => ([], s)
  | event :: rest =>
      let '(oid, s1) := newObjectId s in
      let '(copies, s2) := copyEvents newMissionId rest s1 in
      (copyOf newMissionId oid event :: copies, s2)
  end.

(** [lastCheckpoint?.summary || parentMission.artifacts?.latestSummary] *)
Definition forkLatestSummary (lastCheckpoint : option MissionEvent)
    (parentMission : Mission) : option string :=
  match lastCheckpoint with
  | Some c =>
      if bool_decide (e_summary c = "") then m_latestSummary parentMission
      else Some (e_summary c)
  | None => m_latestSummary parentMission
  end.

Definition fork (body : ForkBody) (now : Date) (s : Store) : Store * ForkResponse :=
  match f_forkStep body with
  | None => (s, ForkBadRequest "Missing required fields: parentMissionId, forkStep")
  | Some forkStep =>
  if bool_decide (f_parentMissionId body = "")
  then (s, ForkBadRequest "Missing required fields: parentMissionId, forkStep")
  else
  match parseObjectId (f_parentMissionId body) with
  | None => (s, ForkBadRequest "Invalid parentMissionId format")
  | Some parentObjectId =>
  if decide (forkStep < 1) then (s, ForkBadRequest "forkStep must be an integer >= 1")
  else
  match missions s !! parentObjectId with
  | None => (s, ForkNotFound)
  | Some parentMission =>
  let parentEvents := loadParentEvents parentObjectId forkStep (events s) in
  match last parentEvents with
  | None => (s, ForkBadRequest notForkable)
  | Some lastEvent =>
      let actualForkStep := e_step lastEvent in
      let '(newMissionId, s1) := newObjectId s in
      let lastCheckpoint := lastCheckpointOf parentEvents in
      let newMission :=
        mkMission newMissionId (m_title parentMission ++ " (fork)")%string StatusRunning
          actualForkStep now now
          (e_ts <$> lastCheckpoint)
          (forkLatestSummary lastCheckpoint parentMission)
          (Some parentObjectId) (Some actualForkStep) None None None in
      let s2 := insertOneMission newMission s1 in
      let '(forkedEvents, s3) := copyEvents newMissionId parentEvents s2 in
      match insertManyEvents forkedEvents s3 with
      | (s4, true) => (s4, ForkOk newMissionId)
      | (s4, false) => (s4, ForkServerError)
      end
  end end end end.

(** ** [POST /api/dev/reset] *)

Definition reset (s : Store) : Store * (nat * nat) :=
  (mkStore ∅ [] (uniqueIndex s) (oidCounter s),
   (size (missions s), length (events s))).

(** ** [GET /api/missions/get] *)

Definition getMission (missionId : string) (s : Store)
  : option (Mission * list MissionEvent) :=
  match parseObjectId missionId with
  | None => None
  | Some objectId =>
      match missions s !! objectId with
      | None => None
      | Some mission =>
          Some (mission,
                take 200 (sortByStep (filter (λ e, e_missionId e = objectId) (events s))))
      end
  end.

(** ** Views of the store used by the statements *)

(** The events of one mission, in insertion order. *)
Definition history (mid : ObjectId) (s : Store) : list MissionEvent :=
  filter (λ e, e_missionId e = mid) (events s).

(** The documents stored under one [(missionId, step)] key. *)
Definition eventsAt (mid : ObjectId) (step : Z) (s : Store) : list MissionEvent :=
  List.filter (sameKey mid step) (events s).

(** A body that passes the validation block of the emit handler. *)
Definition validEmitBody (body : EmitEventBody) : Prop :=
  missingRequired body = false
  ∧ is_Some (parseObjectId (b_missionId body))
  ∧ is_Some (lookupAgent (b_agent body))
  ∧ is_Some (lookupType (b_type body)).

(** One request to the API, with the inputs its handler reads. *)
Inductive Request :=
  | RStart (body : StartMissionBody) (envModel : option string) (now : Date)
  | REmit (body : EmitEventBody) (now : Date)
  | RTick (missionId : string) (now : Date) (reply : option LLMReply)
  | RFork (body : ForkBody) (now : Date)
  | RReset.

Definition handle (r : Request) (s : Store) : Store :=
  match r with
  | RStart body envModel now => (start body envModel now s).1
  | REmit body now => (emit body now s).1
  | RTick missionId now reply => (tick missionId now reply s).1
  | RFork body now => (fork body now s).1
  | RReset => (reset s).1
  end.

(** The stores the API can produce from an empty database. *)
Inductive reachable : Store → Prop :=
  | reachable_empty : reachable emptyStore
  | reachable_handle r s : reachable s → reachable (handle r s).

(** [tick] called once per element of [inputs], in order. *)
Fixpoint runTicks (missionId : string) (inputs : list (Date * option LLMReply))
    (s : Store) : Store * list TickResponse :=
  match inputs with
  | [] => (s, [])
  | (now, reply) :: rest =>
      let '(s1, r) := tick missionId now reply s in
      let '(s2, rs) := runTicks missionId rest s1 in
      (s2, r :: rs)
  end.

(** A mission as [start] leaves it: running, at step 1, with the seeded
    step-1 event as its whole log. *)
Definition freshMission (mid : ObjectId) (s : Store) : Prop :=
  ∃ m e,
    missions s !! mid = Some m
    ∧ m_status m = StatusRunning
    ∧ m_currentStep m = 1
    ∧ history mid s = [e]
    ∧ e_step e = 1.

(** ** The aggregate and its folds *)

(** The projected part of a mission record. *)
Record Aggregate := mkAggregate {
  a_status : MissionStatus;
  a_currentStep : Z;
  a_lastCheckpointAt : option Date;
  a_latestSummary : option string
}.

Definition aggregateOf (m : Mission) : Aggregate :=
  mkAggregate (m_status m) (m_currentStep m) (m_lastCheckpointAt m) (m_latestSummary m).

(** The aggregate of an empty log: running, no step reached, no checkpoint. *)
Definition initialAggregate : Aggregate := mkAggregate StatusRunning 0 None None.

(** [$set] restricted to the aggregate fields. *)
Definition applySetAggregate (u : UpdateFields) (a : Aggregate) : Aggregate :=
  mkAggregate
    (default (a_status a) (uf_status u))
    (default (a_currentStep a) (uf_currentStep u))
    (match uf_lastCheckpointAt u with Some t => Some t | None => a_lastCheckpointAt a end)
    (match uf_latestSummary u with Some x => Some x | None => a_latestSummary a end).

(** The update of the emit handler, replayed from a stored event. *)
Definition emitRule (a : Aggregate) (e : MissionEvent) : Aggregate :=
  applySetAggregate
    (emitUpdateFields (a_currentStep a) (e_ts e) (e_step e) (e_type e) (e_summary e)) a.

(** The update of the tick handler, replayed from a stored event; the
    generator's [artifactUpdate] is not stored with the event. *)
Definition tickRule (a : Aggregate) (e : MissionEvent) : Aggregate :=
  applySetAggregate
    (tickUpdateFields (e_ts e) (e_step e) (e_type e) (e_summary e) None) a.

Definition foldEmit (evs : list MissionEvent) : Aggregate :=
  fold_left emitRule evs initialAggregate.

Definition foldTick (evs : list MissionEvent) : Aggregate :=
  fold_left tickRule evs initialAggregate.

(** The folding rule in the words of the specification (section 4.3), kept
    apart from the two rules above, which are the handlers' code. *)
Definition terminalStep : Z := getTotalSteps.

Definition specRule (a : Aggregate) (e : MissionEvent) : Aggregate :=
  mkAggregate
    (if bool_decide (e_type e = DONE ∨ e_step e = terminalStep)
     then StatusDone else a_status a)
    (Z.max (a_currentStep a) (e_step e))
    (if bool_decide (e_type e = CHECKPOINT) then Some (e_ts e) else a_lastCheckpointAt a)
    (if bool_decide (e_type e = CHECKPOINT) then Some (e_summary e) else a_latestSummary a).

Definition specFold (evs : list MissionEvent) : Aggregate :=
  fold_left specRule evs initialAggregate.

(** ** Invariants of the stores the API produces *)

Record wellFormed (s : Store) : Prop := mkWellFormed {
  wf_mission : ∀ id m, missions s !! id = Some m → m_id m = id ∧ (id < oidCounter s)%N;
  wf_event_id : ∀ e, e ∈ events s → (e_id e < oidCounter s)%N;
  wf_owner : ∀ e, e ∈ events s → is_Some (missions s !! e_missionId e);
  wf_unique : NoDup (eventKey <$> events s);
  wf_summary : ∀ e, e ∈ events s → e_summary e ≠ "";
  wf_seed : ∀ id, is_Some (missions s !! id) →
            ∃ e, e ∈ events s ∧ e_missionId e = id ∧ e_step e = 1
}.

(** What the record [m] caches of the log [h], read in arrival order. The
    last three clauses are about [artifacts.latestSummary]: it is the fold's
    when the checkpoint appended last did not come from the generator, it is
    present whenever the log holds a checkpoint, and for a mission that is
    not a fork it is the fold's (absent) when the log holds none. *)
Definition cached (m : Mission) (h : list MissionEvent) : Prop :=
  m_currentStep m = a_currentStep (foldEmit h)
  ∧ m_lastCheckpointAt m = a_lastCheckpointAt (foldEmit h)
  ∧ (m_branchFromMissionId m = None → m_status m = a_status (foldEmit h))
  ∧ (m_status m = StatusDone → a_status (foldEmit h) = StatusDone)
  ∧ m_status m ≠ StatusFailed
  ∧ (∀ c, lastCheckpointOf h = Some c → e_source c ≠ Some SrcOpenai →
          m_latestSummary m = a_latestSummary (foldEmit h))
  ∧ (∀ c, lastCheckpointOf h = Some c → is_Some (m_latestSummary m))
  ∧ (lastCheckpointOf h = None → m_branchFromMissionId m = None →
     m_latestSummary m = a_latestSummary (foldEmit h)).

Definition cacheInv (s : Store) : Prop :=
  ∀ id m, missions s !! id = Some m → cached m (history id s).

(** The fields a fork copies verbatim. *)
Definition sameContent (x y : MissionEvent) : Prop :=
  e_step x = e_step y ∧ e_agent x = e_agent y ∧ e_type x = e_type y
  ∧ e_summary x = e_summary y ∧ e_payload x = e_payload y ∧ e_ts x = e_ts y.

(** The order of [.sort({ step: 1 })]. *)
Definition byStep (x y : MissionEvent) : Prop := e_step x <= e_step y.

(** Mission [mid] has been driven to step [c] by ticks alone: its record
    is at step [c], running before the last step of the schedule and done
    at it, and its log holds one event for each of the steps 1 to [c]. *)
Definition atStep (mid : ObjectId) (c : Z) (s : Store) : Prop :=
  ∃ m,
    missions s !! mid = Some m
    ∧ m_currentStep m = c
    ∧ m_status m = (if bool_decide (c = getTotalSteps) then StatusDone else StatusRunning)
    ∧ e_step <$> history mid s = seqZ 1 c.

(** ** Replay ([app/swarmboard/page.tsx])

    The part of the component state that replay reads and writes. The
    replay functions take no store: they work on the events already fetched
    into [events]. *)

Inductive ViewMode := ModeLive | ModeReplay.

Record Board := mkBoard {
  bd_events : list MissionEvent;
  bd_mode : ViewMode;
  bd_replayEvents : list MissionEvent;
  bd_visibleEvents : list MissionEvent;
  bd_replayIndex : nat;
  bd_replayFinished : bool;
  bd_replayFromCheckpoint : bool
}.

Definition isCheckpoint (e : MissionEvent) : bool := bool_decide (e_type e = CHECKPOINT).

(** [arr.findIndex(p)]; [None] is [-1]. *)
Fixpoint findIndex {A} (p : A → bool) (l : list A) : option nat :=
  match l with
  | [] => None
  | x :: rest => if p x then Some 0%nat else S <$> findIndex p rest
  end.

(** [[...eventsToReplay].map((e, i) => ({ e, i }))
      .filter(({ e }) => e.type === "CHECKPOINT").pop()?.i || 0] *)
Definition lastCheckpointIdx (eventsToReplay : list MissionEvent) : nat :=
  match last (List.filter (λ ei : MissionEvent * nat, isCheckpoint ei.1)
                (imap (λ i e, (e, i)) eventsToReplay)) with
  | Some (_, i) => i
  | None => 0%nat
  end.

Definition startIndexOf (fromCheckpoint : bool) (eventsToReplay : list MissionEvent) : nat :=
  if fromCheckpoint then
    match findIndex isCheckpoint eventsToReplay with
    | Some _ => lastCheckpointIdx eventsToReplay
    | None => 0%nat
    end
  else 0%nat.

Definition startReplay (fromCheckpoint : bool) (b : Board) : Board :=
  match bd_events b with
  | [] => b
  | _ :: _ =>
      let eventsToReplay := bd_events b in
      let startIndex := startIndexOf fromCheckpoint eventsToReplay in
      mkBoard (bd_events b) ModeReplay eventsToReplay
        (take startIndex eventsToReplay) startIndex false fromCheckpoint
  end.

(** One firing of the replay interval; the effect is installed only in
    replay mode and while the replay is not finished. *)
Definition replayTick (b : Board) : Board :=
  match bd_mode b, bd_replayFinished b with
  | ModeReplay, false =>
      let nextIndex := S (bd_replayIndex b) in
      if (length (bd_replayEvents b) <? nextIndex)%nat
      then mkBoard (bd_events b) (bd_mode b) (bd_replayEvents b) (bd_visibleEvents b)
             (bd_replayIndex b) true (bd_replayFromCheckpoint b)
      else mkBoard (bd_events b) (bd_mode b) (bd_replayEvents b)
             (take nextIndex (bd_replayEvents b)) nextIndex
             (bd_replayFinished b) (bd_replayFromCheckpoint b)
  | _, _ => b
  end.

Definition restartReplay (b : Board) : Board :=
  startReplay (bd_replayFromCheckpoint b) b.

(** [visibleEvents.length], shown as "Replaying n/N". *)
Definition revealedCount (b : Board) : nat := length (bd_visibleEvents b).

(** ** The rest of the routes and of the page *)

(** [oid.toString()]: the 24 lowercase hexadecimal digits of the id. *)
Definition hexChar (d : N) : ascii :=
  ascii_of_N (if (d <? 10)%N then d + 48 else d + 87)%N.

Fixpoint toHex (digits : nat) (n : N) : string :=
  match digits with
  | O => ""
  | S k => (toHex k (n / 16)%N ++ String (hexChar (n mod 16)%N) "")%string
  end.

Definition ObjectId_toString (oid : ObjectId) : string := toHex 24 oid.

(** [GET /api/missions/list]: [.sort({ createdAt: -1 }).limit(50)]. *)
Fixpoint insertByCreatedAtDesc (m : Mission) (l : list Mission) : list Mission :=
  match l with
  | [] => [m]
  | x :: rest =>
      if decide (m_createdAt x <= m_createdAt m) then m :: l
      else x :: insertByCreatedAtDesc m rest
  end.

Definition listMissions (s : Store) : list Mission :=
  take 50 (foldr insertByCreatedAtDesc [] (map_to_list (missions s)).*2).

(** The tick handler's context for the generator. *)
Definition CONTEXT_EVENTS_LIMIT : nat := 40.
Definition RERANK_TOP_K : nat := 8.

(** [.sort({ step: -1 })] *)
Fixpoint insertByStepDesc (e : MissionEvent) (l : list MissionEvent) : list MissionEvent :=
  match l with
  | [] => [e]
  | x :: rest =>
      if decide (e_step x <= e_step e) then e :: l else x :: insertByStepDesc e rest
  end.

Definition sortByStepDesc (l : list MissionEvent) : list MissionEvent :=
  foldr insertByStepDesc [] l.

(** [events.find({ missionId }).sort({ step: -1 }).limit(40).toArray()],
    then [contextEvents.reverse()]. *)
Definition contextEvents (missionObjectId : ObjectId) (s : Store) : list MissionEvent :=
  rev (take CONTEXT_EVENTS_LIMIT
         (sortByStepDesc (filter (λ e, e_missionId e = missionObjectId) (events s)))).

(** [arr.slice(-k)]; [slice(-0)] is [slice(0)], the whole array. *)
Definition sliceLast {A} (k : nat) (l : list A) : list A :=
  match k with
  | O => l
  | S _ => drop (length l - k) l
  end.

(** [rerankEvents] ([lib/voyage.ts]). [ranking] is [None] on every path that
    falls back (no API key, a response that is not ok, an exception);
    otherwise it lists the [index] fields of [data.data] in the order the
    sort by descending [relevance_score] leaves them. An index that is
    negative or past the end reads [undefined], which [.filter(Boolean)]
    drops. *)
Definition rerankEvents (ranking : option (list Z)) (candidates : list MissionEvent)
    (topK : nat) : list MissionEvent :=
  match ranking with
  | None => sliceLast topK candidates
  | Some indices =>
      let rankedEvents :=
        omap (λ i : Z, if decide (0 <= i) then candidates !! Z.to_nat i else None) indices in
      match rankedEvents with
      | [] => sliceLast topK candidates
      | _ :: _ => rankedEvents
      end
  end.

(** The events the tick handler passes to [generateEventWithOpenAI], and the
    ones [contextEvents.slice(-8)] keeps of them for the prompt. *)
Definition rankedContext (ranking : option (list Z)) (missionObjectId : ObjectId)
    (s : Store) : list MissionEvent :=
  match contextEvents missionObjectId s with
  | [] => []
  | c :: rest => rerankEvents ranking (c :: rest) RERANK_TOP_K
  end.

Definition promptEvents (ranking : option (list Z)) (missionObjectId : ObjectId)
    (s : Store) : list MissionEvent :=
  sliceLast 8 (rankedContext ranking missionObjectId s).

(** The scripted driver of the page: [scheduleDemoEvents]. The result lists
    the timers set, each with its cumulative delay, and the new content of
    [scheduledStepsRef]. *)
Fixpoint withCumulativeDelay (cumulativeDelay : Z) (l : list DemoEvent)
  : list (Z * DemoEvent) :=
  match l with
  | [] => []
  | event :: rest =>
      let c := cumulativeDelay + d_delayMs event in
      (c, event) :: withCumulativeDelay c rest
  end.

Definition scheduleDemoEvents (scheduledSteps : gset Z) (startFromStep : Z)
  : list (Z * DemoEvent) * gset Z :=
  let eventsToSchedule :=
    List.filter (λ e, bool_decide (d_step e > startFromStep)
                      && negb (bool_decide (d_step e ∈ scheduledSteps))) demoScript in
  (withCumulativeDelay 0 eventsToSchedule,
   scheduledSteps ∪ list_to_set (d_step <$> eventsToSchedule)).

(** The body the page's [emitEvent] posts for a scripted event (its
    [source] field is not read by the handler). *)
Definition emitEventBody (missionId : string) (event : DemoEvent) : EmitEventBody :=
  mkEmitBody missionId (d_step event) (agentName (d_agent event))
    (typeName (d_type event)) (d_summary event) (Some (d_payload event)).

(** The timers fire in order; [fired] pairs each scripted event with the
    server time of its request. *)
Fixpoint emitAll (missionId : string) (fired : list (Date * DemoEvent)) (s : Store)
  : Store :=
  match fired with
  | [] => s
  | (now, event) :: rest =>
      emitAll missionId rest (emit (emitEventBody missionId event) now s).1
  end.

(** [getAgentLatestEvents]: per agent, the event of largest step. *)
Definition getAgentLatestEvents (evts : list MissionEvent)
  : AgentType → option MissionEvent :=
  fold_left
    (λ result event,
       match result (e_agent event) with
       | Some latest =>
           if decide (e_step event > e_step latest)
           then (λ a, if decide (a = e_agent event) then Some event else result a)
           else result
       | None => (λ a, if decide (a = e_agent event) then Some event else result a)
       end)
    evts (λ _, None).

(** [getLastCheckpointStep] *)
Definition getLastCheckpointStep (evts : list MissionEvent) : option Z :=
  e_step <$> lastCheckpointOf evts.

(** ** Interrupted handlers

    The emit and tick handlers write twice: [events.insertOne], then
    [missions.updateOne]. A handler that stops between the two leaves the
    store of [emitInsert] or [tickInsert] behind. An operation is a request
    handled to its end or one such interrupted handler. *)
Inductive Op :=
  | Completed (r : Request)
  | EmitInterrupted (body : EmitEventBody) (now : Date)
  | TickInterrupted (missionId : string) (now : Date) (reply : option LLMReply).

Definition perform (o : Op) (s : Store) : Store :=
  match o with
  | Completed r => handle r s
  | EmitInterrupted body now => (emitInsert body now s).1
  | TickInterrupted missionId now reply => (tickInsert missionId now reply s).1
  end.

(** The stores the API can produce when handlers may be interrupted. *)
Inductive reachableWithCrashes : Store → Prop :=
  | crashes_empty : reachableWithCrashes emptyStore
  | crashes_perform o s : reachableWithCrashes s → reachableWithCrashes (perform o s).

(** Every record caches the events of [applied]: stored events, in arrival
    order, the ones whose update of the record was written. *)
Definition cachesApplied (applied : list MissionEvent) (s : Store) : Prop :=
  applied `sublist_of` events s
  ∧ ∀ id m, missions s !! id = Some m →
      cached m (filter (λ e, e_missionId e = id) applied).

(** The mission a request writes to: the one its body names for emit and
    tick, the one it creates (under the next id) for start and fork. *)
Definition targetOf (r : Request) (s : Store) : option ObjectId :=
  match r with
  | RStart _ _ _ => Some (oidCounter s)
  | REmit body _ => parseObjectId (b_missionId body)
  | RTick missionId _ _ => parseObjectId missionId
  | RFork _ _ => Some (oidCounter s)
  | RReset => None
  end.

(* ================================================================== *)
(** * Properties *)
(* ================================================================== *)

(** ** Basic facts about the database primitives *)

Lemma ensureIndexes_Some s s1 :
  ensureIndexes s = Some s1 →
  missions s1 = missions s ∧ events s1 = events s
  ∧ oidCounter s1 = oidCounter s ∧ uniqueIndex s1 = true.
Proof.
  unfold ensureIndexes. destruct (uniqueIndex s) eqn:Hu.
  - intros [= <-]. auto.
  - case_bool_decide; [|discriminate]. intros [= <-]. auto.
Qed.

Lemma ensureIndexes_indexed s :
  uniqueIndex s = true → ensureIndexes s = Some s.
Proof. unfold ensureIndexes. by intros ->. Qed.

Lemma insertOneEvent_Some e s s' :
  insertOneEvent e s = Some s' →
  s' = setEvents (events s ++ [e]) s
  ∧ (uniqueIndex s = true →
     findOneEvent (e_missionId e) (e_step e) (events s) = None).
Proof.
  unfold insertOneEvent.
  destruct (uniqueIndex s) eqn:Hu; simpl.
  - case_bool_decide as Hf; [discriminate|]. intros [= <-]. split; [done|].
    intros _. destruct (findOneEvent _ _ _) eqn:E; [|done].
    exfalso. apply Hf. eauto.
  - intros [= <-]. split; [done|]. discriminate.
Qed.

Lemma insertOneEvent_None e s :
  insertOneEvent e s = None →
  uniqueIndex s = true
  ∧ is_Some (findOneEvent (e_missionId e) (e_step e) (events s)).
Proof.
  unfold insertOneEvent.
  destruct (uniqueIndex s); simpl; [|discriminate].
  case_bool_decide; [done|discriminate].
Qed.

Lemma insertOneEvent_free e s :
  findOneEvent (e_missionId e) (e_step e) (events s) = None →
  insertOneEvent e s = Some (setEvents (events s ++ [e]) s).
Proof.
  unfold insertOneEvent. intros ->.
  rewrite bool_decide_eq_false_2; [by rewrite andb_false_r|].
  by intros [? ?].
Qed.

Lemma findOneEvent_Some mid step es e :
  findOneEvent mid step es = Some e →
  e ∈ es ∧ e_missionId e = mid ∧ e_step e = step.
Proof.
  unfold findOneEvent. intros H. apply find_some in H as [Hin Hk].
  unfold sameKey in Hk. apply andb_true_iff in Hk as [H1 H2].
  apply bool_decide_eq_true in H1, H2. by rewrite list_elem_of_In.
Qed.

Lemma findOneEvent_None mid step es :
  findOneEvent mid step es = None ↔
  ∀ e, e ∈ es → e_missionId e = mid → e_step e ≠ step.
Proof.
  unfold findOneEvent. split.
  - intros H e Hin Hm Hs. apply list_elem_of_In in Hin.
    eapply find_none in H; [|done]. unfold sameKey in H.
    rewrite !bool_decide_eq_true_2 in H; done.
  - intros H. destruct (List.find _ _) eqn:E; [|done].
    apply findOneEvent_Some in E as (Hin & Hm & Hs). by destruct (H _ Hin Hm).
Qed.

Lemma findOneEvent_app mid step es1 es2 :
  findOneEvent mid step (es1 ++ es2) =
  match findOneEvent mid step es1 with
  | Some e => Some e
  | None => findOneEvent mid step es2
  end.
Proof.
  unfold findOneEvent. induction es1 as [|x es1 IH]; simpl; [done|].
  by destruct (sameKey mid step x).
Qed.

Lemma eventsAt_nil mid step s :
  findOneEvent mid step (events s) = None → eventsAt mid step s = [].
Proof.
  unfold eventsAt, findOneEvent. induction (events s) as [|x es IH]; simpl; [done|].
  destruct (sameKey mid step x); [discriminate|auto].
Qed.

Lemma history_app mid s es :
  history mid (setEvents (events s ++ es) s) =
  history mid s ++ filter (λ e, e_missionId e = mid) es.
Proof. unfold history. simpl. by rewrite filter_app. Qed.

(** ** The step schedule *)

Lemma getTotalSteps_eq : getTotalSteps = 17.
Proof. reflexivity. Qed.

Lemma schedule_total (n : Z) :
  1 <= n <= 17 →
  ∃ agent type,
    getAgentAndTypeForStep n = Some (agent, type)
    ∧ (bool_decide (type = DONE) || isFinalStep n) = bool_decide (n = 17).
Proof.
  intros Hn.
  assert (n = 1 ∨ n = 2 ∨ n = 3 ∨ n = 4 ∨ n = 5 ∨ n = 6 ∨ n = 7 ∨ n = 8 ∨ n = 9
          ∨ n = 10 ∨ n = 11 ∨ n = 12 ∨ n = 13 ∨ n = 14 ∨ n = 15 ∨ n = 16 ∨ n = 17)
    as Hc by lia.
  repeat (destruct Hc as [-> | Hc]); try subst n; eexists _, _; split; reflexivity.
Qed.

Lemma getAgentAndTypeForStep_Some n agent type :
  getAgentAndTypeForStep n = Some (agent, type) →
  mkSchedule n agent type ∈ stepSchedule.
Proof.
  unfold getAgentAndTypeForStep, getScheduleForStep.
  destruct (List.find _ _) as [sc|] eqn:E; [|discriminate].
  intros [= <- <-]. apply find_some in E as [Hin Hk].
  apply bool_decide_eq_true in Hk. subst n. apply list_elem_of_In.
  by destruct sc.
Qed.

(** ** Case analysis of the handlers *)

(** A tick either leaves the database as it is, or appends the scheduled
    event of the next step and updates the mission. *)
Lemma tick_cases missionId now reply s :
  (∃ r, tick missionId now reply s = (s, r)
        ∧ (∀ st, r = TickStatus st →
                 ∃ mid m, parseObjectId missionId = Some mid
                          ∧ missions s !! mid = Some m
                          ∧ (st = m_status m ∨ st = StatusDone))
        ∧ tickInsert missionId now reply s = (s, inl r))
  ∨ ∃ mid mission agent type summary payload artifactUpdate usedSource,
      parseObjectId missionId = Some mid
      ∧ missions s !! mid = Some mission
      ∧ m_status mission = StatusRunning
      ∧ m_currentStep mission + 1 <= getTotalSteps
      ∧ getAgentAndTypeForStep (m_currentStep mission + 1) = Some (agent, type)
      ∧ findOneEvent mid (m_currentStep mission + 1) (events s) = None
      ∧ tickContent reply (m_currentStep mission + 1) agent type
        = (summary, payload, artifactUpdate, usedSource)
      ∧ let eventDoc :=
          mkEvent (oidCounter s) mid now (m_currentStep mission + 1) agent type
            summary payload (Some usedSource) in
        tick missionId now reply s =
          (updateOneMission mid
             (tickUpdateFields now (m_currentStep mission + 1) type summary artifactUpdate)
             (setEvents (events s ++ [eventDoc]) (newObjectId s).2),
           TickEvent (m_currentStep mission + 1) usedSource (Some eventDoc))
        ∧ tickInsert missionId now reply s =
          (setEvents (events s ++ [eventDoc]) (newObjectId s).2,
           inr (mid,
                tickUpdateFields now (m_currentStep mission + 1) type summary artifactUpdate,
                TickEvent (m_currentStep mission + 1) usedSource (Some eventDoc))).
Proof.
  unfold tick, tickInsert.
  case_bool_decide; [left; eexists; split; [done|split; done]|].
  destruct (parseObjectId missionId) as [mid|] eqn:Hp; [|left; eexists; split; [done|split; done]].
  destruct (missions s !! mid) as [mission|] eqn:Hm; [|left; eexists; split; [done|split; done]].
  case_bool_decide as Hst.
  { left; eexists; split; [done|split; [|done]]. intros st [= <-]. eauto 6. }
  case_decide as Hn.
  { left; eexists; split; [done|split; [|done]]. intros st [= <-]. eauto 6. }
  destruct (getAgentAndTypeForStep _) as [[agent type]|] eqn:Hs.
  2:{ left; eexists; split; [done|split; [|done]]. intros st [= <-]. eauto 6. }
  destruct (findOneEvent _ _ _) eqn:Hf; [left; eexists; split; [done|split; done]|].
  destruct (tickContent _ _ _ _) as [[[summary payload] au] used] eqn:Hc.
  simpl. rewrite insertOneEvent_free; [|done].
  right. exists mid, mission, agent, type, summary, payload, au, used.
  repeat split; try done; try lia.
Qed.

Lemma tickContent_source reply n agent type summary payload au used :
  tickContent reply n agent type = (summary, payload, au, used) →
  (used = SrcOpenai ∧ is_Some (generateEventWithOpenAI reply))
  ∨ (used = SrcFallback ∧ generateEventWithOpenAI reply = None ∧ au = None).
Proof.
  unfold tickContent. destruct (generateEventWithOpenAI reply) eqn:E.
  - intros [= <- <- <- <-]. left. eauto.
  - destruct (List.find _ _); intros [= <- <- <- <-]; right; auto.
Qed.

(** An emit request is rejected, finds no mission, hits the unique index,
    or appends its event and updates the mission. *)
Lemma emit_cases body now s :
  (∃ r, emit body now s = (s, r) ∧ r ≠ EmitOk false ∧ r ≠ EmitOk true
        ∧ (validEmitBody body → r = EmitServerError ∧ ensureIndexes s = None))
  ∨ (∃ s1 mid, ensureIndexes s = Some s1 ∧ emit body now s = (s1, EmitNotFound)
        ∧ parseObjectId (b_missionId body) = Some mid ∧ missions s !! mid = None)
  ∨ (∃ s1 mid mission agent type,
        validEmitBody body
        ∧ parseObjectId (b_missionId body) = Some mid
        ∧ lookupAgent (b_agent body) = Some agent
        ∧ lookupType (b_type body) = Some type
        ∧ ensureIndexes s = Some s1
        ∧ missions s !! mid = Some mission
        ∧ ((is_Some (findOneEvent mid (b_step body) (events s))
            ∧ emit body now s = ((newObjectId s1).2, EmitOk true))
           ∨
           (findOneEvent mid (b_step body) (events s) = None
            ∧ let ev := mkEvent (oidCounter s) mid now (b_step body) agent type
                          (b_summary body) (default [] (b_payload body)) None in
              let u := emitUpdateFields (m_currentStep mission) now (b_step body) type
                         (b_summary body) in
              emit body now s =
                (updateOneMission mid u
                   (setEvents (events s ++ [ev]) (newObjectId s1).2),
                 EmitOk false)
              ∧ emitInsert body now s =
                (setEvents (events s ++ [ev]) (newObjectId s1).2, inr (mid, u))))).
Proof.
  unfold emit, emitInsert, validEmitBody.
  destruct (missingRequired body) eqn:Hmiss.
  { left. eexists. do 3 (split; [done|]). intros [? _]. congruence. }
  destruct (parseObjectId _) as [mid|] eqn:Hp.
  2:{ left. eexists. do 3 (split; [done|]). by intros (_ & [? ?] & _). }
  destruct (lookupAgent _) as [agent|] eqn:Ha.
  2:{ left. eexists. do 3 (split; [done|]). by intros (_ & _ & [? ?] & _). }
  destruct (lookupType _) as [type|] eqn:Ht.
  2:{ left. eexists. do 3 (split; [done|]). by intros (_ & _ & _ & [? ?]). }
  destruct (ensureIndexes s) as [s1|] eqn:He.
  2:{ left. eexists. do 3 (split; [done|]). done. }
  destruct (ensureIndexes_Some _ _ He) as (Hms & Hes & Hc & Hu).
  rewrite Hms.
  destruct (missions s !! mid) as [mission|] eqn:Hm.
  2:{ right. left. eauto 6. }
  right. right. exists s1, mid, mission, agent, type.
  repeat split; eauto.
  simpl. destruct (insertOneEvent _ _) as [s3|] eqn:Hi.
  - apply insertOneEvent_Some in Hi as [-> Hfree]. simpl in *.
    right. rewrite Hes, Hc in *. split; [auto|done].
  - apply insertOneEvent_None in Hi as [_ Hsome]. simpl in *.
    left. rewrite Hes in *. done.
Qed.

(** ** C7: the schedule, not the content provider, fixes agent and kind *)

(** C7. Whenever a tick call appends an event, the appended event carries
    exactly the agent and the kind of the step schedule's entry for its
    step, whether its text came from the generator ([SrcOpenai]) or from
    the scripted fallback table ([SrcFallback]). *)
Theorem tick_event_follows_schedule missionId now reply s :
  events (tick missionId now reply s).1 = events s
  ∨ ∃ e used,
      events (tick missionId now reply s).1 = events s ++ [e]
      ∧ (tick missionId now reply s).2 = TickEvent (e_step e) used (Some e)
      ∧ e_source e = Some used
      ∧ ((used = SrcOpenai ∧ is_Some (generateEventWithOpenAI reply))
         ∨ (used = SrcFallback ∧ generateEventWithOpenAI reply = None))
      ∧ getAgentAndTypeForStep (e_step e) = Some (e_agent e, e_type e)
      ∧ mkSchedule (e_step e) (e_agent e) (e_type e) ∈ stepSchedule.
Proof.
  destruct (tick_cases missionId now reply s) as
    [(r & -> & _ & _) | (mid & m & agent & type & summary & payload & au & used &
                     Hp & Hm & Hst & Hle & Hsch & Hfree & Hc & Heq & _)].
  - by left.
  - right. simpl in Heq. rewrite Heq. simpl.
    eexists _, used. repeat split; simpl; try done.
    + destruct (tickContent_source _ _ _ _ _ _ _ _ Hc) as [[-> ?]|(-> & ? & _)]; auto.
    + by apply getAgentAndTypeForStep_Some.
Qed.

(** The scripted table disagrees with the schedule at steps 5 and 9; the
    event a tick appends there still follows the schedule, with the table's
    text and with the generator's. *)
Lemma tick_step5_uses_schedule_agent :
  let at4 := mkStore {[ 0%N := mkMission 0 "t" StatusRunning 4 0 0 None None None None
                                  (Some RunReal) None None ]} [] true 1%N in
  let generated := Some (mkReply (Some "generated text") None None) in
  (d_agent <$> List.find (fun e => bool_decide (d_step e = 5)) demoScript) = Some Researcher
  ∧ ((λ e, (e_agent e, e_type e, e_summary e, e_source e)) <$>
       last (events (tick "000000000000000000000000" 9 None at4).1))
    = Some (Critic, NOTE,
            "Key trend identified: State-space models challenging transformers",
            Some SrcFallback)
  ∧ ((λ e, (e_agent e, e_type e, e_summary e, e_source e)) <$>
       last (events (tick "000000000000000000000000" 9 generated at4).1))
    = Some (Critic, NOTE, "generated text", Some SrcOpenai).
Proof. vm_compute. done. Qed.

(** ** C9: validation of the step of an emit request *)

Lemma emit_step_zero_rejected body now s :
  b_step body = 0 →
  ∃ msg, emit body now s = (s, EmitBadRequest msg).
Proof.
  intros H0. unfold emit, emitInsert, missingRequired. rewrite H0. simpl.
  rewrite orb_true_r. simpl. eauto.
Qed.

(** A negative step is truthy: the required-field test lets it through and
    the event is stored. *)
Lemma emit_negative_step_accepted body now s mid m :
  validEmitBody body →
  b_step body < 0 →
  parseObjectId (b_missionId body) = Some mid →
  uniqueIndex s = true →
  missions s !! mid = Some m →
  findOneEvent mid (b_step body) (events s) = None →
  (emit body now s).2 = EmitOk false
  ∧ ∃ e, events (emit body now s).1 = events s ++ [e] ∧ e_step e = b_step body.
Proof.
  intros Hv Hneg Hp Hu Hm Hfree.
  destruct (emit_cases body now s) as
    [(r & Heq & _ & _ & Hr) | [(s1 & mid' & _ & _ & Hp' & Hm')
     | (s1 & mid' & mission & agent & type & _ & Hp' & _ & _ & He & Hm' & Hcase)]].
  - destruct (Hr Hv) as [_ Hn]. rewrite ensureIndexes_indexed in Hn; done.
  - congruence.
  - assert (mid' = mid) as -> by congruence.
    destruct Hcase as [[[x Hx] _] | [_ [Heq _]]]; [congruence|].
    simpl in Heq. rewrite Heq. simpl. eauto.
Qed.

(** C9, at the failing input: on the store [start] produces from an empty
    database, an emit request with step [-1] (every other field valid) is
    answered [{ok: true}], its event is stored and the mission record is
    written. *)
Theorem emit_negative_step_is_persisted :
  let s0 := (start (mkStartBody None None) None 100 emptyStore).1 in
  let body := mkEmitBody "000000000000000000000000" (-1) "Critic" "NOTE" "late note" None in
  (emit body 200 s0).2 = EmitOk false
  ∧ (e_step <$> events (emit body 200 s0).1) = [1; -1]
  ∧ (m_updatedAt <$> missions s0 !! 0%N) = Some 100
  ∧ (m_updatedAt <$> missions (emit body 200 s0).1 !! 0%N) = Some 200.
Proof. vm_compute. done. Qed.

(** ** C3: a second emit at an occupied step *)

Lemma missions_updateOne mid u s :
  missions (updateOneMission mid u s) = alter (applySet u) mid (missions s).
Proof. done. Qed.

(** C3. When a first emit call has stored its event, any later valid emit
    call for the same mission and step, whatever its content, is answered
    [{ok: true, duplicate: true}] and leaves both collections as they were:
    the key holds exactly one event, with the first writer's content. *)
Theorem emit_duplicate_is_idempotent b1 b2 now1 now2 s s1 :
  emit b1 now1 s = (s1, EmitOk false) →
  validEmitBody b2 →
  parseObjectId (b_missionId b2) = parseObjectId (b_missionId b1) →
  b_step b2 = b_step b1 →
  ∃ mid e,
    parseObjectId (b_missionId b1) = Some mid
    ∧ (emit b2 now2 s1).2 = EmitOk true
    ∧ events (emit b2 now2 s1).1 = events s1
    ∧ missions (emit b2 now2 s1).1 = missions s1
    ∧ eventsAt mid (b_step b1) (emit b2 now2 s1).1 = [e]
    ∧ e_summary e = b_summary b1
    ∧ e_payload e = default [] (b_payload b1)
    ∧ e_ts e = now1
    ∧ lookupAgent (b_agent b1) = Some (e_agent e)
    ∧ lookupType (b_type b1) = Some (e_type e).
Proof.
  intros H1 Hv2 Hsame Hstep.
  destruct (emit_cases b1 now1 s) as
    [(r & Heq & Hr & _) | [(s0 & mid & _ & Heq & _)
     | (s0 & mid & mission & agent & type & _ & Hp & Ha & Ht & He & Hm & Hcase)]];
    [congruence | congruence |].
  destruct Hcase as [[_ Heq] | [Hfree [Heq _]]]; [congruence|].
  simpl in Heq. rewrite H1 in Heq. injection Heq as ->.
  destruct (ensureIndexes_Some _ _ He) as (Hms & Hes & Hc & Hu).
  set (ev := mkEvent _ _ _ _ _ _ _ _ _).
  set (s1 := updateOneMission _ _ _).
  assert (Hu1 : uniqueIndex s1 = true) by done.
  assert (Hev1 : events s1 = events s ++ [ev]) by done.
  assert (Hfound : findOneEvent mid (b_step b1) (events s1) = Some ev).
  { rewrite Hev1, findOneEvent_app, Hfree. unfold findOneEvent, sameKey. simpl.
    by rewrite !bool_decide_eq_true_2. }
  assert (Hat : eventsAt mid (b_step b1) s1 = [ev]).
  { unfold eventsAt. rewrite Hev1, List.filter_app.
    fold (eventsAt mid (b_step b1) s). rewrite eventsAt_nil by done.
    unfold sameKey. simpl. by rewrite !bool_decide_eq_true_2. }
  exists mid, ev. split; [done|].
  destruct (emit_cases b2 now2 s1) as
    [(r & _ & _ & _ & Hr) | [(s2 & mid' & _ & _ & Hp' & Hm')
     | (s2 & mid' & mission' & agent' & type' & _ & Hp' & _ & _ & He' & Hm' & Hcase)]].
  - destruct (Hr Hv2) as [_ Hn]. rewrite ensureIndexes_indexed in Hn; done.
  - assert (mid' = mid) as -> by congruence.
    subst s1. rewrite missions_updateOne, lookup_alter_eq in Hm'. simpl in Hm'.
    rewrite Hms, Hm in Hm'. done.
  - assert (mid' = mid) as -> by congruence.
    rewrite ensureIndexes_indexed in He' by done. injection He' as <-.
    rewrite Hstep in Hcase.
    destruct Hcase as [[_ Heq] | [Hnone _]]; [|congruence].
    rewrite Heq. simpl. repeat split; done.
Qed.

(** C3, on the scenario of the specification: start, then two emits at
    step 2 with different summaries. *)
Lemma emit_duplicate_is_idempotent_witness :
  let s0 := (start (mkStartBody None None) None 100 emptyStore).1 in
  let b1 := mkEmitBody "000000000000000000000000" 2 "Planner" "ASSIGN" "summaryA" None in
  let b2 := mkEmitBody "000000000000000000000000" 2 "Critic" "NOTE" "summaryB" None in
  ∃ mid e,
    parseObjectId (b_missionId b1) = Some mid
    ∧ (emit b2 300 (emit b1 200 s0).1).2 = EmitOk true
    ∧ events (emit b2 300 (emit b1 200 s0).1).1 = events (emit b1 200 s0).1
    ∧ missions (emit b2 300 (emit b1 200 s0).1).1 = missions (emit b1 200 s0).1
    ∧ eventsAt mid (b_step b1) (emit b2 300 (emit b1 200 s0).1).1 = [e]
    ∧ e_summary e = b_summary b1
    ∧ e_payload e = default [] (b_payload b1)
    ∧ e_ts e = 200
    ∧ lookupAgent (b_agent b1) = Some (e_agent e)
    ∧ lookupType (b_type b1) = Some (e_type e).
Proof.
  intros s0 b1 b2.
  apply (emit_duplicate_is_idempotent b1 b2 200 300 s0 (emit b1 200 s0).1).
  - reflexivity.
  - repeat split; vm_compute; eauto.
  - reflexivity.
  - reflexivity.
Defined.

(** ** The fork handler's bulk copy *)

Lemma copyEvents_spec nid evs s :
  copyEvents nid evs s =
  (imap (λ i e, copyOf nid (oidCounter s + N.of_nat i)%N e) evs,
   mkStore (missions s) (events s) (uniqueIndex s)
     (oidCounter s + N.of_nat (length evs))%N).
Proof.
  revert s. induction evs as [|e evs IH]; intros s; simpl.
  - rewrite N.add_0_r. by destruct s.
  - rewrite IH. simpl. f_equal.
    + f_equal; [by rewrite N.add_0_r|].
      apply imap_ext. intros i x _. simpl. f_equal. lia.
    + f_equal. lia.
Qed.

Lemma insertManyEvents_spec docs s :
  ∃ inserted,
    (insertManyEvents docs s).1 = setEvents (events s ++ inserted) s
    ∧ inserted `prefix_of` docs
    ∧ ((insertManyEvents docs s).2 = true → inserted = docs).
Proof.
  revert s. induction docs as [|d docs IH]; intros s; simpl.
  - exists []. rewrite app_nil_r. by destruct s.
  - destruct (insertOneEvent d s) as [s'|] eqn:Hi.
    + apply insertOneEvent_Some in Hi as [-> _].
      destruct (IH (setEvents (events s ++ [d]) s)) as (ins & Heq & Hpre & Hall).
      exists (d :: ins). rewrite Heq. simpl. rewrite <- app_assoc. simpl.
      repeat split; [by apply prefix_cons|]. intros H. by rewrite Hall.
    + exists []. simpl. rewrite app_nil_r. repeat split; [by destruct s| |done].
      apply prefix_nil.
Qed.

Lemma insertManyEvents_free docs s :
  (∀ d, d ∈ docs → findOneEvent (e_missionId d) (e_step d) (events s) = None) →
  NoDup (eventKey <$> docs) →
  insertManyEvents docs s = (setEvents (events s ++ docs) s, true).
Proof.
  revert s. induction docs as [|d docs IH]; intros s Hfree Hnd; simpl.
  - rewrite app_nil_r. by destruct s.
  - rewrite insertOneEvent_free by (apply Hfree; left).
    rewrite fmap_cons in Hnd. apply NoDup_cons in Hnd as [Hd Hnd].
    rewrite IH; simpl.
    + by rewrite <- app_assoc.
    + intros d' Hin. rewrite findOneEvent_app, Hfree by (by right).
      unfold findOneEvent, sameKey. simpl.
      destruct (bool_decide (e_missionId d = e_missionId d')) eqn:E1;
      destruct (bool_decide (e_step d = e_step d')) eqn:E2; simpl; try done.
      apply bool_decide_eq_true in E1, E2. exfalso. apply Hd.
      apply list_elem_of_fmap. exists d'. split; [|done].
      unfold eventKey. by rewrite E1, E2.
    + done.
Qed.

(** A fork is rejected and leaves the database as it is, or it inserts the
    new mission and then as many copies as the bulk insert accepts. *)
Lemma fork_cases body now s :
  (∃ r, fork body now s = (s, r) ∧ (∀ id, r ≠ ForkOk id))
  ∨ ∃ forkStep parentObjectId parentMission lastEvent inserted,
      let parentEvents := loadParentEvents parentObjectId forkStep (events s) in
      let lastCheckpoint := lastCheckpointOf parentEvents in
      let newMission :=
        mkMission (oidCounter s) (m_title parentMission ++ " (fork)")%string StatusRunning
          (e_step lastEvent) now now (e_ts <$> lastCheckpoint)
          (forkLatestSummary lastCheckpoint parentMission)
          (Some parentObjectId) (Some (e_step lastEvent)) None None None in
      let copies :=
        imap (λ i e, copyOf (oidCounter s) (N.succ (oidCounter s) + N.of_nat i)%N e)
          parentEvents in
      f_forkStep body = Some forkStep
      ∧ parseObjectId (f_parentMissionId body) = Some parentObjectId
      ∧ 1 <= forkStep
      ∧ missions s !! parentObjectId = Some parentMission
      ∧ last parentEvents = Some lastEvent
      ∧ inserted `prefix_of` copies
      ∧ (fork body now s).1 =
          mkStore (<[oidCounter s := newMission]> (missions s))
            (events s ++ inserted) (uniqueIndex s)
            (N.succ (oidCounter s) + N.of_nat (length parentEvents))%N
      ∧ ((fork body now s).2 = ForkOk (oidCounter s) ∧ inserted = copies
         ∨ (fork body now s).2 = ForkServerError).
Proof.
  unfold fork.
  destruct (f_forkStep body) as [forkStep|] eqn:Hf; [|left; eauto].
  case_bool_decide; [left; eauto|].
  destruct (parseObjectId _) as [pid|] eqn:Hp; [|left; eauto].
  case_decide; [left; eauto|].
  destruct (missions s !! pid) as [pm|] eqn:Hm; [|left; eauto].
  destruct (last _) as [lastEvent|] eqn:Hl; [|left; eauto].
  right. exists forkStep, pid, pm, lastEvent.
  simpl. rewrite copyEvents_spec. simpl.
  match goal with |- context [insertManyEvents ?d ?st] =>
    destruct (insertManyEvents_spec d st) as (ins & Heq & Hpre & Hall);
    destruct (insertManyEvents d st) as [s4 [|]] eqn:Hi end;
    simpl in *; subst s4; exists ins; simpl.
  - rewrite Hall by done. repeat split; try done; try lia. by left.
  - repeat split; try done; try lia. by right.
Qed.

(** ** C2: what the folding rules compute *)

Lemma foldEmit_snoc h e : foldEmit (h ++ [e]) = emitRule (foldEmit h) e.
Proof. unfold foldEmit. by rewrite fold_left_app. Qed.

Lemma foldTick_snoc h e : foldTick (h ++ [e]) = tickRule (foldTick h) e.
Proof. unfold foldTick. by rewrite fold_left_app. Qed.

Lemma emitRule_currentStep a e :
  a_currentStep (emitRule a e) = Z.max (a_currentStep a) (e_step e).
Proof. unfold emitRule. simpl. case_decide; simpl; lia. Qed.

Lemma emitRule_status a e :
  a_status (emitRule a e) = if decide (e_type e = DONE) then StatusDone else a_status a.
Proof. unfold emitRule. simpl. by case_decide. Qed.

Lemma emitRule_lastCheckpointAt a e :
  a_lastCheckpointAt (emitRule a e) =
  if decide (e_type e = CHECKPOINT) then Some (e_ts e) else a_lastCheckpointAt a.
Proof. unfold emitRule. simpl. by case_decide. Qed.

Lemma emitRule_latestSummary a e :
  a_latestSummary (emitRule a e) =
  if decide (e_type e = CHECKPOINT) then Some (e_summary e) else a_latestSummary a.
Proof. unfold emitRule. simpl. by case_decide. Qed.

Lemma foldEmit_currentStep h :
  0 <= a_currentStep (foldEmit h)
  ∧ (∀ e, e ∈ h → e_step e <= a_currentStep (foldEmit h))
  ∧ (a_currentStep (foldEmit h) = 0
     ∨ ∃ e, e ∈ h ∧ e_step e = a_currentStep (foldEmit h)).
Proof.
  induction h as [|x h (IH0 & IHle & IHmax)] using rev_ind.
  - simpl. split; [done|]. split; [|by left]. intros e He. by apply elem_of_nil in He.
  - rewrite foldEmit_snoc, emitRule_currentStep. split; [lia|]. split.
    + intros e [He| ->%list_elem_of_singleton]%elem_of_app; [|lia].
      specialize (IHle e He). lia.
    + destruct (decide (a_currentStep (foldEmit h) < e_step x)).
      * right. exists x. split; [|lia]. apply elem_of_app. right. by left.
      * rewrite Z.max_l by lia. destruct IHmax as [?|(e & He & ?)]; [by left|].
        right. exists e. split; [|done]. apply elem_of_app. by left.
Qed.

Lemma foldEmit_done h :
  a_status (foldEmit h) = StatusDone ↔ ∃ e, e ∈ h ∧ e_type e = DONE.
Proof.
  induction h as [|x h IH] using rev_ind.
  - simpl. split; [done|]. intros (e & He & _). by apply elem_of_nil in He.
  - rewrite foldEmit_snoc, emitRule_status. case_decide as Hd.
    + split; [|done]. intros _. exists x. split; [|done]. apply elem_of_app. right. by left.
    + rewrite IH. split.
      * intros (e & He & ?). exists e. split; [|done]. apply elem_of_app. by left.
      * intros (e & [He| ->%list_elem_of_singleton]%elem_of_app & ?); [eauto|done].
Qed.

Lemma foldEmit_status h :
  a_status (foldEmit h) = StatusRunning ∨ a_status (foldEmit h) = StatusDone.
Proof.
  induction h as [|x h IH] using rev_ind; [by left|].
  rewrite foldEmit_snoc, emitRule_status. case_decide; auto.
Qed.

Lemma isFinalStep_true n : isFinalStep n = true ↔ n = 17.
Proof.
  split; [|by intros ->].
  unfold isFinalStep, getScheduleForStep.
  destruct (List.find _ _) as [sc|] eqn:E; [|done].
  intros Hd%bool_decide_eq_true. apply find_some in E as [Hin Hk].
  apply bool_decide_eq_true in Hk. subst n.
  unfold stepSchedule in Hin. simpl in Hin.
  repeat (destruct Hin as [<-|Hin]; [by (discriminate Hd || reflexivity)|]). done.
Qed.

Lemma scheduled_final n agent type :
  getAgentAndTypeForStep n = Some (agent, type) →
  isFinalStep n = bool_decide (type = DONE).
Proof.
  unfold getAgentAndTypeForStep, isFinalStep.
  destruct (getScheduleForStep n); [|done]. by intros [= <- <-].
Qed.

Lemma foldTick_done h :
  a_status (foldTick h) = StatusDone ↔
  ∃ e, e ∈ h ∧ (e_type e = DONE ∨ e_step e = terminalStep).
Proof.
  induction h as [|x h IH] using rev_ind.
  - simpl. split; [done|]. intros (e & He & _). by apply elem_of_nil in He.
  - rewrite foldTick_snoc. unfold tickRule at 1. simpl.
    destruct (bool_decide (e_type x = DONE) || isFinalStep (e_step x)) eqn:Hb; simpl.
    + split; [|done]. intros _. exists x. split; [apply elem_of_app; right; by left|].
      apply orb_true_iff in Hb as [Hb%bool_decide_eq_true|Hb%isFinalStep_true]; auto.
    + apply orb_false_iff in Hb as [Hb1%bool_decide_eq_false Hb2].
      rewrite IH. split.
      * intros (e & He & ?). exists e. split; [|done]. apply elem_of_app. by left.
      * intros (e & [He| ->%list_elem_of_singleton]%elem_of_app & Hx); [eauto|].
        destruct Hx as [?|Hx%isFinalStep_true]; [done|congruence].
Qed.

Lemma foldTick_currentStep h :
  a_currentStep (foldTick h) = default 0 (e_step <$> last h).
Proof.
  destruct h as [|x h] using rev_ind; [done|].
  rewrite foldTick_snoc, last_snoc. done.
Qed.

Lemma foldEmit_currentStep_max h :
  a_currentStep (foldEmit h) = fold_left Z.max (e_step <$> h) 0.
Proof.
  induction h as [|x h IH] using rev_ind; [done|].
  rewrite foldEmit_snoc, emitRule_currentStep, fmap_app, fold_left_app, IH. done.
Qed.

(** C2 (amended). Folding any sequence of events with the emit handler's
    rule yields as currentStep the largest of 0 and the steps of the
    sequence, in whatever order the events come: the largest step of the
    sequence when it holds a step that is not negative, and 0 for the empty
    sequence and for one of negative steps only. It yields status done
    exactly when the sequence holds a done-kind event: an event at step 17
    of another kind does not finish the mission. Folding with the tick
    handler's rule sets currentStep to the step of the last event (the
    largest one for a sequence in step order) and status done exactly when
    the sequence holds a done-kind event or an event at step 17. *)
Theorem fold_currentStep_and_status (prefix : list MissionEvent) :
  (a_currentStep (foldEmit prefix) = fold_left Z.max (e_step <$> prefix) 0
   ∧ 0 <= a_currentStep (foldEmit prefix)
   ∧ (∀ e, e ∈ prefix → e_step e <= a_currentStep (foldEmit prefix))
   ∧ (a_currentStep (foldEmit prefix) = 0
      ∨ ∃ e, e ∈ prefix ∧ e_step e = a_currentStep (foldEmit prefix))
   ∧ ((∃ e, e ∈ prefix ∧ 0 <= e_step e) →
      ∃ e, e ∈ prefix ∧ e_step e = a_currentStep (foldEmit prefix))
   ∧ (prefix = [] ∨ (∀ e, e ∈ prefix → e_step e < 0) →
      a_currentStep (foldEmit prefix) = 0))
  ∧ (a_status (foldEmit prefix) = StatusDone ↔ ∃ e, e ∈ prefix ∧ e_type e = DONE)
  ∧ a_currentStep (foldTick prefix) = default 0 (e_step <$> last prefix)
  ∧ (a_status (foldTick prefix) = StatusDone ↔
     ∃ e, e ∈ prefix ∧ (e_type e = DONE ∨ e_step e = 17)).
Proof.
  split.
  { destruct (foldEmit_currentStep prefix) as (H0 & Hle & Hatt).
    split; [apply foldEmit_currentStep_max|]. split; [done|]. split; [done|].
    split; [done|]. split.
    - intros (e & He & Hpos). destruct Hatt as [Hz|?]; [|done].
      exists e. split; [done|]. specialize (Hle e He). lia.
    - intros [->|Hneg]; [done|].
      destruct Hatt as [?|(e & He & Heq)]; [done|].
      specialize (Hneg e He). lia. }
  split; [apply foldEmit_done|].
  split; [apply foldTick_currentStep|].
  apply foldTick_done.
Qed.

(** C2 as stated fails for the emit rule, in both parts. After [start] and
    an emit of a NOTE event at step 17, the log in step order holds an event
    at the terminal step, while the fold with the emit rule, like the stored
    mission record, still says running. And after [start] and an emit at
    step -1, the log in step order begins with the event of step -1, and the
    fold of that one-event prefix has currentStep 0, which is the step of
    none of its events. *)
Lemma fold_terminal_step_counterexample :
  (let s := (emit (mkEmitBody "000000000000000000000000" 17 "Critic" "NOTE" "n" None) 200
               (start (mkStartBody None None) None 100 emptyStore).1).1 in
   let log := sortByStep (history 0 s) in
   ¬ (∀ prefix, prefix `prefix_of` log →
        a_status (foldEmit prefix) = StatusDone ↔
        ∃ e, e ∈ prefix ∧ (e_type e = DONE ∨ e_step e = 17)))
  ∧ (let s := (emit (mkEmitBody "000000000000000000000000" (-1) "Critic" "NOTE" "n" None) 200
                 (start (mkStartBody None None) None 100 emptyStore).1).1 in
     let log := sortByStep (history 0 s) in
     (e_step <$> log) = [-1; 1]
     ∧ a_currentStep (foldEmit (take 1 log)) = 0
     ∧ ¬ (∀ prefix, prefix `prefix_of` log → prefix ≠ [] →
            ∃ e, e ∈ prefix ∧ e_step e = a_currentStep (foldEmit prefix))).
Proof.
  split.
  - intros s log H.
    destruct (H log) as [_ Hdone]; [done|].
    assert (a_status (foldEmit log) = StatusDone) as Hs.
    { apply Hdone. exists (mkEvent 2 0 200 17 Critic NOTE "n" [] None).
      split; [|by right]. apply list_elem_of_In. vm_compute. auto. }
    vm_compute in Hs. discriminate.
  - intros s log. split; [vm_compute; reflexivity|]. split; [vm_compute; reflexivity|].
    intros H.
    destruct (H (take 1 log)) as (e & He & Heq).
    + apply prefix_take.
    + vm_compute. discriminate.
    + assert (Hfold : a_currentStep (foldEmit (take 1 log)) = 0) by (vm_compute; reflexivity).
      rewrite Hfold in Heq.
      assert (Hsteps : e_step <$> take 1 log = [-1]) by (vm_compute; reflexivity).
      assert (e_step e ∈ e_step <$> take 1 log) as Hin
        by (apply list_elem_of_fmap; by exists e).
      rewrite Hsteps in Hin. apply list_elem_of_singleton in Hin. lia.
Qed.

(** ** Sorting by step *)

Lemma insertByStep_perm e l : insertByStep e l ≡ₚ e :: l.
Proof.
  induction l as [|x l IH]; simpl; [done|].
  case_decide; [done|]. rewrite IH. apply Permutation_swap.
Qed.

Lemma sortByStep_perm l : sortByStep l ≡ₚ l.
Proof.
  induction l as [|x l IH]; simpl; [done|].
  by rewrite insertByStep_perm, IH.
Qed.

Lemma insertByStep_sorted e l :
  StronglySorted byStep l → StronglySorted byStep (insertByStep e l).
Proof.
  induction 1 as [|x l Hs IH Hall]; simpl.
  - repeat constructor.
  - case_decide as Hle.
    + constructor; [by constructor|]. constructor; [done|].
      eapply Forall_impl; [exact Hall|]. unfold byStep. intros; simpl in *; lia.
    + constructor; [done|]. rewrite insertByStep_perm. constructor; [|done].
      unfold byStep. lia.
Qed.

Lemma sortByStep_sorted l : StronglySorted byStep (sortByStep l).
Proof.
  induction l as [|x l IH]; simpl; [constructor|]. by apply insertByStep_sorted.
Qed.

Lemma sortByStep_elem l e : e ∈ sortByStep l ↔ e ∈ l.
Proof. by rewrite sortByStep_perm. Qed.

Lemma sortByStep_last l x :
  last (sortByStep l) = Some x → x ∈ l ∧ ∀ e, e ∈ l → e_step e <= e_step x.
Proof.
  intros Hl. pose proof (sortByStep_sorted l) as Hs.
  apply last_Some in Hl as [l' Hl']. rewrite Hl' in Hs.
  split.
  - apply sortByStep_elem. rewrite Hl'. apply elem_of_app. right. by left.
  - intros e He. apply sortByStep_elem in He. rewrite Hl' in He.
    apply elem_of_app in He as [He| ->%list_elem_of_singleton]; [|lia].
    eapply (StronglySorted_app_1_elem_of byStep l' [x] e x); [done..|by left].
Qed.

Lemma sortByStep_id l : StronglySorted byStep l → sortByStep l = l.
Proof.
  induction 1 as [|x l Hs IH Hall]; simpl; [done|].
  rewrite IH. destruct l as [|y l]; simpl; [done|].
  apply Forall_cons in Hall as [Hxy _]. unfold byStep in Hxy. by case_decide.
Qed.

(** ** Checkpoints in a log *)

Lemma lastCheckpointOf_snoc h e :
  lastCheckpointOf (h ++ [e]) =
  if decide (e_type e = CHECKPOINT) then Some e else lastCheckpointOf h.
Proof.
  unfold lastCheckpointOf. rewrite rev_app_distr. simpl.
  case_decide; [by rewrite bool_decide_eq_true_2|by rewrite bool_decide_eq_false_2].
Qed.

Lemma lastCheckpointOf_Some h c :
  lastCheckpointOf h = Some c → c ∈ h ∧ e_type c = CHECKPOINT.
Proof.
  unfold lastCheckpointOf. intros [Hin Hc]%find_some.
  apply bool_decide_eq_true in Hc. split; [|done].
  apply list_elem_of_In. by apply in_rev.
Qed.

Lemma lastCheckpointOf_None h :
  lastCheckpointOf h = None ↔ ∀ e, e ∈ h → e_type e ≠ CHECKPOINT.
Proof.
  unfold lastCheckpointOf. split.
  - intros H e He Ht. apply list_elem_of_In, in_rev in He.
    eapply find_none in H; [|done]. simpl in H. by apply bool_decide_eq_false in H.
  - intros H. destruct (List.find _ _) eqn:E; [|done].
    apply find_some in E as [Hin Hc%bool_decide_eq_true].
    apply in_rev, list_elem_of_In in Hin. by destruct (H _ Hin).
Qed.

Lemma foldEmit_checkpoint h :
  a_lastCheckpointAt (foldEmit h) = e_ts <$> lastCheckpointOf h
  ∧ a_latestSummary (foldEmit h) = e_summary <$> lastCheckpointOf h.
Proof.
  induction h as [|x h [IH1 IH2]] using rev_ind; [done|].
  rewrite foldEmit_snoc, emitRule_lastCheckpointAt, emitRule_latestSummary,
    lastCheckpointOf_snoc.
  by case_decide.
Qed.

Lemma foldEmit_sameContent l l' :
  Forall2 sameContent l l' → foldEmit l = foldEmit l'.
Proof.
  unfold foldEmit. intros H. generalize initialAggregate.
  induction H as [|x y l l' (Hs & _ & Ht & Hsum & _ & Hts) _ IH]; intros a0; simpl; [done|].
  rewrite IH. f_equal. unfold emitRule. by rewrite Hs, Ht, Hsum, Hts.
Qed.

(** ** The copies a fork makes *)

Lemma imap_sameContent (f : nat → MissionEvent → MissionEvent) l :
  (∀ i x, sameContent x (f i x)) → Forall2 sameContent l (imap f l).
Proof.
  revert f. induction l as [|x l IH]; intros f Hf; simpl; [constructor|].
  constructor; [apply Hf|]. apply IH. intros i y. apply Hf.
Qed.

Lemma copyOf_sameContent nid oid e : sameContent e (copyOf nid oid e).
Proof. by repeat split. Qed.

Lemma copies_elem nid base l cp :
  cp ∈ imap (λ i e, copyOf nid (base + N.of_nat i)%N e) l →
  ∃ i src, l !! i = Some src ∧ cp = copyOf nid (base + N.of_nat i)%N src.
Proof.
  intros (i & src & -> & Hl)%elem_of_lookup_imap. eauto.
Qed.

Lemma copies_steps nid base l :
  e_step <$> imap (λ i e, copyOf nid (base + N.of_nat i)%N e) l = e_step <$> l.
Proof.
  rewrite fmap_imap. rewrite <- imap_const. by apply imap_ext.
Qed.

Lemma NoDup_steps l mid :
  NoDup (eventKey <$> l) → (∀ e, e ∈ l → e_missionId e = mid) → NoDup (e_step <$> l).
Proof.
  induction l as [|x l IH]; simpl; [constructor|].
  intros [Hx Hnd]%NoDup_cons Hall.
  apply NoDup_cons. split.
  - intros (y & Hxy & Hy)%list_elem_of_fmap. apply Hx.
    apply list_elem_of_fmap. exists y. split; [|done]. unfold eventKey.
    rewrite Hxy. f_equal. rewrite (Hall x), (Hall y); [done|by right|by left].
  - apply IH; [done|]. intros e He. apply Hall. by right.
Qed.

Lemma NoDup_keys_of_steps l mid :
  NoDup (e_step <$> l) → (∀ e, e ∈ l → e_missionId e = mid) → NoDup (eventKey <$> l).
Proof.
  induction l as [|x l IH]; simpl; [constructor|].
  intros [Hx Hnd]%NoDup_cons Hall.
  apply NoDup_cons. split.
  - intros (y & Hxy & Hy)%list_elem_of_fmap. apply Hx.
    apply list_elem_of_fmap. exists y. split; [|done]. by injection Hxy.
  - apply IH; [done|]. intros e He. apply Hall. by right.
Qed.

Lemma loadParentEvents_elem pid forkStep es e :
  e ∈ loadParentEvents pid forkStep es ↔
  e ∈ es ∧ e_missionId e = pid ∧ e_step e <= forkStep.
Proof.
  unfold loadParentEvents. rewrite sortByStep_elem, list_elem_of_filter. tauto.
Qed.

Lemma loadParentEvents_NoDup pid forkStep es :
  NoDup (eventKey <$> es) → NoDup (e_step <$> loadParentEvents pid forkStep es).
Proof.
  intros Hnd. unfold loadParentEvents. rewrite sortByStep_perm.
  apply (NoDup_steps _ pid).
  - apply (sublist_NoDup _ (eventKey <$> es)); [done|].
    apply fmap_sublist. apply sublist_filter.
  - intros e He. apply list_elem_of_filter in He. tauto.
Qed.

(** ** Preservation of the invariants *)

Lemma history_of_events id s s' evs :
  events s' = events s ++ evs →
  history id s' = history id s ++ filter (λ e, e_missionId e = id) evs.
Proof. unfold history. intros ->. apply filter_app. Qed.

Lemma history_elem id s e : e ∈ history id s ↔ e ∈ events s ∧ e_missionId e = id.
Proof. unfold history. rewrite list_elem_of_filter. tauto. Qed.

Lemma filter_owner_all id (evs : list MissionEvent) :
  (∀ e, e ∈ evs → e_missionId e = id) → filter (λ e, e_missionId e = id) evs = evs.
Proof.
  induction evs as [|x evs IH]; intros H; [done|].
  rewrite filter_cons_True by (apply H; left). f_equal. apply IH.
  intros e He. apply H. by right.
Qed.

Lemma filter_owner_none id (evs : list MissionEvent) :
  (∀ e, e ∈ evs → e_missionId e ≠ id) → filter (λ e, e_missionId e = id) evs = [].
Proof.
  induction evs as [|x evs IH]; intros H; [done|].
  rewrite filter_cons_False by (apply H; left). apply IH.
  intros e He. apply H. by right.
Qed.

(** A new mission with its own events (start, fork). *)
Lemma inv_new_mission s s' m evs :
  wellFormed s → cacheInv s →
  missions s' = <[oidCounter s := m]> (missions s) →
  events s' = events s ++ evs →
  (oidCounter s < oidCounter s')%N →
  m_id m = oidCounter s →
  (∀ e, e ∈ evs →
        e_missionId e = oidCounter s ∧ (e_id e < oidCounter s')%N ∧ e_summary e ≠ "") →
  NoDup (e_step <$> evs) →
  (∃ e, e ∈ evs ∧ e_step e = 1) →
  cached m evs →
  wellFormed s' ∧ cacheInv s'.
Proof.
  intros [Hwm Hwe Hwo Hwu Hws Hwseed] Hc Hms Hes Hlt Hid Hevs Hnd (seed & Hseed & Hseed1) Hcm.
  assert (Hold : ∀ e, e ∈ events s → e_missionId e ≠ oidCounter s).
  { intros e He Heq. destruct (Hwo e He) as [m0 Hm0].
    apply Hwm in Hm0 as [_ Hm0]. lia. }
  split; [split|].
  - intros id m0. rewrite Hms, lookup_insert. case_decide as Hd.
    + intros [= <-]. subst id. split; [done|lia].
    + intros H. apply Hwm in H as [? ?]. split; [done|lia].
  - intros e. rewrite Hes. intros [He|He]%elem_of_app.
    + apply Hwe in He. lia.
    + by apply Hevs.
  - intros e. rewrite Hes, Hms. intros [He|He]%elem_of_app.
    + rewrite lookup_insert. case_decide; [by eexists|]. by apply Hwo.
    + destruct (Hevs e He) as [-> _]. rewrite lookup_insert_eq. by eexists.
  - rewrite Hes, fmap_app. apply NoDup_app. split; [done|]. split.
    + intros k (x & -> & Hx)%list_elem_of_fmap (y & Hxy & Hy)%list_elem_of_fmap.
      apply (Hold x Hx). injection Hxy as -> _. by destruct (Hevs y Hy).
    + apply (NoDup_keys_of_steps _ (oidCounter s)); [done|].
      intros e He. by destruct (Hevs e He).
  - intros e. rewrite Hes. intros [He|He]%elem_of_app; [by apply Hws|].
    by destruct (Hevs e He) as (_ & _ & ?).
  - intros id. rewrite Hms, lookup_insert. case_decide as Hd.
    + intros _. subst id. exists seed. rewrite Hes.
      split; [apply elem_of_app; by right|]. split; [|done]. by destruct (Hevs seed Hseed).
    + intros H. destruct (Hwseed id H) as (e & He & ? & ?). exists e. rewrite Hes.
      split; [apply elem_of_app; by left|done].
  - intros id m0. rewrite Hms, lookup_insert. case_decide as Hd.
    + intros [= <-]. subst id. rewrite (history_of_events _ s s' evs) by done.
      unfold history. rewrite filter_owner_none by done.
      rewrite filter_owner_all; [done|]. intros e He. by destruct (Hevs e He).
    + intros H. rewrite (history_of_events _ s s' evs) by done.
      rewrite (filter_owner_none id evs), app_nil_r; [by apply Hc|].
      intros e He. destruct (Hevs e He) as [-> _]. done.
Qed.

(** One more event for an existing mission, not yet followed by the
    update of the mission record. *)
Lemma wf_append_only s s' mid ev :
  wellFormed s →
  is_Some (missions s !! mid) →
  missions s' = missions s →
  events s' = events s ++ [ev] →
  oidCounter s' = N.succ (oidCounter s) →
  e_missionId ev = mid → e_id ev = oidCounter s → e_summary ev ≠ "" →
  findOneEvent mid (e_step ev) (events s) = None →
  wellFormed s'.
Proof.
  intros [Hwm Hwe Hwo Hwu Hws Hwseed] Hm Hms Hes Hcnt Hmid Hid Hsum Hfree.
  split.
  - intros id m0. rewrite Hms. intros H. apply Hwm in H as [? ?]. split; [done|lia].
  - intros e. rewrite Hes. intros [He| ->%list_elem_of_singleton]%elem_of_app; [|lia].
    apply Hwe in He. lia.
  - intros e. rewrite Hes, Hms.
    intros [He| ->%list_elem_of_singleton]%elem_of_app; [by apply Hwo|]. by rewrite Hmid.
  - rewrite Hes, fmap_app. apply NoDup_app. split; [done|]. split.
    + intros k (x & -> & Hx)%list_elem_of_fmap Hk. simpl in Hk.
      apply list_elem_of_singleton in Hk. injection Hk as Hk1 Hk2.
      rewrite findOneEvent_None in Hfree. apply (Hfree x Hx); congruence.
    + simpl. apply NoDup_singleton.
  - intros e. rewrite Hes.
    intros [He| ->%list_elem_of_singleton]%elem_of_app; [by apply Hws|done].
  - intros id. rewrite Hms. intros H. destruct (Hwseed id H) as (e & He & ? & ?).
    exists e. rewrite Hes. split; [apply elem_of_app; by left|done].
Qed.

(** One more event for an existing mission, followed by the update. *)
Lemma inv_append s s' mid m u ev :
  wellFormed s → cacheInv s →
  missions s !! mid = Some m →
  missions s' = alter (applySet u) mid (missions s) →
  events s' = events s ++ [ev] →
  oidCounter s' = N.succ (oidCounter s) →
  e_missionId ev = mid → e_id ev = oidCounter s → e_summary ev ≠ "" →
  findOneEvent mid (e_step ev) (events s) = None →
  cached (applySet u m) (history mid s ++ [ev]) →
  wellFormed s' ∧ cacheInv s'.
Proof.
  intros Hwf Hc Hm Hms Hes Hcnt Hmid Hid Hsum Hfree Hcm.
  assert (Hwf' : wellFormed (mkStore (missions s) (events s') (uniqueIndex s') (oidCounter s'))).
  { eapply (wf_append_only s _ mid ev); eauto. }
  destruct Hwf' as [Hwm Hwe Hwo Hwu Hws Hwseed]. simpl in *.
  split; [split|]; try done.
  - intros id m0. rewrite Hms, lookup_alter. case_decide as Hd.
    + subst id. rewrite Hm. intros [= <-]. simpl. by apply Hwm.
    + apply Hwm.
  - intros e He. rewrite Hms. apply lookup_alter_is_Some. by apply Hwo.
  - intros id H. apply Hwseed. rewrite Hms in H. by apply lookup_alter_is_Some in H.
  - intros id m0. rewrite Hms, lookup_alter. case_decide as Hd.
    + subst id. rewrite Hm. intros [= <-].
      rewrite (history_of_events _ s s' [ev]) by done.
      rewrite filter_owner_all; [done|]. by intros e ->%list_elem_of_singleton.
    + intros H. rewrite (history_of_events _ s s' [ev]) by done.
      rewrite filter_owner_none, app_nil_r; [by apply Hc|].
      intros e ->%list_elem_of_singleton. congruence.
Qed.

Lemma cached_emit m h ev :
  cached m h →
  e_source ev = None →
  cached (applySet (emitUpdateFields (m_currentStep m) (e_ts ev) (e_step ev) (e_type ev)
                      (e_summary ev)) m)
         (h ++ [ev]).
Proof.
  intros (Hcs & Hat & Hst & Hdone & Hnf & Hsum & Hsome & Hnone) Hsrc.
  unfold cached.
  rewrite foldEmit_snoc, emitRule_currentStep, emitRule_status,
    emitRule_lastCheckpointAt, emitRule_latestSummary, lastCheckpointOf_snoc.
  simpl. rewrite <- Hcs, <- Hat.
  split; [|split; [|split; [|split; [|split; [|split; [|split]]]]]].
  - case_decide; simpl; lia.
  - by case_decide.
  - intros Hb. case_decide; simpl; [done|]. by apply Hst.
  - case_decide; simpl; [done|]. apply Hdone.
  - case_decide; simpl; [done|]. apply Hnf.
  - intros c. case_decide; simpl; [done|]. apply Hsum.
  - intros c. case_decide; simpl; [by eexists|]. apply Hsome.
  - case_decide; simpl; [done|]. apply Hnone.
Qed.

Lemma cached_tick m h ev agent au :
  cached m h →
  getAgentAndTypeForStep (m_currentStep m + 1) = Some (agent, e_type ev) →
  e_step ev = m_currentStep m + 1 →
  (e_source ev = Some SrcOpenai ∨ au = None) →
  cached (applySet (tickUpdateFields (e_ts ev) (e_step ev) (e_type ev) (e_summary ev) au) m)
         (h ++ [ev]).
Proof.
  intros (Hcs & Hat & Hst & Hdone & Hnf & Hsum & Hsome & Hnone) Hsch Hstep Hsrc.
  unfold cached.
  rewrite foldEmit_snoc, emitRule_currentStep, emitRule_status,
    emitRule_lastCheckpointAt, emitRule_latestSummary, lastCheckpointOf_snoc.
  assert (Hfin : isFinalStep (e_step ev) = bool_decide (e_type ev = DONE)).
  { rewrite Hstep. by eapply scheduled_final. }
  simpl. rewrite <- Hcs, <- Hat, Hfin, orb_diag.
  split; [|split; [|split; [|split; [|split; [|split; [|split]]]]]].
  - lia.
  - by destruct (decide (e_type ev = CHECKPOINT)).
  - intros Hb. case_bool_decide; destruct (decide (e_type ev = DONE)); simpl; try done.
    by apply Hst.
  - case_bool_decide; destruct (decide (e_type ev = DONE)); simpl; try done.
  - case_bool_decide; simpl; [done|]. apply Hnf.
  - intros c. destruct (decide (e_type ev = CHECKPOINT)); simpl; [|apply Hsum].
    intros [= <-] Hne. destruct Hsrc as [?| ->]; done.
  - intros c. destruct (decide (e_type ev = CHECKPOINT)); simpl; [by eexists|apply Hsome].
  - destruct (decide (e_type ev = CHECKPOINT)); simpl; [done|apply Hnone].
Qed.

Lemma substring_nonempty n (sm : string) :
  sm ≠ "" → substring 0 (S n) sm ≠ "".
Proof. by destruct sm. Qed.

Lemma demoScript_summary_nonempty d : In d demoScript → d_summary d ≠ "".
Proof.
  unfold demoScript. simpl.
  intros H. repeat (destruct H as [<-|H]; [done|]). done.
Qed.

Lemma generateEventWithOpenAI_nonempty reply g :
  generateEventWithOpenAI reply = Some g → g_summary g ≠ "".
Proof.
  unfold generateEventWithOpenAI.
  destruct reply as [[[sm|] ? ?]|]; try done.
  cbn [r_summary]. case_bool_decide; [done|].
  intros [= <-]. cbn [g_summary]. by apply substring_nonempty.
Qed.

Lemma tickContent_nonempty reply n agent type summary payload au used :
  tickContent reply n agent type = (summary, payload, au, used) → summary ≠ "".
Proof.
  unfold tickContent.
  destruct (generateEventWithOpenAI reply) as [g|] eqn:G.
  - intros [= <- _ _ _]. by eapply generateEventWithOpenAI_nonempty.
  - destruct (List.find _ demoScript) eqn:E; intros [= <- _ _ _].
    + apply find_some in E as [E _]. by apply demoScript_summary_nonempty.
    + by destruct agent.
Qed.

Lemma validEmitBody_summary body : validEmitBody body → b_summary body ≠ "".
Proof.
  intros [Hm _] Hs. unfold missingRequired in Hm. rewrite Hs in Hm.
  by rewrite orb_true_r in Hm.
Qed.

Lemma wf_free_above s id m step :
  wellFormed s → cacheInv s → missions s !! id = Some m →
  m_currentStep m < step → findOneEvent id step (events s) = None.
Proof.
  intros Hwf Hc Hm Hlt. apply findOneEvent_None. intros e He Hmid Hs.
  destruct (Hc id m Hm) as (Hcs & _).
  destruct (foldEmit_currentStep (history id s)) as (_ & Hle & _).
  specialize (Hle e). rewrite history_elem in Hle.
  specialize (Hle (conj He Hmid)). lia.
Qed.

(** ** The handlers preserve the invariants *)

Lemma start_cases body envModel now s :
  (ensureIndexes s = None ∧ start body envModel now s = (s, StartServerError))
  ∨ ∃ s1 missionDoc,
      ensureIndexes s = Some s1
      ∧ m_id missionDoc = oidCounter s
      ∧ m_status missionDoc = StatusRunning
      ∧ m_currentStep missionDoc = 1
      ∧ m_lastCheckpointAt missionDoc = None
      ∧ m_latestSummary missionDoc = None
      ∧ m_branchFromMissionId missionDoc = None
      ∧ let seed :=
          mkEvent (N.succ (oidCounter s)) (oidCounter s) now 1 Planner PLAN
            "Mission initialized: Research and summarize latest AI trends"
            [("objective", PStr "AI Trends Research"); ("estimatedSteps", PNum 17)]
            (Some SrcScripted) in
        ((is_Some (findOneEvent (oidCounter s) 1 (events s))
          ∧ (start body envModel now s).2 = StartServerError)
         ∨ start body envModel now s =
             (mkStore (<[oidCounter s := missionDoc]> (missions s)) (events s ++ [seed])
                true (N.succ (N.succ (oidCounter s))),
              StartOk (oidCounter s))).
Proof.
  unfold start.
  destruct (ensureIndexes s) as [s1|] eqn:He; [|by left].
  destruct (ensureIndexes_Some _ _ He) as (Hms & Hes & Hc & Hu).
  right. simpl. rewrite Hc.
  match goal with |- context [ <[_ := ?d]> (missions s1) ] => exists s1, d end.
  repeat (split; [reflexivity|]). cbv zeta.
  destruct (insertOneEvent _ _) as [s5|] eqn:Hi.
  - right. apply insertOneEvent_Some in Hi as [-> _]. simpl.
    unfold setEvents, insertOneMission, setMissions. simpl.
    by rewrite Hms, Hes, Hu.
  - left. apply insertOneEvent_None in Hi as [_ Hi]. simpl in Hi.
    rewrite Hes in Hi. done.
Qed.

Lemma inv_start body envModel now s :
  wellFormed s → cacheInv s →
  wellFormed (start body envModel now s).1 ∧ cacheInv (start body envModel now s).1.
Proof.
  intros Hwf Hc.
  destruct (start_cases body envModel now s) as
    [[_ ->] | (s1 & doc & He & Hid & Hst & Hcs & Hat & Hsum & Hbr & Hcase)]; [done|].
  simpl in Hcase. destruct Hcase as [[[x Hx] _] | ->].
  { apply findOneEvent_Some in Hx as (Hin & Hm & _).
    destruct (wf_owner _ Hwf _ Hin) as [m0 Hm0]. rewrite Hm in Hm0.
    apply (wf_mission _ Hwf) in Hm0 as [_ ?]. lia. }
  simpl. eapply (inv_new_mission s); try done; simpl.
  - lia.
  - intros e ->%list_elem_of_singleton. simpl. split; [done|]. split; [lia|done].
  - apply NoDup_singleton.
  - eexists. split; [by left|done].
  - unfold cached. simpl. rewrite Hcs, Hat, Hst.
    repeat split; try done.
Qed.

Lemma emit_store_cases body now s :
  wellFormed s → cacheInv s →
  (∃ r, emitInsert body now s = ((emit body now s).1, inl r)
        ∧ missions (emit body now s).1 = missions s
        ∧ events (emit body now s).1 = events s
        ∧ (oidCounter s <= oidCounter (emit body now s).1)%N)
  ∨ ∃ mid m ev u s3,
      missions s !! mid = Some m
      ∧ emitInsert body now s = (s3, inr (mid, u))
      ∧ emit body now s = (updateOneMission mid u s3, EmitOk false)
      ∧ missions s3 = missions s
      ∧ events s3 = events s ++ [ev]
      ∧ oidCounter s3 = N.succ (oidCounter s)
      ∧ e_missionId ev = mid ∧ e_id ev = oidCounter s ∧ e_summary ev ≠ ""
      ∧ e_step ev = b_step body
      ∧ findOneEvent mid (e_step ev) (events s) = None
      ∧ (m_status m = StatusDone → m_status (applySet u m) = StatusDone)
      ∧ cached (applySet u m) (history mid s ++ [ev]).
Proof.
  intros Hwf Hc.
  destruct (emit_cases body now s) as
    [(r & Heq & Hr1 & Hr2 & _) | [(s1 & mid & He & Heq & _)
     | (s1 & mid & m & agent & type & Hv & Hp & Ha & Ht & He & Hm & Hcase)]].
  - left. rewrite Heq. simpl. unfold emit in Heq.
    destruct (emitInsert body now s) as [s' [r'|[mid u]]]; simpl; [|by injection Heq as _ <-].
    injection Heq as -> _. exists r'. repeat split; try done.
  - left. destruct (ensureIndexes_Some _ _ He) as (Hms & Hes & Hcn & _).
    rewrite Heq. unfold emit in Heq.
    destruct (emitInsert body now s) as [s' [r'|[mid' u]]]; simpl; [|done].
    injection Heq as -> _. exists r'. repeat split; try done. lia.
  - destruct (ensureIndexes_Some _ _ He) as (Hms & Hes & Hcn & _).
    destruct Hcase as [[_ Heq] | (Hfree & Heq & Heq')].
    + left. rewrite Heq. unfold emit in Heq.
      destruct (emitInsert body now s) as [s' [r'|[mid' u]]]; simpl; [|done].
      injection Heq as -> _. exists r'. simpl. repeat split; try done. lia.
    + right. simpl in Heq, Heq'. eexists mid, m, _, _, _.
      split; [done|]. split; [exact Heq'|]. split; [exact Heq|]. simpl.
      split; [done|]. split; [done|]. split; [by rewrite Hcn|].
      split; [done|]. split; [done|]. split; [by apply validEmitBody_summary|].
      split; [done|]. split; [done|].
      split; [intros ->; by destruct (decide (type = DONE))|].
      set (ev := mkEvent _ _ _ _ _ _ _ _ _).
      apply (cached_emit m (history mid s) ev); [by apply Hc|done].
Qed.

Lemma inv_emit body now s :
  wellFormed s → cacheInv s →
  wellFormed (emit body now s).1 ∧ cacheInv (emit body now s).1.
Proof.
  intros Hwf Hc.
  destruct (emit_store_cases body now s Hwf Hc) as
    [(r & _ & Hms & Hes & Hcn) | (mid & m & ev & u & s3 & Hm & _ & -> & Hms & Hes & Hcn & Hrest)].
  - destruct Hwf as [Hwm Hwe Hwo Hwu Hws Hwseed].
    split; [split|]; try (rewrite ?Hms, ?Hes; done).
    + intros id m0. rewrite Hms. intros H. apply Hwm in H as [? ?]. split; [done|lia].
    + intros e. rewrite Hes. intros He. apply Hwe in He. lia.
    + intros id m0. rewrite Hms. unfold history. rewrite Hes. apply Hc.
  - destruct Hrest as (? & ? & ? & ? & ? & _ & ?).
    eapply (inv_append s _ mid m u ev); simpl; try done.
    by rewrite Hms.
Qed.

Lemma tick_store_cases missionId now reply s :
  wellFormed s → cacheInv s →
  (∃ r, tick missionId now reply s = (s, r)
        ∧ tickInsert missionId now reply s = (s, inl r))
  ∨ ∃ mid m ev u s2 r,
      missions s !! mid = Some m
      ∧ tickInsert missionId now reply s = (s2, inr (mid, u, r))
      ∧ tick missionId now reply s = (updateOneMission mid u s2, r)
      ∧ missions s2 = missions s
      ∧ events s2 = events s ++ [ev]
      ∧ oidCounter s2 = N.succ (oidCounter s)
      ∧ e_missionId ev = mid ∧ e_id ev = oidCounter s ∧ e_summary ev ≠ ""
      ∧ e_step ev = m_currentStep m + 1
      ∧ findOneEvent mid (e_step ev) (events s) = None
      ∧ m_status m = StatusRunning
      ∧ cached (applySet u m) (history mid s ++ [ev]).
Proof.
  intros Hwf Hc.
  destruct (tick_cases missionId now reply s) as
    [(r & Heq & _ & Heq') | (mid & m & agent & type & summary & payload & au & used &
                       Hp & Hm & Hst & Hle & Hsch & Hfree & Hcont & Heq & Heq')].
  - left. eauto.
  - right. simpl in Heq, Heq'. eexists mid, m, _, _, _, _.
    split; [done|]. split; [exact Heq'|]. split; [exact Heq|]. simpl.
    split; [done|]. split; [done|]. split; [done|].
    split; [done|]. split; [done|]. split; [by eapply tickContent_nonempty|].
    split; [done|]. split; [done|]. split; [done|].
    set (ev := mkEvent _ _ _ _ _ _ _ _ _).
    apply (cached_tick m (history mid s) ev agent au); [by apply Hc|done|done|].
    destruct (tickContent_source _ _ _ _ _ _ _ _ Hcont) as [[-> _]|(_ & _ & ->)]; auto.
Qed.

Lemma inv_tick missionId now reply s :
  wellFormed s → cacheInv s →
  wellFormed (tick missionId now reply s).1 ∧ cacheInv (tick missionId now reply s).1.
Proof.
  intros Hwf Hc.
  destruct (tick_store_cases missionId now reply s Hwf Hc) as
    [(r & -> & _) | (mid & m & ev & u & s2 & r & Hm & _ & -> & Hms & Hes & Hcn & Hrest)];
    [done|].
  destruct Hrest as (? & ? & ? & ? & ? & _ & ?).
  eapply (inv_append s _ mid m u ev); simpl; try done.
  by rewrite Hms.
Qed.

Lemma parseObjectId_nonempty str oid : parseObjectId str = Some oid → str ≠ "".
Proof. by intros H ->. Qed.

(** On a well-formed store the bulk insert of a fork never hits the index. *)
Lemma fork_success body now s forkStep pid pm lastEvent :
  wellFormed s →
  f_forkStep body = Some forkStep →
  parseObjectId (f_parentMissionId body) = Some pid →
  1 <= forkStep →
  missions s !! pid = Some pm →
  last (loadParentEvents pid forkStep (events s)) = Some lastEvent →
  let parentEvents := loadParentEvents pid forkStep (events s) in
  let lastCheckpoint := lastCheckpointOf parentEvents in
  let newMission :=
    mkMission (oidCounter s) (m_title pm ++ " (fork)")%string StatusRunning
      (e_step lastEvent) now now (e_ts <$> lastCheckpoint)
      (forkLatestSummary lastCheckpoint pm)
      (Some pid) (Some (e_step lastEvent)) None None None in
  let copies :=
    imap (λ i e, copyOf (oidCounter s) (N.succ (oidCounter s) + N.of_nat i)%N e)
      parentEvents in
  fork body now s =
    (mkStore (<[oidCounter s := newMission]> (missions s)) (events s ++ copies)
       (uniqueIndex s) (N.succ (oidCounter s) + N.of_nat (length parentEvents))%N,
     ForkOk (oidCounter s)).
Proof.
  intros Hwf Hf Hp Hge Hm Hl. simpl.
  unfold fork. rewrite Hf, Hp, Hm, Hl.
  rewrite bool_decide_eq_false_2 by (by eapply parseObjectId_nonempty).
  rewrite decide_False by lia.
  simpl. rewrite copyEvents_spec. simpl.
  rewrite insertManyEvents_free; simpl; [done| |].
  - intros d (i & src & Hi & ->)%copies_elem. simpl.
    apply findOneEvent_None. intros e He Hmid _.
    destruct (wf_owner _ Hwf e He) as [m0 Hm0]. rewrite Hmid in Hm0.
    apply (wf_mission _ Hwf) in Hm0 as [_ ?]. lia.
  - apply (NoDup_keys_of_steps _ (oidCounter s)).
    + rewrite copies_steps. apply loadParentEvents_NoDup, Hwf.
    + by intros d (i & src & Hi & ->)%copies_elem.
Qed.

Lemma cached_fork s pid pm forkStep lastEvent now base :
  wellFormed s → 1 <= forkStep →
  missions s !! pid = Some pm →
  last (loadParentEvents pid forkStep (events s)) = Some lastEvent →
  let parentEvents := loadParentEvents pid forkStep (events s) in
  let lastCheckpoint := lastCheckpointOf parentEvents in
  cached
    (mkMission (oidCounter s) (m_title pm ++ " (fork)")%string StatusRunning
       (e_step lastEvent) now now (e_ts <$> lastCheckpoint)
       (forkLatestSummary lastCheckpoint pm)
       (Some pid) (Some (e_step lastEvent)) None None None)
    (imap (λ i e, copyOf (oidCounter s) (base + N.of_nat i)%N e) parentEvents).
Proof.
  intros Hwf Hge Hm Hl parentEvents lastCheckpoint.
  assert (Hfold : foldEmit (imap (λ i e, copyOf (oidCounter s) (base + N.of_nat i)%N e)
                              parentEvents) = foldEmit parentEvents).
  { symmetry. apply foldEmit_sameContent, imap_sameContent.
    intros i x. apply copyOf_sameContent. }
  destruct (foldEmit_checkpoint parentEvents) as [Hat Hsum].
  unfold cached. rewrite Hfold. simpl.
  split; [|split; [done|split; [done|split; [done|split; [done|split; [|split]]]]]].
  - destruct (sortByStep_last _ _ Hl) as [Hin Hmax].
    destruct (foldEmit_currentStep parentEvents) as (H0 & Hle & Hatt).
    assert (He : ∀ e, e ∈ parentEvents → e_step e <= e_step lastEvent).
    { intros e He. apply Hmax. unfold parentEvents, loadParentEvents in He.
      by apply (proj1 (sortByStep_elem _ _)) in He. }
    assert (Hlast : lastEvent ∈ parentEvents).
    { unfold parentEvents, loadParentEvents. by apply (proj2 (sortByStep_elem _ _)). }
    destruct (wf_seed _ Hwf pid) as (seed & Hs1 & Hs2 & Hs3); [by eexists|].
    assert (Hseed : seed ∈ parentEvents).
    { apply loadParentEvents_elem. repeat split; [done..|lia]. }
    specialize (He seed Hseed) as Hs. specialize (Hle lastEvent Hlast) as Hl1.
    destruct Hatt as [?|(e & Hin' & Heq)]; [lia|].
    specialize (He e Hin'). lia.
  - intros c Hc _.
    destruct (foldEmit_checkpoint
                (imap (λ i e, copyOf (oidCounter s) (base + N.of_nat i)%N e) parentEvents))
      as [_ Hsum'].
    rewrite Hfold, Hsum, Hc in Hsum'. fold lastCheckpoint in Hsum', Hsum |- *.
    destruct lastCheckpoint as [c0|] eqn:Hc0; [|done]. simpl in *.
    rewrite Hsum. simpl.
    apply lastCheckpointOf_Some in Hc0 as [Hin _].
    apply loadParentEvents_elem in Hin as (Hin & _).
    rewrite bool_decide_eq_false_2; [done|]. by apply (wf_summary _ Hwf).
  - intros c Hc.
    destruct (foldEmit_checkpoint
                (imap (λ i e, copyOf (oidCounter s) (base + N.of_nat i)%N e) parentEvents))
      as [_ Hsum'].
    rewrite Hfold, Hsum, Hc in Hsum'. fold lastCheckpoint in Hsum'.
    destruct lastCheckpoint as [c0|] eqn:Hc0; [|done]. simpl.
    apply lastCheckpointOf_Some in Hc0 as [Hin _].
    apply loadParentEvents_elem in Hin as (Hin & _).
    rewrite bool_decide_eq_false_2; [by eexists|]. by apply (wf_summary _ Hwf).
  - done.
Qed.

Lemma inv_fork body now s :
  wellFormed s → cacheInv s →
  wellFormed (fork body now s).1 ∧ cacheInv (fork body now s).1.
Proof.
  intros Hwf Hc.
  destruct (fork_cases body now s) as
    [(r & -> & _) | (forkStep & pid & pm & lastEvent & ins & Hcase)]; [done|].
  simpl in Hcase. destruct Hcase as (Hf & Hp & Hge & Hm & Hl & _).
  rewrite (fork_success body now s forkStep pid pm lastEvent) by done.
  simpl. eapply (inv_new_mission s); try done; simpl.
  - lia.
  - intros d (i & src & Hi & ->)%copies_elem. simpl. split; [done|]. split.
    + apply lookup_lt_Some in Hi. lia.
    + apply list_elem_of_lookup_2, loadParentEvents_elem in Hi as (Hin & _).
      by apply (wf_summary _ Hwf).
  - rewrite copies_steps. apply loadParentEvents_NoDup, Hwf.
  - destruct (wf_seed _ Hwf pid) as (seed & Hs1 & Hs2 & Hs3); [by eexists|].
    assert (Hseed : seed ∈ loadParentEvents pid forkStep (events s)).
    { apply loadParentEvents_elem. repeat split; [done..|lia]. }
    apply list_elem_of_lookup_1 in Hseed as [i Hi].
    eexists. split; [by eapply elem_of_lookup_imap_2|]. done.
  - by apply cached_fork.
Qed.

Lemma inv_empty : wellFormed emptyStore ∧ cacheInv emptyStore.
Proof.
  split; [split|]; simpl; try done.
  - intros e He. by apply elem_of_nil in He.
  - intros e He. by apply elem_of_nil in He.
  - constructor.
  - intros e He. by apply elem_of_nil in He.
  - intros id [m Hm]. done.
Qed.

Lemma inv_reset s :
  wellFormed s → cacheInv s → wellFormed (reset s).1 ∧ cacheInv (reset s).1.
Proof.
  intros _ _. split; [split|]; simpl; try done.
  - intros e He. by apply elem_of_nil in He.
  - intros e He. by apply elem_of_nil in He.
  - constructor.
  - intros e He. by apply elem_of_nil in He.
  - intros id [m Hm]. done.
Qed.

(** Every store the API can produce is well formed and keeps every
    mission record aligned with its log. *)
Lemma reachable_inv s : reachable s → wellFormed s ∧ cacheInv s.
Proof.
  induction 1 as [|r s _ [Hwf Hc]]; [apply inv_empty|].
  destruct r; simpl.
  - by apply inv_start.
  - by apply inv_emit.
  - by apply inv_tick.
  - by apply inv_fork.
  - by apply inv_reset.
Qed.

(** ** C4: ticking a fresh mission to completion *)

Lemma freshMission_atStep mid s : freshMission mid s → atStep mid 1 s.
Proof.
  intros (m & e & Hm & Hst & Hcs & Hh & He). exists m.
  repeat split; try done. rewrite Hh. simpl. by rewrite He.
Qed.

Lemma atStep_free mid c s step :
  atStep mid c s → c < step → findOneEvent mid step (events s) = None.
Proof.
  intros (m & _ & _ & _ & Hh) Hlt. apply findOneEvent_None. intros e He Hmid Hs.
  assert (e_step e ∈ seqZ 1 c) as Hin.
  { rewrite <- Hh. apply list_elem_of_fmap. exists e. split; [done|].
    by apply history_elem. }
  apply elem_of_seqZ in Hin. lia.
Qed.

(** One tick below the last step appends the next step's event and moves the
    record one step up. *)
Lemma tick_advances missionId mid c now reply s :
  parseObjectId missionId = Some mid →
  atStep mid c s → 1 <= c < 17 →
  ∃ used e,
    (tick missionId now reply s).2 = TickEvent (c + 1) used (Some e)
    ∧ e_step e = c + 1
    ∧ events (tick missionId now reply s).1 = events s ++ [e]
    ∧ atStep mid (c + 1) (tick missionId now reply s).1.
Proof.
  intros Hp Hat Hc.
  pose proof (atStep_free mid c s (c + 1) Hat ltac:(lia)) as Hfree.
  destruct Hat as (m & Hm & Hcs & Hst & Hh).
  rewrite bool_decide_eq_false_2 in Hst by (rewrite getTotalSteps_eq; lia).
  destruct (schedule_total (c + 1)) as (agent & type & Hsch & Hfin); [lia|].
  unfold tick, tickInsert.
  rewrite bool_decide_eq_false_2 by (by eapply parseObjectId_nonempty).
  rewrite Hp, Hm, Hst. simpl.
  rewrite decide_False by (rewrite Hcs, getTotalSteps_eq; lia).
  rewrite Hcs, Hsch, Hfree.
  destruct (tickContent reply (c + 1) agent type) as [[[summary payload] au] used] eqn:Hcont.
  simpl. rewrite insertOneEvent_free by done. simpl.
  eexists used, _. split; [done|]. split; [done|]. split; [done|].
  unfold atStep. simpl. rewrite lookup_alter_eq, Hm. simpl.
  eexists. split; [done|]. simpl.
  split; [done|]. split.
  - rewrite Hfin. rewrite getTotalSteps_eq.
    by destruct (bool_decide (c + 1 = 17)).
  - unfold history. simpl. rewrite filter_app, fmap_app.
    fold (history mid s). rewrite Hh.
    rewrite filter_cons_True by done. simpl.
    rewrite (seqZ_app 1 c 1) by lia. f_equal.
    rewrite seqZ_cons by lia. rewrite seqZ_nil by lia. f_equal. lia.
Qed.

Lemma runTicks_app missionId l1 l2 s :
  runTicks missionId (l1 ++ l2) s =
  let '(s1, r1) := runTicks missionId l1 s in
  let '(s2, r2) := runTicks missionId l2 s1 in
  (s2, r1 ++ r2).
Proof.
  revert s. induction l1 as [|[now reply] l1 IH]; intros s; simpl.
  - by destruct (runTicks missionId l2 s).
  - destruct (tick missionId now reply s) as [s1 r]. rewrite IH.
    destruct (runTicks missionId l1 s1) as [s2 r1].
    by destruct (runTicks missionId l2 s2).
Qed.

Lemma runTicks_advance missionId mid inputs c s :
  parseObjectId missionId = Some mid →
  atStep mid c s → 1 <= c → c + Z.of_nat (length inputs) <= 17 →
  atStep mid (c + Z.of_nat (length inputs)) (runTicks missionId inputs s).1
  ∧ ∀ k, (k < length inputs)%nat →
      ∃ used e,
        (runTicks missionId inputs s).2 !! k
          = Some (TickEvent (c + 1 + Z.of_nat k) used (Some e))
        ∧ e_step e = c + 1 + Z.of_nat k
        ∧ e ∈ events (runTicks missionId inputs s).1.
Proof.
  intros Hp. revert c s.
  induction inputs as [|[now reply] inputs IH]; intros c s Hat Hc Hle; simpl.
  - rewrite Z.add_0_r. split; [done|]. intros k Hk. lia.
  - simpl in Hle.
    destruct (tick_advances missionId mid c now reply s Hp Hat ltac:(lia))
      as (used & e & Hr & He & Hev & Hat').
    destruct (tick missionId now reply s) as [s1 r] eqn:Ht. simpl in *.
    destruct (IH (c + 1) s1 Hat' ltac:(lia) ltac:(lia)) as [Hfin Hresp].
    destruct (runTicks missionId inputs s1) as [s2 rs] eqn:Hrt. simpl in *.
    split.
    + replace (c + Z.of_nat (S (length inputs)))
        with (c + 1 + Z.of_nat (length inputs)) by lia. done.
    + intros [|k] Hk; simpl.
      * exists used, e. rewrite Z.add_0_r. split; [by rewrite Hr|]. split; [done|].
        assert (Hsub : events s1 `prefix_of` events s2).
        { clear -Hrt. revert s1 s2 rs Hrt.
          induction inputs as [|[n r] l IHl]; intros s1 s2 rs Hrt; simpl in Hrt.
          - by injection Hrt as -> _.
          - destruct (tick missionId n r s1) as [s1' r1] eqn:Ht.
            destruct (runTicks missionId l s1') as [s2' rs'] eqn:Hrt'.
            injection Hrt as <- _.
            etrans; [|by eapply IHl].
            destruct (tick_cases missionId n r s1) as
              [(r0 & Hs & _) | (? & ? & ? & ? & ? & ? & ? & ? & _ & _ & _ & _ & _ & _ & _ & Hs & _)];
              simpl in Hs; rewrite Ht in Hs; injection Hs as -> _; simpl;
              [done|by apply prefix_app_r]. }
        eapply elem_of_prefix; [|exact Hsub]. rewrite Hev.
        apply elem_of_app. right. by left.
      * destruct (Hresp k ltac:(lia)) as (u & e' & H1 & H2 & H3).
        exists u, e'.
        replace (c + 1 + Z.of_nat (S k)) with (c + 1 + 1 + Z.of_nat k) by lia. done.
Qed.

(** C4. From a freshly started mission (running, step 1, only the seeded
    step-1 event), [getTotalSteps - 1 = 16] tick calls, whatever the
    generator replies, advance one step each: after [k] of them the
    mission is at step [1 + k] with one event per step, still running for
    [k < 16] and done for [k = 16] (step 17); call number [k + 1] answers
    with the event of step [k + 2]; every further tick answers status done
    and leaves the database as it is. *)
Theorem ticks_reach_done missionId mid inputs s :
  parseObjectId missionId = Some mid →
  freshMission mid s →
  Z.of_nat (length inputs) = getTotalSteps - 1 →
  let final := (runTicks missionId inputs s).1 in
  (∀ k, (k <= 16)%nat →
      ∃ m, missions (runTicks missionId (take k inputs) s).1 !! mid = Some m
           ∧ m_currentStep m = 1 + Z.of_nat k
           ∧ m_status m = (if decide (k = 16%nat) then StatusDone else StatusRunning)
           ∧ e_step <$> history mid (runTicks missionId (take k inputs) s).1
             = seqZ 1 (1 + Z.of_nat k))
  ∧ (∀ k, (k < 16)%nat →
      ∃ used e,
        (runTicks missionId inputs s).2 !! k
          = Some (TickEvent (2 + Z.of_nat k) used (Some e))
        ∧ e_step e = 2 + Z.of_nat k
        ∧ e ∈ events final)
  ∧ ∀ now reply, tick missionId now reply final = (final, TickStatus StatusDone).
Proof.
  intros Hp Hfresh Hlen final. rewrite getTotalSteps_eq in Hlen.
  apply freshMission_atStep in Hfresh.
  split; [|split].
  - intros k Hk.
    destruct (runTicks_advance missionId mid (take k inputs) 1 s Hp Hfresh ltac:(lia))
      as [(m & Hm & Hcs & Hst & Hh) _].
    { rewrite length_take. lia. }
    rewrite length_take in Hcs, Hst, Hh.
    replace (length inputs) with 16%nat in * by lia.
    replace (k `min` 16)%nat with k in * by lia.
    exists m. repeat split; try done.
    rewrite Hst, getTotalSteps_eq.
    destruct (decide (k = 16%nat)) as [->|Hne]; [done|].
    rewrite bool_decide_eq_false_2; [done|lia].
  - intros k Hk.
    destruct (runTicks_advance missionId mid inputs 1 s Hp Hfresh ltac:(lia) ltac:(lia))
      as [_ Hresp].
    destruct (Hresp k ltac:(lia)) as (used & e & H1 & H2 & H3).
    exists used, e. replace (2 + Z.of_nat k) with (1 + 1 + Z.of_nat k) by lia. done.
  - intros now reply.
    destruct (runTicks_advance missionId mid inputs 1 s Hp Hfresh ltac:(lia) ltac:(lia))
      as [(m & Hm & Hcs & Hst & _) _].
    fold final in Hm. replace (1 + Z.of_nat (length inputs)) with 17 in Hst by lia.
    simpl in Hst. unfold tick, tickInsert.
    rewrite bool_decide_eq_false_2 by (by eapply parseObjectId_nonempty).
    rewrite Hp, Hm, Hst. done.
Qed.

(** C4 on the mission [start] creates in an empty database, with the
    generator unavailable at every call. *)
Lemma ticks_reach_done_witness :
  let s := (start (mkStartBody None (Some "real")) None 100 emptyStore).1 in
  let inputs := replicate 16 (200, None) in
  let final := (runTicks "000000000000000000000000" inputs s).1 in
  (∀ k, (k <= 16)%nat →
      ∃ m, missions (runTicks "000000000000000000000000" (take k inputs) s).1 !! 0%N = Some m
           ∧ m_currentStep m = 1 + Z.of_nat k
           ∧ m_status m = (if decide (k = 16%nat) then StatusDone else StatusRunning)
           ∧ e_step <$> history 0 (runTicks "000000000000000000000000" (take k inputs) s).1
             = seqZ 1 (1 + Z.of_nat k))
  ∧ (∀ k, (k < 16)%nat →
      ∃ used e,
        (runTicks "000000000000000000000000" inputs s).2 !! k
          = Some (TickEvent (2 + Z.of_nat k) used (Some e))
        ∧ e_step e = 2 + Z.of_nat k
        ∧ e ∈ events final)
  ∧ ∀ now reply,
      tick "000000000000000000000000" now reply final = (final, TickStatus StatusDone).
Proof.
  intros s inputs final.
  apply (ticks_reach_done "000000000000000000000000" 0%N inputs s).
  - reflexivity.
  - eexists _, _. repeat split; reflexivity.
  - reflexivity.
Defined.

(** ** C10: emit after completion *)

Lemma ensureIndexes_wf s : wellFormed s → is_Some (ensureIndexes s).
Proof.
  intros Hwf. unfold ensureIndexes. destruct (uniqueIndex s); [by eexists|].
  rewrite bool_decide_eq_true_2; [by eexists|]. apply Hwf.
Qed.

(** C10. In every store the API can produce, a valid emit call for a mission
    whose status is done, at a step above its currentStep, is accepted: the
    event is appended, currentStep moves to that step (there is no bound by
    the schedule) and the status stays done. No request moves a mission out
    of done: after any request the mission is still done, unless the
    request was the administrative reset, which deletes it. *)
Theorem emit_ignores_terminal_status s body now mid m :
  reachable s →
  validEmitBody body →
  parseObjectId (b_missionId body) = Some mid →
  missions s !! mid = Some m →
  m_status m = StatusDone →
  m_currentStep m < b_step body →
  ((emit body now s).2 = EmitOk false
   ∧ (∃ e, events (emit body now s).1 = events s ++ [e]
           ∧ e_missionId e = mid ∧ e_step e = b_step body)
   ∧ ∃ m', missions (emit body now s).1 !! mid = Some m'
           ∧ m_currentStep m' = b_step body
           ∧ m_status m' = StatusDone)
  ∧ ∀ r, match missions (handle r s) !! mid with
         | Some m' => m_status m' = StatusDone
         | None => r = RReset
         end.
Proof.
  intros [Hwf Hc]%reachable_inv Hv Hp Hm Hdone Hlt. split.
  - pose proof (wf_free_above s mid m (b_step body) Hwf Hc Hm Hlt) as Hfree.
    destruct (emit_cases body now s) as
      [(r & _ & _ & _ & Hr) | [(s1 & mid' & _ & _ & Hp' & Hm')
       | (s1 & mid' & m0 & agent & type & _ & Hp' & _ & _ & He & Hm' & Hcase)]].
    + destruct (Hr Hv) as [_ Hn]. destruct (ensureIndexes_wf s Hwf). congruence.
    + congruence.
    + assert (mid' = mid) as -> by congruence.
      assert (m0 = m) as -> by congruence.
      destruct Hcase as [[[x Hx] _] | (_ & Heq & _)]; [congruence|].
      simpl in Heq. rewrite Heq. simpl.
      destruct (ensureIndexes_Some _ _ He) as (Hms & _).
      split; [done|]. split; [eauto|].
      rewrite lookup_alter_eq, Hms, Hm. simpl. eexists. split; [done|]. simpl.
      rewrite decide_True by lia. rewrite Hdone. split; [done|].
      by destruct (decide (type = DONE)).
  - intros [sb env t|b t|mi t rp|fb t|]; simpl.
    + destruct (start_cases sb env t s) as
        [[_ ->] | (s1 & doc & He & Hid & _ & _ & _ & _ & _ & Hcase)]; simpl.
      { by rewrite Hm. }
      simpl in Hcase. destruct Hcase as [[[x Hx] _] | ->].
      { apply findOneEvent_Some in Hx as (Hin & Hmx & _).
        destruct (wf_owner _ Hwf _ Hin) as [m0 Hm0]. rewrite Hmx in Hm0.
        apply (wf_mission _ Hwf) in Hm0 as [_ ?]. lia. }
      simpl. rewrite lookup_insert_ne, Hm; [done|].
      apply (wf_mission _ Hwf) in Hm as [_ ?]. lia.
    + destruct (emit_store_cases b t s Hwf Hc) as
        [(r & _ & Hms & _) | (mid' & m0 & ev & u & s3 & Hm0 & _ & -> & Hms & _ & _ & _ & _ & _ & _
                           & _ & Hkeep & _)].
      { by rewrite Hms, Hm. }
      simpl. rewrite Hms, lookup_alter. case_decide as Hd; [|by rewrite Hm].
      subst mid'. rewrite Hm. cbn [fmap option_fmap option_map].
      assert (m0 = m) as -> by congruence. by apply Hkeep.
    + destruct (tick_store_cases mi t rp s Hwf Hc) as
        [(r & -> & _) | (mid' & m0 & ev & u & s2 & r & Hm0 & _ & -> & Hms & _ & _ & _ & _ & _
                          & _ & _ & Hrun & _)].
      { simpl. by rewrite Hm. }
      simpl. rewrite Hms, lookup_alter. case_decide as Hd; [|by rewrite Hm].
      subst mid'. congruence.
    + destruct (fork_cases fb t s) as
        [(r & -> & _) | (forkStep & pid & pm & lastEvent & ins & Hcase)].
      { simpl. by rewrite Hm. }
      simpl in Hcase. destruct Hcase as (_ & _ & _ & _ & _ & _ & -> & _). simpl.
      rewrite lookup_insert_ne, Hm; [done|].
      apply (wf_mission _ Hwf) in Hm as [_ ?]. lia.
    + by rewrite lookup_empty.
Qed.

Lemma reachable_foldl requests s :
  reachable s → reachable (foldl (λ st r, handle r st) s requests).
Proof.
  revert s. induction requests as [|r rs IH]; intros s Hs; simpl; [done|].
  apply IH. by constructor.
Qed.

(** C10 on a mission ticked to completion: an emit at step 18. *)
Lemma emit_ignores_terminal_status_witness :
  let requests :=
    RStart (mkStartBody None (Some "real")) None 100
    :: replicate 16 (RTick "000000000000000000000000" 200 None) in
  let s := foldl (λ st r, handle r st) emptyStore requests in
  let body := mkEmitBody "000000000000000000000000" 18 "Critic" "NOTE" "after the end" None in
  ((emit body 300 s).2 = EmitOk false
   ∧ (∃ e, events (emit body 300 s).1 = events s ++ [e]
           ∧ e_missionId e = 0%N ∧ e_step e = b_step body)
   ∧ ∃ m', missions (emit body 300 s).1 !! 0%N = Some m'
           ∧ m_currentStep m' = b_step body
           ∧ m_status m' = StatusDone)
  ∧ ∀ r, match missions (handle r s) !! 0%N with
         | Some m' => m_status m' = StatusDone
         | None => r = RReset
         end.
Proof.
  intros requests s body.
  refine (emit_ignores_terminal_status s body 300 0%N
            (mkMission 0 "AI Trends Research Mission" StatusDone 17 100 200 (Some 200)
               (Some "Checkpoint: Analysis complete. 8 quality summaries, 156 citations mapped.")
               None None (Some RunReal) (Some "openai") (Some "o3-mini")) _ _ _ _ _ _).
  - apply reachable_foldl. constructor.
  - repeat split; vm_compute; eauto.
  - reflexivity.
  - vm_compute. reflexivity.
  - reflexivity.
  - simpl. lia.
Defined.

(** ** C5 and C6: fork *)

Lemma imap_Forall2 {A B} (P : A → B → Prop) (f : nat → A → B) (l : list A) :
  (∀ i x, l !! i = Some x → P x (f i x)) → Forall2 P l (imap f l).
Proof.
  revert f. induction l as [|x l IH]; intros f Hf; simpl; [constructor|].
  constructor; [by apply (Hf 0%nat)|]. apply IH. intros i y Hy. by apply (Hf (S i)).
Qed.

Lemma copies_ids_NoDup nid base l :
  NoDup (e_id <$> imap (λ i e, copyOf nid (base + N.of_nat i)%N e) l).
Proof.
  apply NoDup_alt. intros i j x.
  rewrite !list_lookup_fmap, !list_lookup_imap.
  destruct (l !! i) eqn:Hi; [|done]. destruct (l !! j) eqn:Hj; [|done].
  simpl. intros [= <-] [= Heq]. lia.
Qed.

Lemma history_new_mission s evs :
  wellFormed s →
  (∀ e, e ∈ evs → e_missionId e = oidCounter s) →
  filter (λ e, e_missionId e = oidCounter s) (events s ++ evs) = evs.
Proof.
  intros Hwf Hevs. rewrite filter_app, filter_owner_none, filter_owner_all; [done..|].
  intros e He Heq. destruct (wf_owner _ Hwf e He) as [m0 Hm0].
  rewrite Heq in Hm0. apply (wf_mission _ Hwf) in Hm0 as [_ ?]. lia.
Qed.

Lemma history_other_mission s evs id :
  (id < oidCounter s)%N →
  (∀ e, e ∈ evs → e_missionId e = oidCounter s) →
  filter (λ e, e_missionId e = id) (events s ++ evs) = history id s.
Proof.
  intros Hlt Hevs. rewrite filter_app, (filter_owner_none id evs), app_nil_r; [done|].
  intros e He. rewrite (Hevs e He). lia.
Qed.

(** C5. For a well-formed fork request (a parsable parent id, forkStep at
    least 1) on an existing parent: the events loaded are exactly the
    parent's events with step at most forkStep, in ascending step order. In
    every store the API can produce, when that prefix is not empty the fork
    succeeds; actualForkStep, stored as currentStep and branchFromStep, is
    the largest step of the prefix (hence at most forkStep: a larger request
    is clamped); the new mission did not exist before and its log is the
    list of copies, one per loaded event and in the same order, each equal
    to its source in step, agent, kind, summary, payload and timestamp,
    owned by the new mission and with an identity no stored event has; the
    parent's log is untouched. When the prefix is empty the fork is refused
    with the not-forkable error and the database stays as it is. *)
Theorem fork_copies_prefix s body now pid forkStep :
  f_forkStep body = Some forkStep →
  parseObjectId (f_parentMissionId body) = Some pid →
  1 <= forkStep →
  is_Some (missions s !! pid) →
  let prefix := loadParentEvents pid forkStep (events s) in
  let s' := (fork body now s).1 in
  ((∀ e, e ∈ prefix ↔ e ∈ history pid s ∧ e_step e <= forkStep)
   ∧ StronglySorted byStep prefix)
  ∧ (reachable s → prefix ≠ [] →
     ∃ newId actualForkStep copies newMission,
       (fork body now s).2 = ForkOk newId
       ∧ missions s !! newId = None
       ∧ missions s' !! newId = Some newMission
       ∧ m_currentStep newMission = actualForkStep
       ∧ m_branchFromStep newMission = Some actualForkStep
       ∧ m_branchFromMissionId newMission = Some pid
       ∧ (∃ e, e ∈ prefix ∧ e_step e = actualForkStep)
       ∧ (∀ e, e ∈ prefix → e_step e <= actualForkStep)
       ∧ actualForkStep <= forkStep
       ∧ events s' = events s ++ copies
       ∧ history newId s' = copies
       ∧ history pid s' = history pid s
       ∧ Forall2 (λ src cp, sameContent src cp
                            ∧ e_missionId cp = newId
                            ∧ ∀ e, e ∈ events s → e_id cp ≠ e_id e) prefix copies
       ∧ NoDup (e_id <$> copies))
  ∧ (prefix = [] → fork body now s = (s, ForkBadRequest notForkable)).
Proof.
  intros Hf Hp Hge [pm Hm] prefix s'. split; [|split].
  - split; [|apply sortByStep_sorted].
    intros e. unfold prefix. rewrite loadParentEvents_elem, history_elem. tauto.
  - intros [Hwf Hc]%reachable_inv Hne.
    destruct (last prefix) as [lastEvent|] eqn:Hl.
    2:{ apply last_None in Hl. done. }
    pose proof (fork_success body now s forkStep pid pm lastEvent Hwf Hf Hp Hge Hm Hl) as Heq.
    simpl in Heq. fold prefix in Heq. unfold s'. rewrite Heq. simpl.
    set (copies := imap _ prefix).
    assert (Hown : ∀ e, e ∈ copies → e_missionId e = oidCounter s).
    { by intros d (i & src & Hi & ->)%copies_elem. }
    destruct (sortByStep_last _ _ Hl) as [Hin Hmax].
    assert (Hlast : lastEvent ∈ prefix).
    { unfold prefix, loadParentEvents. by apply (proj2 (sortByStep_elem _ _)). }
    eexists (oidCounter s), (e_step lastEvent), copies, _.
    split; [done|]. split.
    { destruct (missions s !! oidCounter s) as [m0|] eqn:Hm0; [|done].
      apply (wf_mission _ Hwf) in Hm0 as [_ ?]. lia. }
    split; [by rewrite lookup_insert_eq|]. simpl.
    split; [done|]. split; [done|]. split; [done|].
    split; [eauto|]. split.
    { intros e He. apply Hmax. unfold prefix, loadParentEvents in He.
      by apply (proj1 (sortByStep_elem _ _)) in He. }
    split. { apply loadParentEvents_elem in Hlast. tauto. }
    split; [done|]. split.
    { unfold history. simpl. by apply history_new_mission. }
    split.
    { unfold history at 1. simpl. apply history_other_mission; [|done].
      apply (wf_mission _ Hwf) in Hm. tauto. }
    split; [|apply copies_ids_NoDup].
    apply imap_Forall2. intros i x Hx. split; [apply copyOf_sameContent|].
    split; [done|]. simpl. intros e He. apply (wf_event_id _ Hwf) in He. lia.
  - intros Hnil. unfold fork. rewrite Hf, Hp, Hm.
    rewrite bool_decide_eq_false_2 by (by eapply parseObjectId_nonempty).
    rewrite decide_False by lia.
    fold prefix. by rewrite Hnil.
Qed.

(** C5 on the scenario of the specification: a mission ticked to step 13,
    forked at step 20, which is clamped to 13. *)
Lemma fork_copies_prefix_witness :
  let s := foldl (λ st r, handle r st) emptyStore
             (RStart (mkStartBody None (Some "real")) None 100
              :: replicate 12 (RTick "000000000000000000000000" 200 None)) in
  let body := mkForkBody "000000000000000000000000" (Some 20) in
  ∃ newId copies newMission,
    (fork body 400 s).2 = ForkOk newId
    ∧ missions s !! newId = None
    ∧ missions (fork body 400 s).1 !! newId = Some newMission
    ∧ m_currentStep newMission = 13
    ∧ m_branchFromStep newMission = Some 13
    ∧ history newId (fork body 400 s).1 = copies
    ∧ history 0 (fork body 400 s).1 = history 0 s
    ∧ Forall2 (λ src cp, sameContent src cp
                         ∧ e_missionId cp = newId
                         ∧ ∀ e, e ∈ events s → e_id cp ≠ e_id e)
        (loadParentEvents 0 20 (events s)) copies.
Proof.
  intros s body.
  destruct (fork_copies_prefix s body 400 0%N 20) as (_ & Hok & _).
  - reflexivity.
  - reflexivity.
  - lia.
  - vm_compute. eauto.
  - destruct Hok as (newId & actual & copies & nm & H1 & H2 & H3 & H4 & H5 & _ & _ & _ & _
                     & _ & H6 & H7 & H8 & _).
    + apply reachable_foldl. constructor.
    + vm_compute. discriminate.
    + assert (Hid : newId = 14%N).
      { clear -H1. vm_compute in H1. by injection H1. }
      subst newId.
      assert (Hcs : m_currentStep nm = 13).
      { clear -H3. vm_compute in H3. by injection H3 as <-. }
      assert (Hact : actual = 13) by (by rewrite <- H4).
      rewrite Hact in H4, H5.
      exists 14%N, copies, nm.
      split; [exact H1|]. split; [exact H2|]. split; [exact H3|]. split; [exact H4|].
      split; [exact H5|]. split; [exact H6|]. split; [exact H7|]. exact H8.
Defined.

(** C6 (amended). In every store the API can produce, a successful fork
    creates a mission whose status is running, whatever the parent's; whose
    currentStep and branchFromStep are the largest step of the copied
    events, which is the currentStep of their fold; whose lastCheckpointAt
    is the timestamp of the last checkpoint-kind event among the copies and
    is absent when there is none; and whose latestSummary is the summary of
    that checkpoint when there is one and otherwise the latestSummary the
    parent's record holds at the time of the fork. Its branchFromMissionId
    is the parent. *)
Theorem fork_aggregate s body now newId :
  reachable s →
  (fork body now s).2 = ForkOk newId →
  ∃ pid parent newMission,
    parseObjectId (f_parentMissionId body) = Some pid
    ∧ missions s !! pid = Some parent
    ∧ missions (fork body now s).1 !! newId = Some newMission
    ∧ let copied := history newId (fork body now s).1 in
      m_status newMission = StatusRunning
      ∧ m_currentStep newMission = a_currentStep (foldEmit copied)
      ∧ (∃ e, e ∈ copied ∧ e_step e = m_currentStep newMission)
      ∧ (∀ e, e ∈ copied → e_step e <= m_currentStep newMission)
      ∧ m_lastCheckpointAt newMission = a_lastCheckpointAt (foldEmit copied)
      ∧ m_lastCheckpointAt newMission = e_ts <$> lastCheckpointOf copied
      ∧ m_latestSummary newMission =
          match lastCheckpointOf copied with
          | Some c => Some (e_summary c)
          | None => m_latestSummary parent
          end
      ∧ m_branchFromMissionId newMission = Some pid
      ∧ m_branchFromStep newMission = Some (m_currentStep newMission).
Proof.
  intros [Hwf Hc]%reachable_inv Hok.
  destruct (fork_cases body now s) as
    [(r & Heq & Hr) | (forkStep & pid & pm & lastEvent & ins & Hcase)].
  { rewrite Heq in Hok. simpl in Hok. by destruct (Hr newId). }
  simpl in Hcase. destruct Hcase as (Hf & Hp & Hge & Hm & Hl & _).
  pose proof (fork_success body now s forkStep pid pm lastEvent Hwf Hf Hp Hge Hm Hl) as Heq.
  simpl in Heq. rewrite Heq in Hok |- *. simpl in Hok |- *. injection Hok as <-.
  set (prefix := loadParentEvents pid forkStep (events s)) in *.
  set (copies := imap _ prefix).
  assert (Hown : ∀ e, e ∈ copies → e_missionId e = oidCounter s).
  { by intros d (i & src & Hi & ->)%copies_elem. }
  assert (Hhist : history (oidCounter s)
                    (mkStore (<[oidCounter s := mkMission (oidCounter s)
                        (m_title pm ++ " (fork)")%string StatusRunning (e_step lastEvent) now now
                        (e_ts <$> lastCheckpointOf prefix)
                        (forkLatestSummary (lastCheckpointOf prefix) pm)
                        (Some pid) (Some (e_step lastEvent)) None None None]> (missions s))
                       (events s ++ copies) (uniqueIndex s)
                       (N.succ (oidCounter s) + N.of_nat (length prefix))%N) = copies).
  { unfold history. simpl. by apply history_new_mission. }
  rewrite Hhist.
  pose proof (cached_fork s pid pm forkStep lastEvent now (N.succ (oidCounter s))
                Hwf Hge Hm Hl) as (Hcs & Hat & _).
  simpl in Hcs, Hat. fold prefix in Hcs, Hat. fold copies in Hcs, Hat.
  assert (Hfold : foldEmit copies = foldEmit prefix).
  { symmetry. apply foldEmit_sameContent, imap_sameContent.
    intros i x. apply copyOf_sameContent. }
  destruct (foldEmit_checkpoint prefix) as [Hat1 Hsum1].
  destruct (foldEmit_checkpoint copies) as [Hat2 Hsum2].
  destruct (sortByStep_last _ _ Hl) as [Hin Hmax].
  exists pid, pm. eexists. split; [done|]. split; [done|].
  split; [by rewrite lookup_insert_eq|]. simpl.
  split; [done|]. split; [done|]. split.
  { assert (Hlast : lastEvent ∈ prefix).
    { unfold prefix, loadParentEvents. by apply (proj2 (sortByStep_elem _ _)). }
    apply list_elem_of_lookup_1 in Hlast as [i Hi].
    eexists. split; [by eapply elem_of_lookup_imap_2|]. done. }
  split.
  { intros d (i & src & Hi & ->)%copies_elem. simpl.
    apply Hmax. apply list_elem_of_lookup_2 in Hi.
    unfold prefix, loadParentEvents in Hi. by apply (proj1 (sortByStep_elem _ _)) in Hi. }
  split; [done|]. split; [by rewrite <- Hat2|].
  split; [|done].
  rewrite Hfold, Hsum1 in Hsum2.
  destruct (lastCheckpointOf prefix) as [c0|] eqn:Hc0;
    destruct (lastCheckpointOf copies) as [c|] eqn:Hc1; simpl in *; try done.
  injection Hsum2 as Hsum2. rewrite Hsum2.
  apply lastCheckpointOf_Some in Hc0 as [Hin0 _].
  apply loadParentEvents_elem in Hin0 as (Hin0 & _).
  rewrite bool_decide_eq_false_2; [done|]. rewrite <- Hsum2. by apply (wf_summary _ Hwf).
Qed.

(** C6 as stated fails on latestSummary: a mission ticked past its first
    checkpoint (step 6) and forked at step 3 copies no checkpoint event, so
    the new mission has no lastCheckpointAt, yet its latestSummary is the
    parent's. *)
Lemma fork_inherits_parent_summary :
  let s := foldl (λ st r, handle r st) emptyStore
             (RStart (mkStartBody None (Some "real")) None 100
              :: replicate 7 (RTick "000000000000000000000000" 200 None)) in
  let body := mkForkBody "000000000000000000000000" (Some 3) in
  ∃ newId newMission,
    (fork body 400 s).2 = ForkOk newId
    ∧ missions (fork body 400 s).1 !! newId = Some newMission
    ∧ lastCheckpointOf (history newId (fork body 400 s).1) = None
    ∧ m_lastCheckpointAt newMission = None
    ∧ m_latestSummary newMission ≠ None
    ∧ m_latestSummary newMission
      = Some "Checkpoint: Research phase 1 complete. 47 papers collected, SSM trend identified.".
Proof.
  intros s body. eexists _, _.
  split; [vm_compute; reflexivity|].
  split; [vm_compute; reflexivity|].
  split; [vm_compute; reflexivity|].
  split; [reflexivity|]. split; [discriminate|reflexivity].
Qed.

(** C6 on the scenario of the specification: a mission at step 13 with a
    checkpoint at step 13, forked at step 20. *)
Lemma fork_aggregate_witness :
  let s := foldl (λ st r, handle r st) emptyStore
             (RStart (mkStartBody None (Some "real")) None 100
              :: replicate 12 (RTick "000000000000000000000000" 200 None)) in
  let body := mkForkBody "000000000000000000000000" (Some 20) in
  ∃ newMission,
    missions (fork body 400 s).1 !! 14%N = Some newMission
    ∧ m_status newMission = StatusRunning
    ∧ m_currentStep newMission = a_currentStep (foldEmit (history 14 (fork body 400 s).1))
    ∧ m_lastCheckpointAt newMission
      = e_ts <$> lastCheckpointOf (history 14 (fork body 400 s).1)
    ∧ m_branchFromMissionId newMission = Some 0%N
    ∧ m_branchFromStep newMission = Some (m_currentStep newMission).
Proof.
  intros s body.
  destruct (fork_aggregate s body 400 14%N) as
    (pid & parent & nm & Hp & _ & Hm & Hst & Hcs & _ & _ & _ & Hat & _ & Hbr & Hbs).
  - apply reachable_foldl. constructor.
  - vm_compute. reflexivity.
  - exists nm. assert (pid = 0%N) as -> by (vm_compute in Hp; congruence).
    split; [exact Hm|]. split; [exact Hst|]. split; [exact Hcs|]. split; [exact Hat|].
    split; [exact Hbr|exact Hbs].
Defined.

(** ** C1: the mission record as a cache of the log *)

Lemma reachable_with_crashes s : reachable s → reachableWithCrashes s.
Proof.
  induction 1 as [|r s _ IH]; [constructor|].
  apply (crashes_perform (Completed r)), IH.
Qed.

Lemma perform_foldl ops s :
  reachableWithCrashes s → reachableWithCrashes (foldl (λ st o, perform o st) s ops).
Proof.
  revert s. induction ops as [|o ops IH]; intros s Hs; simpl; [done|].
  apply IH. by constructor.
Qed.

(** The three shapes of an emit, without reference to the cache. *)
Lemma emit_shape body now s :
  (∃ r, emitInsert body now s = ((emit body now s).1, inl r)
        ∧ missions (emit body now s).1 = missions s
        ∧ events (emit body now s).1 = events s
        ∧ (oidCounter s <= oidCounter (emit body now s).1)%N)
  ∨ ∃ mid m ev u s3,
      missions s !! mid = Some m
      ∧ emitInsert body now s = (s3, inr (mid, u))
      ∧ emit body now s = (updateOneMission mid u s3, EmitOk false)
      ∧ missions s3 = missions s
      ∧ events s3 = events s ++ [ev]
      ∧ oidCounter s3 = N.succ (oidCounter s)
      ∧ e_missionId ev = mid ∧ e_id ev = oidCounter s ∧ e_summary ev ≠ ""
      ∧ findOneEvent mid (e_step ev) (events s) = None
      ∧ e_source ev = None
      ∧ u = emitUpdateFields (m_currentStep m) (e_ts ev) (e_step ev) (e_type ev)
              (e_summary ev).
Proof.
  destruct (emit_cases body now s) as
    [(r & Heq & Hr1 & Hr2 & _) | [(s1 & mid & He & Heq & _)
     | (s1 & mid & m & agent & type & Hv & Hp & Ha & Ht & He & Hm & Hcase)]].
  - left. rewrite Heq. simpl. unfold emit in Heq.
    destruct (emitInsert body now s) as [s' [r'|[mid u]]]; simpl; [|by injection Heq as _ <-].
    injection Heq as -> _. exists r'. repeat split; try done.
  - left. destruct (ensureIndexes_Some _ _ He) as (Hms & Hes & Hcn & _).
    rewrite Heq. unfold emit in Heq.
    destruct (emitInsert body now s) as [s' [r'|[mid' u]]]; simpl; [|done].
    injection Heq as -> _. exists r'. repeat split; try done. lia.
  - destruct (ensureIndexes_Some _ _ He) as (Hms & Hes & Hcn & _).
    destruct Hcase as [[_ Heq] | (Hfree & Heq & Heq')].
    + left. rewrite Heq. unfold emit in Heq.
      destruct (emitInsert body now s) as [s' [r'|[mid' u]]]; simpl; [|done].
      injection Heq as -> _. exists r'. simpl. repeat split; try done. lia.
    + right. simpl in Heq, Heq'. eexists mid, m, _, _, _.
      split; [done|]. split; [exact Heq'|]. split; [exact Heq|]. simpl.
      split; [done|]. split; [done|]. split; [by rewrite Hcn|].
      split; [done|]. split; [done|]. split; [by apply validEmitBody_summary|].
      split; [done|]. split; done.
Qed.

(** The two shapes of a tick, without reference to the cache. *)
Lemma tick_shape missionId now reply s :
  (∃ r, tick missionId now reply s = (s, r)
        ∧ tickInsert missionId now reply s = (s, inl r))
  ∨ ∃ mid m ev u s2 r agent au,
      missions s !! mid = Some m
      ∧ tickInsert missionId now reply s = (s2, inr (mid, u, r))
      ∧ tick missionId now reply s = (updateOneMission mid u s2, r)
      ∧ missions s2 = missions s
      ∧ events s2 = events s ++ [ev]
      ∧ oidCounter s2 = N.succ (oidCounter s)
      ∧ e_missionId ev = mid ∧ e_id ev = oidCounter s ∧ e_summary ev ≠ ""
      ∧ findOneEvent mid (e_step ev) (events s) = None
      ∧ getAgentAndTypeForStep (m_currentStep m + 1) = Some (agent, e_type ev)
      ∧ e_step ev = m_currentStep m + 1
      ∧ (e_source ev = Some SrcOpenai ∨ au = None)
      ∧ u = tickUpdateFields (e_ts ev) (e_step ev) (e_type ev) (e_summary ev) au.
Proof.
  destruct (tick_cases missionId now reply s) as
    [(r & Heq & _ & Heq') | (mid & m & agent & type & summary & payload & au & used &
                       Hp & Hm & Hst & Hle & Hsch & Hfree & Hcont & Heq & Heq')].
  - left. eauto.
  - right. simpl in Heq, Heq'. eexists mid, m, _, _, _, _, agent, au.
    split; [done|]. split; [exact Heq'|]. split; [exact Heq|]. simpl.
    split; [done|]. split; [done|]. split; [done|].
    split; [done|]. split; [done|]. split; [by eapply tickContent_nonempty|].
    split; [done|]. split; [done|]. split; [done|]. split; [|done].
    destruct (tickContent_source _ _ _ _ _ _ _ _ Hcont) as [[-> _]|(_ & _ & ->)]; auto.
Qed.

(** Nothing written, apart from the index flag and the id counter. *)
Lemma applied_same applied s s' :
  wellFormed s → cachesApplied applied s →
  missions s' = missions s → events s' = events s →
  (oidCounter s <= oidCounter s')%N →
  wellFormed s' ∧ cachesApplied applied s'.
Proof.
  intros [Hwm Hwe Hwo Hwu Hws Hwseed] [Hsub Hc] Hms Hes Hcn.
  split; [split|split]; try (rewrite ?Hms, ?Hes; done).
  - intros id m0. rewrite Hms. intros H. apply Hwm in H as [? ?]. split; [done|lia].
  - intros e. rewrite Hes. intros He. apply Hwe in He. lia.
Qed.

(** An event inserted, the update of the record not written. *)
Lemma applied_skip applied s s' mid ev :
  wellFormed s → cachesApplied applied s →
  is_Some (missions s !! mid) →
  missions s' = missions s →
  events s' = events s ++ [ev] →
  oidCounter s' = N.succ (oidCounter s) →
  e_missionId ev = mid → e_id ev = oidCounter s → e_summary ev ≠ "" →
  findOneEvent mid (e_step ev) (events s) = None →
  wellFormed s' ∧ cachesApplied applied s'.
Proof.
  intros Hwf [Hsub Hc] Hm Hms Hes Hcnt Hmid Hid Hsum Hfree.
  split; [by eapply (wf_append_only s s' mid ev)|].
  split; [rewrite Hes; by apply sublist_inserts_r|].
  intros id m0. rewrite Hms. apply Hc.
Qed.

(** An event inserted and the update written. *)
Lemma applied_append applied s s' mid m u ev :
  wellFormed s → cachesApplied applied s →
  missions s !! mid = Some m →
  missions s' = alter (applySet u) mid (missions s) →
  events s' = events s ++ [ev] →
  oidCounter s' = N.succ (oidCounter s) →
  e_missionId ev = mid → e_id ev = oidCounter s → e_summary ev ≠ "" →
  findOneEvent mid (e_step ev) (events s) = None →
  (∀ h, cached m h → cached (applySet u m) (h ++ [ev])) →
  wellFormed s' ∧ cachesApplied (applied ++ [ev]) s'.
Proof.
  intros Hwf [Hsub Hc] Hm Hms Hes Hcnt Hmid Hid Hsum Hfree Hcm.
  assert (Hwf' : wellFormed (mkStore (missions s) (events s') (uniqueIndex s') (oidCounter s'))).
  { eapply (wf_append_only s _ mid ev); eauto. }
  destruct Hwf' as [Hwm Hwe Hwo Hwu Hws Hwseed]. simpl in *.
  split; [split|split]; try done.
  - intros id m0. rewrite Hms, lookup_alter. case_decide as Hd.
    + subst id. rewrite Hm. intros [= <-]. simpl. by apply Hwm.
    + apply Hwm.
  - intros e He. rewrite Hms. apply lookup_alter_is_Some. by apply Hwo.
  - intros id H. apply Hwseed. rewrite Hms in H. by apply lookup_alter_is_Some in H.
  - rewrite Hes. apply sublist_app; [done|reflexivity].
  - intros id m0. rewrite Hms, lookup_alter, filter_app. case_decide as Hd.
    + subst id. rewrite Hm. intros [= <-].
      rewrite (filter_cons_True _ ev) by done. rewrite filter_nil.
      apply Hcm. by apply Hc.
    + intros H. rewrite (filter_cons_False _ ev) by congruence.
      rewrite filter_nil, app_nil_r. by apply Hc.
Qed.

(** A new mission with its own events, all of them applied. *)
Lemma applied_new_mission applied s s' m evs :
  wellFormed s → cachesApplied applied s →
  missions s' = <[oidCounter s := m]> (missions s) →
  events s' = events s ++ evs →
  (oidCounter s < oidCounter s')%N →
  m_id m = oidCounter s →
  (∀ e, e ∈ evs →
        e_missionId e = oidCounter s ∧ (e_id e < oidCounter s')%N ∧ e_summary e ≠ "") →
  NoDup (e_step <$> evs) →
  (∃ e, e ∈ evs ∧ e_step e = 1) →
  cached m evs →
  wellFormed s' ∧ cachesApplied (applied ++ evs) s'.
Proof.
  intros [Hwm Hwe Hwo Hwu Hws Hwseed] [Hsub Hc] Hms Hes Hlt Hid Hevs Hnd
    (seed & Hseed & Hseed1) Hcm.
  assert (Hold : ∀ e, e ∈ events s → e_missionId e ≠ oidCounter s).
  { intros e He Heq. destruct (Hwo e He) as [m0 Hm0].
    apply Hwm in Hm0 as [_ Hm0]. lia. }
  split; [split|split].
  - intros id m0. rewrite Hms, lookup_insert. case_decide as Hd.
    + intros [= <-]. subst id. split; [done|lia].
    + intros H. apply Hwm in H as [? ?]. split; [done|lia].
  - intros e. rewrite Hes. intros [He|He]%elem_of_app.
    + apply Hwe in He. lia.
    + by apply Hevs.
  - intros e. rewrite Hes, Hms. intros [He|He]%elem_of_app.
    + rewrite lookup_insert. case_decide; [by eexists|]. by apply Hwo.
    + destruct (Hevs e He) as [-> _]. rewrite lookup_insert_eq. by eexists.
  - rewrite Hes, fmap_app. apply NoDup_app. split; [done|]. split.
    + intros k (x & -> & Hx)%list_elem_of_fmap (y & Hxy & Hy)%list_elem_of_fmap.
      apply (Hold x Hx). injection Hxy as -> _. by destruct (Hevs y Hy).
    + apply (NoDup_keys_of_steps _ (oidCounter s)); [done|].
      intros e He. by destruct (Hevs e He).
  - intros e. rewrite Hes. intros [He|He]%elem_of_app; [by apply Hws|].
    by destruct (Hevs e He) as (_ & _ & ?).
  - intros id. rewrite Hms, lookup_insert. case_decide as Hd.
    + intros _. subst id. exists seed. rewrite Hes.
      split; [apply elem_of_app; by right|]. split; [|done]. by destruct (Hevs seed Hseed).
    + intros H. destruct (Hwseed id H) as (e & He & ? & ?). exists e. rewrite Hes.
      split; [apply elem_of_app; by left|done].
  - rewrite Hes. apply sublist_app; [done|reflexivity].
  - intros id m0. rewrite Hms, lookup_insert, filter_app. case_decide as Hd.
    + intros [= <-]. subst id.
      rewrite (filter_owner_none (oidCounter s) applied).
      * rewrite filter_owner_all; [done|]. intros e He. by destruct (Hevs e He).
      * intros e He. apply Hold. eapply elem_of_sublist; [exact He|done]. 
    + intros H. rewrite (filter_owner_none id evs), app_nil_r; [by apply Hc|].
      intros e He. destruct (Hevs e He) as [-> _]. done.
Qed.

(** Every store the API can produce, with interrupted handlers or without,
    is well formed, and each record caches the applied part of its log. *)
Lemma crashes_inv s :
  reachableWithCrashes s → wellFormed s ∧ ∃ applied, cachesApplied applied s.
Proof.
  induction 1 as [|o s _ (Hwf & applied & Happ)].
  { split; [apply inv_empty|]. exists []. split; [done|].
    intros id m Hm. done. }
  assert (Hemit : ∀ body now,
    (wellFormed (emit body now s).1 ∧ ∃ a, cachesApplied a (emit body now s).1)
    ∧ (wellFormed (emitInsert body now s).1 ∧ ∃ a, cachesApplied a (emitInsert body now s).1)).
  { intros body now.
    destruct (emit_shape body now s) as
      [(r & Heq & Hms & Hes & Hcn)
      | (mid & m & ev & u & s3 & Hm & Heq & Heq' & Hms & Hes & Hcn & Hmid & Hid & Hsum
         & Hfree & Hsrc & Hu)].
    - rewrite Heq. cbn [fst].
      assert (wellFormed (emit body now s).1 ∧ cachesApplied applied (emit body now s).1)
        as [? ?] by (by apply (applied_same applied s)).
      split; (split; [done|by exists applied]).
    - rewrite Heq, Heq'. cbn [fst]. split.
      + assert (wellFormed (updateOneMission mid u s3)
                ∧ cachesApplied (applied ++ [ev]) (updateOneMission mid u s3)) as [? ?].
        { apply (applied_append applied s _ mid m u ev); try done.
          - simpl. by rewrite Hms.
          - intros h Hh. rewrite Hu. by apply cached_emit. }
        split; [done|by eexists].
      + assert (wellFormed s3 ∧ cachesApplied applied s3) as [? ?].
        { apply (applied_skip applied s s3 mid ev); first [done|by eexists]. }
        split; [done|by eexists]. }
  assert (Htick : ∀ missionId now reply,
    (wellFormed (tick missionId now reply s).1
     ∧ ∃ a, cachesApplied a (tick missionId now reply s).1)
    ∧ (wellFormed (tickInsert missionId now reply s).1
       ∧ ∃ a, cachesApplied a (tickInsert missionId now reply s).1)).
  { intros missionId now reply.
    destruct (tick_shape missionId now reply s) as
      [(r & Heq & Heq')
      | (mid & m & ev & u & s2 & r & agent & au & Hm & Heq & Heq' & Hms & Hes & Hcn & Hmid
         & Hid & Hsum & Hfree & Hsch & Hstep & Hsrc & Hu)].
    - rewrite Heq, Heq'. cbn [fst]. split; (split; [done|by exists applied]).
    - rewrite Heq, Heq'. cbn [fst]. split.
      + assert (wellFormed (updateOneMission mid u s2)
                ∧ cachesApplied (applied ++ [ev]) (updateOneMission mid u s2)) as [? ?].
        { apply (applied_append applied s _ mid m u ev); try done.
          - simpl. by rewrite Hms.
          - intros h Hh. rewrite Hu. by apply (cached_tick m h ev agent au). }
        split; [done|by eexists].
      + assert (wellFormed s2 ∧ cachesApplied applied s2) as [? ?].
        { apply (applied_skip applied s s2 mid ev); first [done|by eexists]. }
        split; [done|by eexists]. }
  destruct o as [[sb env t|b t|mi t rp|fb t|]|b t|mi t rp]; simpl.
  - destruct (start_cases sb env t s) as
      [[_ ->] | (s1 & doc & He & Hid & Hst & Hcs & Hat & Hsum & Hbr & Hcase)];
      [split; [done|by exists applied]|].
    simpl in Hcase. destruct Hcase as [[[x Hx] _] | ->].
    { apply findOneEvent_Some in Hx as (Hin & Hm & _).
      destruct (wf_owner _ Hwf _ Hin) as [m0 Hm0]. rewrite Hm in Hm0.
      apply (wf_mission _ Hwf) in Hm0 as [_ ?]. lia. }
    cbn [fst].
    match goal with
    | |- wellFormed (mkStore _ (_ ++ ?evs) _ _) ∧ _ =>
        cut (wellFormed (mkStore (<[oidCounter s := doc]> (missions s)) (events s ++ evs)
                           true (N.succ (N.succ (oidCounter s))))
             ∧ cachesApplied (applied ++ evs)
                 (mkStore (<[oidCounter s := doc]> (missions s)) (events s ++ evs)
                    true (N.succ (N.succ (oidCounter s)))));
        [intros [? ?]; split; [done|by eexists]|]
    end.
    eapply (applied_new_mission applied s); try done; simpl.
    + lia.
    + intros e ->%list_elem_of_singleton. simpl. split; [done|]. split; [lia|done].
    + apply NoDup_singleton.
    + eexists. split; [by left|done].
    + unfold cached. simpl. rewrite Hcs, Hat, Hst, Hsum.
      repeat split; try done.
  - apply Hemit.
  - apply Htick.
  - destruct (fork_cases fb t s) as
      [(r & -> & _) | (forkStep & pid & pm & lastEvent & ins & Hcase)];
      [split; [done|by exists applied]|].
    simpl in Hcase. destruct Hcase as (Hf & Hp & Hge & Hm & Hl & _).
    rewrite (fork_success fb t s forkStep pid pm lastEvent) by done.
    cbn [fst].
    match goal with
    | |- wellFormed ?st ∧ _ =>
        cut (wellFormed st
             ∧ cachesApplied
                 (applied ++ imap (λ i e, copyOf (oidCounter s)
                                            (N.succ (oidCounter s) + N.of_nat i)%N e)
                               (loadParentEvents pid forkStep (events s))) st);
        [intros [? ?]; split; [done|by eexists]|]
    end.
    eapply (applied_new_mission applied s); try done; simpl.
    + lia.
    + intros d (i & src & Hi & ->)%copies_elem. simpl. split; [done|]. split.
      * apply lookup_lt_Some in Hi. lia.
      * apply list_elem_of_lookup_2, loadParentEvents_elem in Hi as (Hin & _).
        by apply (wf_summary _ Hwf).
    + rewrite copies_steps. apply loadParentEvents_NoDup, Hwf.
    + destruct (wf_seed _ Hwf pid) as (seed & Hs1 & Hs2 & Hs3); [by eexists|].
      assert (Hseed : seed ∈ loadParentEvents pid forkStep (events s)).
      { apply loadParentEvents_elem. repeat split; [done..|lia]. }
      apply list_elem_of_lookup_1 in Hseed as [i Hi].
      eexists. split; [by eapply elem_of_lookup_imap_2|]. done.
    + by apply cached_fork.
  - split.
    + split; simpl; try done.
      * intros e He. by apply elem_of_nil in He.
      * intros e He. by apply elem_of_nil in He.
      * constructor.
      * intros e He. by apply elem_of_nil in He.
      * intros id [m Hm]. done.
    + exists []. split; [done|]. intros id m Hm. done.
  - apply Hemit.
  - apply Htick.
Qed.

Lemma filter_sublist_mono {A} (P : A → Prop) `{!∀ x, Decision (P x)} (l1 l2 : list A) :
  l1 `sublist_of` l2 → filter P l1 `sublist_of` filter P l2.
Proof.
  induction 1 as [|x l1 l2 Hs IH|x l1 l2 Hs IH]; [done| |].
  - destruct (decide (P x)).
    + rewrite !filter_cons_True by done. by constructor.
    + by rewrite !filter_cons_False by done.
  - destruct (decide (P x)).
    + rewrite filter_cons_True by done. by constructor.
    + by rewrite filter_cons_False by done.
Qed.

(** The fold of a part of a log never has a larger currentStep than the
    fold of the whole log. *)
Lemma foldEmit_currentStep_mono h1 h2 :
  h1 `sublist_of` h2 → a_currentStep (foldEmit h1) <= a_currentStep (foldEmit h2).
Proof.
  intros Hs.
  destruct (foldEmit_currentStep h1) as (_ & _ & Hatt).
  destruct (foldEmit_currentStep h2) as (H0 & Hle & _).
  destruct Hatt as [->|(e & He & <-)]; [done|].
  apply Hle. by eapply elem_of_sublist.
Qed.

(** C1 (amended). In every store the API can produce by completed
    requests, each mission record caches the fold of the mission's events
    taken in arrival (insertion) order under the emit handler's rule:
    currentStep is that fold's, the largest step of the log;
    lastCheckpointAt is that fold's, the timestamp of the checkpoint
    appended last; status is that fold's for a mission that is not a fork, a
    done status always has a done-kind event behind it, and no record is
    ever failed; latestSummary is that fold's (the summary of the checkpoint
    appended last) when that checkpoint did not come from the generator, is
    present whenever the log holds a checkpoint, and is that fold's (absent)
    for a mission that is not a fork and whose log holds no checkpoint; for
    a fork without a checkpoint in its log the log does not determine it
    (the fork handler copied it from the parent's record, see C6). When the
    events arrived in ascending step order this is the fold in step order.
    Right after one interrupted emit or tick on such a
    store, every record is the same cache of a prefix of the mission's log
    in arrival order. When emit and tick handlers may be interrupted any
    number of times between other requests, every record is the same cache
    of a subsequence of the mission's log in arrival order, in general not
    of a prefix, and its currentStep never exceeds that of the fold of the
    whole log. *)
Theorem cache_is_arrival_order_fold s :
  reachableWithCrashes s →
  (∀ id m, missions s !! id = Some m →
     ∃ h, h `sublist_of` history id s
          ∧ cached m h
          ∧ m_currentStep m <= a_currentStep (foldEmit (history id s)))
  ∧ (reachable s →
     (∀ id m, missions s !! id = Some m →
        cached m (history id s)
        ∧ (∀ e, e ∈ history id s → e_step e <= m_currentStep m)
        ∧ (∃ e, e ∈ history id s ∧ e_step e = m_currentStep m)
        ∧ (StronglySorted byStep (history id s) → cached m (sortByStep (history id s))))
     ∧ (∀ body now s3 p, emitInsert body now s = (s3, inr p) →
          ∀ id m, missions s3 !! id = Some m →
            ∃ h, h `prefix_of` history id s3 ∧ cached m h)
     ∧ (∀ missionId now reply s2 p, tickInsert missionId now reply s = (s2, inr p) →
          ∀ id m, missions s2 !! id = Some m →
            ∃ h, h `prefix_of` history id s2 ∧ cached m h)).
Proof.
  intros Hcr. split.
  { destruct (crashes_inv s Hcr) as (_ & applied & Hsub & Hc).
    intros id m Hm. exists (filter (λ e, e_missionId e = id) applied).
    assert (Hs : filter (λ e, e_missionId e = id) applied `sublist_of` history id s)
      by (by apply filter_sublist_mono).
    split; [done|]. split; [by apply Hc|].
    destruct (Hc id m Hm) as (-> & _). by apply foldEmit_currentStep_mono. }
  intros [Hwf Hc]%reachable_inv. split; [|split].
  - intros id m Hm. pose proof (Hc id m Hm) as Hcm.
    split; [done|].
    destruct Hcm as (Hcs & _).
    destruct (foldEmit_currentStep (history id s)) as (_ & Hle & Hatt).
    rewrite <- Hcs in Hle, Hatt. split; [done|]. split.
    + destruct (wf_seed _ Hwf id) as (seed & Hs1 & Hs2 & Hs3); [by eexists|].
      destruct Hatt as [H0|?]; [|done].
      specialize (Hle seed). rewrite history_elem in Hle.
      specialize (Hle (conj Hs1 Hs2)). lia.
    + intros Hs. rewrite sortByStep_id by done. by apply Hc.
  - intros body now s3 p Heq id m Hm.
    destruct (emit_store_cases body now s Hwf Hc) as
      [(r & Heq' & _) | (mid & m0 & ev & u & s3' & _ & Heq' & _ & Hms & Hes & _)].
    { rewrite Heq in Heq'. done. }
    rewrite Heq in Heq'. injection Heq' as <- _.
    exists (history id s). split.
    + rewrite (history_of_events id s s3 [ev]) by done. by apply prefix_app_r.
    + apply Hc. by rewrite <- Hms.
  - intros missionId now reply s2 p Heq id m Hm.
    destruct (tick_store_cases missionId now reply s Hwf Hc) as
      [(r & _ & Heq') | (mid & m0 & ev & u & s2' & r & _ & Heq' & _ & Hms & Hes & _)].
    { rewrite Heq in Heq'. done. }
    rewrite Heq in Heq'. injection Heq' as <- _.
    exists (history id s). split.
    + rewrite (history_of_events id s s2 [ev]) by done. by apply prefix_app_r.
    + apply Hc. by rewrite <- Hms.
Qed.

(** C1 as stated fails, in both halves. After [start], an emit of a
    checkpoint at step 5 and then an emit of a checkpoint at step 3, the
    record holds the checkpoint data of step 3 (the one that arrived last)
    together with currentStep 5. Folding the log in ascending step order,
    under the handlers' rule or under the specification's, ends on the
    checkpoint of step 5, and no prefix of the log in step order folds to
    the record. And a stale record need not be the fold of a prefix: after
    [start], an emit of a checkpoint at step 2 that is interrupted between
    its insert and its update, and a completed emit of a note at step 3, the
    record is at step 3 without checkpoint data, the log holds the steps 1,
    2 and 3 in this order, and no prefix of it folds to the record. The
    summary is not always the fold's either: a fork taken at step 3 of a
    mission that has passed its step-6 checkpoint, and then ticked once,
    holds the parent's summary while its own log has no checkpoint; and a
    checkpoint tick whose generator reply carries an artifact update stores
    that text, not the summary of the checkpoint event. *)
Lemma cache_not_step_order_fold :
  (let s :=
     foldl (λ st r, handle r st) emptyStore
       [ RStart (mkStartBody None None) None 100;
         REmit (mkEmitBody "000000000000000000000000" 5 "Planner" "CHECKPOINT" "A" None) 200;
         REmit (mkEmitBody "000000000000000000000000" 3 "Planner" "CHECKPOINT" "B" None) 300 ] in
   let log := sortByStep (history 0 s) in
   ∃ m,
     missions s !! 0%N = Some m
     ∧ (e_step <$> log) = [1; 3; 5]
     ∧ aggregateOf m = mkAggregate StatusRunning 5 (Some 300) (Some "B")
     ∧ foldEmit log = mkAggregate StatusRunning 5 (Some 200) (Some "A")
     ∧ specFold log = mkAggregate StatusRunning 5 (Some 200) (Some "A")
     ∧ ∀ p, p `prefix_of` log →
         aggregateOf m ≠ foldEmit p ∧ aggregateOf m ≠ specFold p)
  ∧ (let s :=
       foldl (λ st o, perform o st) emptyStore
         [ Completed (RStart (mkStartBody None None) None 100);
           EmitInterrupted
             (mkEmitBody "000000000000000000000000" 2 "Planner" "CHECKPOINT" "cp" None) 200;
           Completed
             (REmit (mkEmitBody "000000000000000000000000" 3 "Critic" "NOTE" "n" None) 300) ] in
     let log := sortByStep (history 0 s) in
     ∃ m,
       missions s !! 0%N = Some m
       ∧ log = history 0 s
       ∧ (e_step <$> log) = [1; 2; 3]
       ∧ aggregateOf m = mkAggregate StatusRunning 3 None None
       ∧ foldEmit log = mkAggregate StatusRunning 3 (Some 200) (Some "cp")
       ∧ specFold log = mkAggregate StatusRunning 3 (Some 200) (Some "cp")
       ∧ ∀ p, p `prefix_of` log →
           aggregateOf m ≠ foldEmit p ∧ aggregateOf m ≠ specFold p)
  ∧ (let s :=
       foldl (λ st r, handle r st) emptyStore
         (RStart (mkStartBody None (Some "real")) None 100
          :: replicate 7 (RTick "000000000000000000000000" 200 None)
          ++ [ RFork (mkForkBody "000000000000000000000000" (Some 3)) 300;
               RTick "000000000000000000000009" 400 None ]) in
     ∃ m,
       missions s !! 9%N = Some m
       ∧ m_branchFromMissionId m = Some 0%N
       ∧ (e_step <$> history 9 s) = [1; 2; 3; 4]
       ∧ lastCheckpointOf (history 9 s) = None
       ∧ m_latestSummary m
         = Some "Checkpoint: Research phase 1 complete. 47 papers collected, SSM trend identified."
       ∧ a_latestSummary (foldEmit (history 9 s)) = None
       ∧ a_latestSummary (specFold (sortByStep (history 9 s))) = None)
  ∧ (let s :=
       foldl (λ st r, handle r st) emptyStore
         (RStart (mkStartBody None (Some "real")) None 100
          :: replicate 4 (RTick "000000000000000000000000" 200 None)
          ++ [ RTick "000000000000000000000000" 300
                 (Some (mkReply (Some "Checkpoint reached") None
                          (Some (mkArtifact (Some "Summary so far"))))) ]) in
     ∃ m c,
       missions s !! 0%N = Some m
       ∧ lastCheckpointOf (history 0 s) = Some c
       ∧ e_step c = 6 ∧ e_source c = Some SrcOpenai
       ∧ e_summary c = "Checkpoint reached"
       ∧ m_latestSummary m = Some "Summary so far"
       ∧ a_latestSummary (foldEmit (history 0 s)) = Some "Checkpoint reached"
       ∧ a_latestSummary (specFold (sortByStep (history 0 s))) = Some "Checkpoint reached").
Proof.
  split; [|split; [|split]]; cycle 2.
  { intros s. eexists. repeat (split; [vm_compute; reflexivity|]). vm_compute; reflexivity. }
  { intros s. eexists _, _. repeat (split; [vm_compute; reflexivity|]).
    vm_compute; reflexivity. }
  - intros s log. eexists.
    split; [vm_compute; reflexivity|].
    split; [vm_compute; reflexivity|].
    split; [vm_compute; reflexivity|].
    split; [vm_compute; reflexivity|].
    split; [vm_compute; reflexivity|].
    intros p [k Hk].
    assert (Hlog : log =
      [ mkEvent 1 0 100 1 Planner PLAN
          "Mission initialized: Research and summarize latest AI trends"
          [("objective", PStr "AI Trends Research"); ("estimatedSteps", PNum 17)]
          (Some SrcScripted);
        mkEvent 3 0 300 3 Planner CHECKPOINT "B" [] None;
        mkEvent 2 0 200 5 Planner CHECKPOINT "A" [] None ]) by (vm_compute; reflexivity).
    rewrite Hlog in Hk. clear Hlog.
    destruct p as [|x1 p]; [split; vm_compute; discriminate|].
    injection Hk as <- Hk.
    destruct p as [|x2 p]; [split; vm_compute; discriminate|].
    injection Hk as <- Hk.
    destruct p as [|x3 p]; [split; vm_compute; discriminate|].
    injection Hk as <- Hk.
    destruct p as [|x4 p]; [split; vm_compute; discriminate|].
    discriminate Hk.
  - intros s log. eexists.
    split; [vm_compute; reflexivity|].
    split; [vm_compute; reflexivity|].
    split; [vm_compute; reflexivity|].
    split; [vm_compute; reflexivity|].
    split; [vm_compute; reflexivity|].
    split; [vm_compute; reflexivity|].
    intros p [k Hk].
    assert (Hlog : log =
      [ mkEvent 1 0 100 1 Planner PLAN
          "Mission initialized: Research and summarize latest AI trends"
          [("objective", PStr "AI Trends Research"); ("estimatedSteps", PNum 17)]
          (Some SrcScripted);
        mkEvent 2 0 200 2 Planner CHECKPOINT "cp" [] None;
        mkEvent 3 0 300 3 Critic NOTE "n" [] None ]) by (vm_compute; reflexivity).
    rewrite Hlog in Hk. clear Hlog.
    destruct p as [|x1 p]; [split; vm_compute; discriminate|].
    injection Hk as <- Hk.
    destruct p as [|x2 p]; [split; vm_compute; discriminate|].
    injection Hk as <- Hk.
    destruct p as [|x3 p]; [split; vm_compute; discriminate|].
    injection Hk as <- Hk.
    destruct p as [|x4 p]; [split; vm_compute; discriminate|].
    discriminate Hk.
Qed.

(** C1 (amended) on the two stores of the counterexample: after the
    interrupted emit the record is the cache of a subsequence of the log,
    and after the two completed checkpoint emits the record is the cache of
    the log in arrival order. *)
Lemma cache_is_arrival_order_fold_witness :
  (let s :=
     foldl (λ st o, perform o st) emptyStore
       [ Completed (RStart (mkStartBody None None) None 100);
         EmitInterrupted
           (mkEmitBody "000000000000000000000000" 2 "Planner" "CHECKPOINT" "cp" None) 200;
         Completed
           (REmit (mkEmitBody "000000000000000000000000" 3 "Critic" "NOTE" "n" None) 300) ] in
   ∃ m,
     missions s !! 0%N = Some m
     ∧ aggregateOf m = mkAggregate StatusRunning 3 None None
     ∧ ∃ h, h `sublist_of` history 0 s
            ∧ cached m h
            ∧ m_currentStep m <= a_currentStep (foldEmit (history 0 s)))
  ∧ (let s :=
       foldl (λ st r, handle r st) emptyStore
         [ RStart (mkStartBody None None) None 100;
           REmit (mkEmitBody "000000000000000000000000" 5 "Planner" "CHECKPOINT" "A" None) 200;
           REmit (mkEmitBody "000000000000000000000000" 3 "Planner" "CHECKPOINT" "B" None) 300 ] in
     ∃ m,
       missions s !! 0%N = Some m
       ∧ aggregateOf m = mkAggregate StatusRunning 5 (Some 300) (Some "B")
       ∧ cached m (history 0 s)
       ∧ (∀ e, e ∈ history 0 s → e_step e <= m_currentStep m)
       ∧ (∃ e, e ∈ history 0 s ∧ e_step e = m_currentStep m)
       ∧ (StronglySorted byStep (history 0 s) → cached m (sortByStep (history 0 s)))).
Proof.
  split.
  - intros s. eexists.
    split; [vm_compute; reflexivity|].
    split; [vm_compute; reflexivity|].
    refine (proj1 (cache_is_arrival_order_fold s _) 0%N _ _).
    + apply perform_foldl. constructor.
    + vm_compute. reflexivity.
  - intros s. eexists.
    split; [vm_compute; reflexivity|].
    split; [vm_compute; reflexivity|].
    assert (Hr : reachable s) by (apply reachable_foldl; constructor).
    refine (proj1 (proj2 (cache_is_arrival_order_fold s (reachable_with_crashes s Hr)) Hr)
              0%N _ _).
    vm_compute. reflexivity.
Defined.

(** ** C8: replay *)

(** The snapshot the page fetches and replays: events of the mission only,
    in ascending step order, at most 200. *)
Lemma getMission_snapshot missionId s mission snapshot :
  getMission missionId s = Some (mission, snapshot) →
  ∃ oid,
    parseObjectId missionId = Some oid
    ∧ missions s !! oid = Some mission
    ∧ StronglySorted byStep snapshot
    ∧ (length snapshot <= 200)%nat
    ∧ ∀ e, e ∈ snapshot → e ∈ history oid s.
Proof.
  unfold getMission.
  destruct (parseObjectId missionId) as [oid|]; [|done].
  destruct (missions s !! oid) as [m|] eqn:Hm; [|done].
  intros [= <- <-]. exists oid. split; [done|]. split; [done|]. split; [|split].
  - set (l := sortByStep _). pose proof (sortByStep_sorted
      (filter (λ e, e_missionId e = oid) (events s))) as Hs. fold l in Hs.
    rewrite <- (take_drop 200 l) in Hs. by apply StronglySorted_app_1_l in Hs.
  - rewrite length_take. lia.
  - intros e He. apply elem_of_take in He as (i & He & _).
    apply list_elem_of_lookup_2 in He.
    by apply (proj1 (sortByStep_elem _ _)) in He.
Qed.

Lemma lastCheckpointIdx_snoc l x :
  lastCheckpointIdx (l ++ [x]) =
  if isCheckpoint x then length l else lastCheckpointIdx l.
Proof.
  unfold lastCheckpointIdx. rewrite imap_app, List.filter_app, last_app. simpl.
  rewrite Nat.add_0_r. by destruct (isCheckpoint x).
Qed.

Lemma findIndex_Some {A} (p : A → bool) l :
  is_Some (findIndex p l) ↔ ∃ x, x ∈ l ∧ p x = true.
Proof.
  induction l as [|y l IH]; simpl.
  - split; [by intros [? ?]|]. intros (x & Hx & _). by apply elem_of_nil in Hx.
  - destruct (p y) eqn:Hy.
    + split; [|by eexists]. intros _. exists y. split; [by left|done].
    + rewrite fmap_is_Some, IH. split.
      * intros (x & Hx & ?). exists x. split; [by right|done].
      * intros (x & [->|Hx]%elem_of_cons & ?); [congruence|eauto].
Qed.

(** With a checkpoint in the list, [lastCheckpointIdx] is the position of
    the last one. *)
Lemma lastCheckpointIdx_spec l :
  (∃ e, e ∈ l ∧ isCheckpoint e = true) →
  ∃ c, l !! lastCheckpointIdx l = Some c
       ∧ isCheckpoint c = true
       ∧ ∀ j e, (lastCheckpointIdx l < j)%nat → l !! j = Some e → isCheckpoint e = false.
Proof.
  induction l as [|x l IH] using rev_ind.
  - intros (e & He & _). by apply elem_of_nil in He.
  - intros (e & He & Hc). rewrite lastCheckpointIdx_snoc.
    destruct (isCheckpoint x) eqn:Hx.
    + exists x. split; [by rewrite lookup_app_r, Nat.sub_diag|]. split; [done|].
      intros j e' Hj Hl. apply lookup_lt_Some in Hl. rewrite length_app in Hl.
      simpl in Hl. lia.
    + apply elem_of_app in He as [He| ->%list_elem_of_singleton]; [|congruence].
      destruct IH as (c & Hl & Hcc & Hafter); [eauto|].
      exists c. split; [by rewrite lookup_app_l by (by eapply lookup_lt_Some)|].
      split; [done|]. intros j e' Hj Hl'.
      destruct (decide (j < length l)%nat).
      * rewrite lookup_app_l in Hl' by done. by eapply Hafter.
      * rewrite lookup_app_r in Hl' by lia.
        apply list_lookup_singleton_Some in Hl' as [_ <-]. done.
Qed.

Lemma startIndexOf_lt fromCheckpoint l : l ≠ [] → (startIndexOf fromCheckpoint l < length l)%nat.
Proof.
  intros Hne. unfold startIndexOf.
  assert (0 < length l)%nat by (destruct l; [done|simpl; lia]).
  destruct fromCheckpoint; [|done].
  destruct (findIndex isCheckpoint l) eqn:E; [|done].
  destruct (lastCheckpointIdx_spec l) as (c & Hl & _).
  { apply findIndex_Some. by eexists. }
  by eapply lookup_lt_Some.
Qed.

Lemma startReplay_nonempty fromCheckpoint b :
  bd_events b ≠ [] →
  startReplay fromCheckpoint b =
  mkBoard (bd_events b) ModeReplay (bd_events b)
    (take (startIndexOf fromCheckpoint (bd_events b)) (bd_events b))
    (startIndexOf fromCheckpoint (bd_events b)) false fromCheckpoint.
Proof. unfold startReplay. by destruct (bd_events b). Qed.

(** The state [k] firings after the start, while events remain. *)
Lemma replayTick_iter_running fromCheckpoint b k :
  bd_events b ≠ [] →
  (startIndexOf fromCheckpoint (bd_events b) + k <= length (bd_events b))%nat →
  Nat.iter k replayTick (startReplay fromCheckpoint b) =
  mkBoard (bd_events b) ModeReplay (bd_events b)
    (take (startIndexOf fromCheckpoint (bd_events b) + k) (bd_events b))
    (startIndexOf fromCheckpoint (bd_events b) + k) false fromCheckpoint.
Proof.
  intros Hne. induction k as [|k IH]; intros Hk.
  - simpl. rewrite Nat.add_0_r. by apply startReplay_nonempty.
  - simpl. rewrite IH by lia. unfold replayTick. simpl.
    destruct (Nat.ltb_spec (length (bd_events b))
                (S (startIndexOf fromCheckpoint (bd_events b) + k))); [lia|].
    by rewrite <- Nat.add_succ_r.
Qed.

(** The state once the interval has fired past the last event. *)
Lemma replayTick_iter_finished fromCheckpoint b k :
  bd_events b ≠ [] →
  (length (bd_events b) < startIndexOf fromCheckpoint (bd_events b) + k)%nat →
  Nat.iter k replayTick (startReplay fromCheckpoint b) =
  mkBoard (bd_events b) ModeReplay (bd_events b) (bd_events b)
    (length (bd_events b)) true fromCheckpoint.
Proof.
  intros Hne. pose proof (startIndexOf_lt fromCheckpoint _ Hne) as Hlt.
  induction k as [|k IH]; intros Hk; [lia|].
  simpl.
  destruct (decide (length (bd_events b) < startIndexOf fromCheckpoint (bd_events b) + k)%nat).
  - rewrite IH by done. done.
  - rewrite replayTick_iter_running by (done || lia).
    unfold replayTick. simpl.
    destruct (Nat.ltb_spec (length (bd_events b))
                (S (startIndexOf fromCheckpoint (bd_events b) + k))); [|lia].
    replace (startIndexOf fromCheckpoint (bd_events b) + k)%nat
      with (length (bd_events b)) by lia.
    by rewrite firstn_all.
Qed.

(** C8. For a replay started over a non-empty snapshot of N fetched events:
    the start offset is 0 when the from-checkpoint flag is unset or the
    snapshot has no checkpoint-kind event, and otherwise the index of its
    last checkpoint-kind event; the events before the offset are visible
    from the start; the k-th firing of the interval reveals the prefix of
    length offset + k, in snapshot order, until all N are revealed; the
    firing after that sets the finished flag and later firings change
    nothing; restarting at any point gives back the state of the start; and
    neither the fetched events nor the snapshot are ever changed. *)
Theorem replay_reveals_snapshot (b : Board) (fromCheckpoint : bool) :
  bd_events b ≠ [] →
  let snapshot := bd_events b in
  let b0 := startReplay fromCheckpoint b in
  let start := bd_replayIndex b0 in
  let after k := Nat.iter k replayTick b0 in
  ((fromCheckpoint = false ∨ (∀ e, e ∈ snapshot → e_type e ≠ CHECKPOINT)) → start = 0%nat)
  ∧ (fromCheckpoint = true → (∃ e, e ∈ snapshot ∧ e_type e = CHECKPOINT) →
       ∃ c, snapshot !! start = Some c ∧ e_type c = CHECKPOINT
            ∧ ∀ j e, (start < j)%nat → snapshot !! j = Some e → e_type e ≠ CHECKPOINT)
  ∧ (start < length snapshot)%nat
  ∧ (∀ k, (start + k <= length snapshot)%nat →
       bd_visibleEvents (after k) = take (start + k) snapshot
       ∧ revealedCount (after k) = (start + k)%nat
       ∧ bd_replayIndex (after k) = (start + k)%nat
       ∧ bd_replayFinished (after k) = false)
  ∧ (∀ k, (length snapshot < start + k)%nat →
       bd_visibleEvents (after k) = snapshot
       ∧ revealedCount (after k) = length snapshot
       ∧ bd_replayFinished (after k) = true)
  ∧ (∀ k, restartReplay (after k) = b0
          ∧ revealedCount (restartReplay (after k)) = start)
  ∧ (∀ k, bd_events (after k) = snapshot ∧ bd_replayEvents (after k) = snapshot).
Proof.
  intros Hne snapshot b0 start after.
  assert (Hstart : start = startIndexOf fromCheckpoint snapshot).
  { unfold start, b0. by rewrite startReplay_nonempty. }
  pose proof (startIndexOf_lt fromCheckpoint _ Hne) as Hlt. fold snapshot in Hlt.
  assert (Hcases : ∀ k,
    after k = mkBoard snapshot ModeReplay snapshot (take (start + k) snapshot)
                (start + k) false fromCheckpoint
    ∨ after k = mkBoard snapshot ModeReplay snapshot snapshot (length snapshot) true
                  fromCheckpoint).
  { intros k. rewrite Hstart.
    destruct (decide (startIndexOf fromCheckpoint snapshot + k <= length snapshot)%nat).
    - left. by apply replayTick_iter_running.
    - right. apply replayTick_iter_finished; [done|]. fold snapshot. lia. }
  split; [|split; [|split; [|split; [|split; [|split]]]]].
  - rewrite Hstart. unfold startIndexOf. intros [->|Hno]; [done|].
    destruct fromCheckpoint; [|done].
    destruct (findIndex isCheckpoint snapshot) eqn:E; [|done].
    assert (is_Some (findIndex isCheckpoint snapshot)) as Hs by (by eexists).
    apply findIndex_Some in Hs as (x & Hx & Hc%bool_decide_eq_true).
    by destruct (Hno x Hx).
  - intros -> (e & He & Hc). rewrite Hstart. unfold startIndexOf.
    assert (Hex : ∃ e, e ∈ snapshot ∧ isCheckpoint e = true).
    { exists e. split; [done|]. by apply bool_decide_eq_true. }
    destruct (proj2 (findIndex_Some isCheckpoint snapshot) Hex) as [i ->].
    destruct (lastCheckpointIdx_spec snapshot Hex) as (c & Hl & Hcc & Hafter).
    exists c. split; [done|]. split; [by apply bool_decide_eq_true in Hcc|].
    intros j e' Hj Hl'. specialize (Hafter j e' Hj Hl').
    by apply bool_decide_eq_false in Hafter.
  - by rewrite Hstart.
  - intros k Hk. unfold after, b0. rewrite Hstart in Hk |- *.
    rewrite replayTick_iter_running by done. unfold revealedCount. simpl.
    rewrite length_take. fold snapshot. repeat split; try done. lia.
  - intros k Hk. unfold after, b0. rewrite Hstart in Hk.
    rewrite replayTick_iter_finished by done. done.
  - intros k.
    assert (Hre : restartReplay (after k) = b0).
    { unfold restartReplay.
      destruct (Hcases k) as [-> | ->]; unfold b0;
        rewrite !startReplay_nonempty by done; done. }
    split; [done|]. rewrite Hre. unfold revealedCount, b0.
    rewrite startReplay_nonempty by done. simpl. rewrite length_take.
    fold snapshot. rewrite <- Hstart. lia.
  - intros k. by destruct (Hcases k) as [-> | ->].
Qed.

(** C8 on a snapshot of three events whose second one is a checkpoint,
    replayed from the last checkpoint. *)
Lemma replay_reveals_snapshot_witness :
  let snapshot :=
    [ mkEvent 1 0 100 1 Planner PLAN "plan" [] (Some SrcScripted);
      mkEvent 2 0 200 2 Planner CHECKPOINT "checkpoint" [] None;
      mkEvent 3 0 300 3 Critic NOTE "note" [] None ] in
  let b := mkBoard snapshot ModeLive [] [] 0 false false in
  let b0 := startReplay true b in
  bd_replayIndex b0 = 1%nat
  ∧ bd_visibleEvents b0 = take 1 snapshot
  ∧ bd_visibleEvents (Nat.iter 2 replayTick b0) = snapshot
  ∧ bd_replayFinished (Nat.iter 2 replayTick b0) = false
  ∧ bd_replayFinished (Nat.iter 3 replayTick b0) = true
  ∧ revealedCount (restartReplay (Nat.iter 3 replayTick b0)) = 1%nat
  ∧ bd_events (Nat.iter 3 replayTick b0) = snapshot.
Proof.
  intros snapshot b b0.
  destruct (replay_reveals_snapshot b true) as (_ & _ & _ & Hrun & Hfin & Hre & Hro).
  - discriminate.
  - destruct (Hrun 0%nat) as (Hv0 & _); [simpl; lia|].
    destruct (Hrun 2%nat) as (Hv2 & _ & _ & Hf2); [simpl; lia|].
    destruct (Hfin 3%nat) as (_ & _ & Hf3); [simpl; lia|].
    destruct (Hro 3%nat) as [He3 _].
    split; [reflexivity|]. split; [exact Hv0|]. split; [exact Hv2|].
    split; [exact Hf2|]. split; [exact Hf3|]. split; [|exact He3].
    exact (proj2 (Hre 3%nat)).
Defined.

(* ================================================================== *)
(** * Further properties of the handlers and of the page *)
(* ================================================================== *)

(** ** Names and identifiers *)

(** X1. The validation of the emit handler accepts exactly the four agent
    names and the nine type names, and resolves each to its member: a
    string is accepted as an agent (a type) if and only if it is the name of
    the member it resolves to. *)
Theorem lookup_names_round_trip (name : string) (a : AgentType) (t : EventType) :
  (lookupAgent name = Some a ↔ agentName a = name)
  ∧ (lookupType name = Some t ↔ typeName t = name).
Proof.
  split; split.
  - unfold lookupAgent. intros [_ H]%find_some. by apply bool_decide_eq_true in H.
  - intros <-. by destruct a.
  - unfold lookupType. intros [_ H]%find_some. by apply bool_decide_eq_true in H.
  - intros <-. by destruct t.
Qed.

Lemma hexDigit_hexChar d : (d < 16)%N → hexDigit (hexChar d) = Some d.
Proof.
  intros Hd.
  assert (d = 0 ∨ d = 1 ∨ d = 2 ∨ d = 3 ∨ d = 4 ∨ d = 5 ∨ d = 6 ∨ d = 7 ∨ d = 8
          ∨ d = 9 ∨ d = 10 ∨ d = 11 ∨ d = 12 ∨ d = 13 ∨ d = 14 ∨ d = 15)%N as Hc by lia.
  repeat (destruct Hc as [-> | Hc]); try subst d; reflexivity.
Qed.

Lemma parseHex_app s1 s2 acc :
  parseHex (s1 ++ s2)%string acc =
  match parseHex s1 acc with
  | Some a => parseHex s2 a
  | None => None
  end.
Proof.
  revert acc. induction s1 as [|c s1 IH]; intros acc; simpl; [done|].
  destruct (hexDigit c); [apply IH|done].
Qed.

Lemma parseHex_toHex k n acc :
  parseHex (toHex k n) acc = Some (acc * 16 ^ N.of_nat k + n mod 16 ^ N.of_nat k)%N.
Proof.
  revert n acc. induction k as [|k IH]; intros n acc.
  - simpl. rewrite N.mod_1_r. f_equal. lia.
  - cbn [toHex]. rewrite parseHex_app, IH. cbn [parseHex].
    rewrite hexDigit_hexChar by (apply N.mod_lt; lia). f_equal.
    rewrite Nat2N.inj_succ, N.pow_succ_r'.
    rewrite (N.Div0.mod_mul_r n 16 (16 ^ N.of_nat k)). lia.
Qed.

Lemma string_length_app (s1 s2 : string) :
  String.length (s1 ++ s2)%string = (String.length s1 + String.length s2)%nat.
Proof. induction s1 as [|c s1 IH]; simpl; [done|]. by rewrite IH. Qed.

Lemma toHex_length k n : String.length (toHex k n) = k.
Proof.
  revert n. induction k as [|k IH]; intros n; [done|].
  cbn [toHex]. rewrite string_length_app, IH. simpl. lia.
Qed.

Lemma parseObjectId_toString (oid : N) :
  (oid < 16 ^ 24)%N → parseObjectId (ObjectId_toString oid) = Some oid.
Proof.
  intros Hlt. unfold parseObjectId, ObjectId_toString.
  rewrite toHex_length. simpl Nat.eqb. cbv iota.
  rewrite parseHex_toHex. f_equal. rewrite N.mod_small by exact Hlt. lia.
Qed.

(** X2. The string form of an ObjectId below [16^24] has 24 characters,
    passes [ObjectId.isValid], and reads back as the same id: the missionId
    string a start or fork response carries addresses the mission it names. *)
Theorem ObjectId_string_round_trip (oid : N) :
  (oid < 16 ^ 24)%N →
  String.length (ObjectId_toString oid) = 24%nat
  ∧ ObjectId_isValid (ObjectId_toString oid) = true
  ∧ parseObjectId (ObjectId_toString oid) = Some oid.
Proof.
  intros Hlt.
  pose proof (parseObjectId_toString oid Hlt) as Hp.
  split; [apply toHex_length|]. split; [|done].
  unfold ObjectId_isValid. rewrite Hp. by apply bool_decide_eq_true.
Qed.

Lemma ObjectId_string_round_trip_witness :
  String.length (ObjectId_toString 2748) = 24%nat
  ∧ ObjectId_isValid (ObjectId_toString 2748) = true
  ∧ parseObjectId (ObjectId_toString 2748) = Some 2748%N.
Proof. apply (ObjectId_string_round_trip 2748). reflexivity. Defined.

(** ** The schedule and the generator *)

(** X3. The schedule is defined exactly on the steps 1 to [getTotalSteps],
    and the final step is exactly [getTotalSteps]: [getAgentAndTypeForStep]
    answers for a step if and only if the step lies in that range, and
    [isFinalStep] holds of step [getTotalSteps] only. A tick that has passed
    its guard [nextStep > getTotalSteps] from a step of at least 0 therefore
    always finds a schedule entry. *)
Theorem schedule_domain (n : Z) :
  (is_Some (getAgentAndTypeForStep n) ↔ 1 <= n <= getTotalSteps)
  ∧ (is_Some (getScheduleForStep n) ↔ 1 <= n <= getTotalSteps)
  ∧ (isFinalStep n = true ↔ n = getTotalSteps)
  ∧ (∀ sc, getScheduleForStep n = Some sc → s_step sc = n).
Proof.
  rewrite getTotalSteps_eq.
  assert (Hsched : is_Some (getScheduleForStep n) ↔ 1 <= n <= 17).
  { split.
    - intros [sc Hsc]. unfold getScheduleForStep in Hsc.
      apply find_some in Hsc as [Hin Hk]. apply bool_decide_eq_true in Hk. subst n.
      unfold stepSchedule in Hin. simpl in Hin.
      repeat (destruct Hin as [<-|Hin]; [simpl; lia|]). done.
    - intros Hn. destruct (schedule_total n Hn) as (a & t & Ha & _).
      unfold getAgentAndTypeForStep in Ha.
      destruct (getScheduleForStep n); [by eexists|done]. }
  split; [|split; [done|split; [apply isFinalStep_true|]]].
  - rewrite <- Hsched. unfold getAgentAndTypeForStep.
    destruct (getScheduleForStep n) as [sc|];
      [split; intros _; by eexists | split; intros [? ?]; done].
  - intros sc Hsc. unfold getScheduleForStep in Hsc.
    apply find_some in Hsc as [_ Hk]. by apply bool_decide_eq_true in Hk.
Qed.

Lemma substring_length_le n (sm : string) :
  (String.length (substring 0 n sm) <= n)%nat
  ∧ (String.length (substring 0 n sm) <= String.length sm)%nat.
Proof.
  revert sm. induction n as [|n IH]; intros sm.
  - destruct sm; simpl; lia.
  - destruct sm as [|c sm]; simpl; [lia|]. destruct (IH sm). lia.
Qed.

Lemma substring_prefix n (sm : string) :
  ∃ rest, sm = (substring 0 n sm ++ rest)%string.
Proof.
  revert sm. induction n as [|n IH]; intros sm.
  - exists sm. by destruct sm.
  - destruct sm as [|c sm]; simpl; [by exists ""|].
    destruct (IH sm) as [rest Hr]. exists rest. rewrite Hr at 1. reflexivity.
Qed.

Lemma substring_all n (sm : string) :
  (String.length sm <= n)%nat → substring 0 n sm = sm.
Proof.
  revert sm. induction n as [|n IH]; intros [|c sm] Hs; simpl in *; try done; try lia.
  f_equal. apply IH. lia.
Qed.

(** X4. [generateEventWithOpenAI] returns an event exactly when the parsed
    reply holds a non-empty summary. The summary it returns is then
    non-empty, at most 160 characters long, and a prefix of the reply's; the
    payload defaults to the empty object and the artifact update is passed
    on as it is. *)
Theorem generateEventWithOpenAI_validates (reply : option LLMReply) :
  match generateEventWithOpenAI reply with
  | Some g =>
      ∃ parsed sm,
        reply = Some parsed ∧ r_summary parsed = Some sm ∧ sm ≠ ""
        ∧ g_summary g ≠ ""
        ∧ (String.length (g_summary g) <= 160)%nat
        ∧ (∃ rest, sm = (g_summary g ++ rest)%string)
        ∧ ((String.length sm <= 160)%nat → g_summary g = sm)
        ∧ g_payload g = default [] (r_payload parsed)
        ∧ g_artifactUpdate g = r_artifactUpdate parsed
  | None =>
      reply = None
      ∨ ∃ parsed, reply = Some parsed
                  ∧ (r_summary parsed = None ∨ r_summary parsed = Some "")
  end.
Proof.
  unfold generateEventWithOpenAI.
  destruct reply as [parsed|]; [|by left].
  destruct (r_summary parsed) as [sm|] eqn:Hs; [|right; eauto].
  case_bool_decide as He; [subst; right; eauto|].
  exists parsed, sm. cbn [g_summary g_payload g_artifactUpdate].
  split; [done|]. split; [done|]. split; [done|].
  split; [by apply substring_nonempty|].
  split; [apply substring_length_le|].
  split; [apply substring_prefix|]. split; [|done].
  intros Hlen. by apply substring_all.
Qed.

(** ** What one request changes *)

(** The three shapes of the effect of a request other than the reset, on a
    store the API can produce: nothing, one new mission with its own events,
    or one more event for an existing mission together with the update of
    its record. *)
Lemma handle_shape r s :
  wellFormed s → cacheInv s → r ≠ RReset →
  (missions (handle r s) = missions s ∧ events (handle r s) = events s)
  ∨ (∃ m evs,
       missions (handle r s) = <[oidCounter s := m]> (missions s)
       ∧ missions s !! oidCounter s = None
       ∧ events (handle r s) = events s ++ evs
       ∧ evs ≠ []
       ∧ ∀ e, e ∈ evs → e_missionId e = oidCounter s)
  ∨ (∃ mid m u ev,
       missions s !! mid = Some m
       ∧ missions (handle r s) = alter (applySet u) mid (missions s)
       ∧ events (handle r s) = events s ++ [ev]
       ∧ e_missionId ev = mid
       ∧ m_currentStep m <= m_currentStep (applySet u m)
       ∧ m_updatedAt (applySet u m) = e_ts ev).
Proof.
  intros Hwf Hc Hr.
  assert (Hfresh : missions s !! oidCounter s = None).
  { destruct (missions s !! oidCounter s) as [m0|] eqn:Hm0; [|done].
    apply (wf_mission _ Hwf) in Hm0 as [_ ?]. lia. }
  destruct r as [sb env t|b t|mi t rp|fb t|]; simpl; [| | | |done].
  - destruct (start_cases sb env t s) as
      [[_ ->] | (s1 & doc & He & Hid & _ & _ & _ & _ & _ & Hcase)]; [by left|].
    simpl in Hcase. destruct Hcase as [[[x Hx] _] | ->].
    { apply findOneEvent_Some in Hx as (Hin & Hmx & _).
      destruct (wf_owner _ Hwf _ Hin) as [m0 Hm0]. rewrite Hmx in Hm0. congruence. }
    right. left. eexists _, _. simpl. split; [done|]. split; [done|]. split; [done|].
    split; [done|]. by intros e ->%list_elem_of_singleton.
  - destruct (emit_cases b t s) as
      [(r & -> & _) | [(s1 & mid & He & -> & _)
       | (s1 & mid & m & agent & type & _ & _ & _ & _ & He & Hm & Hcase)]];
      [by left | |].
    { simpl. destruct (ensureIndexes_Some _ _ He) as (Hms & Hes & _). by left. }
    destruct (ensureIndexes_Some _ _ He) as (Hms & Hes & _).
    destruct Hcase as [[_ ->] | (_ & Heq & _)]; [by left|].
    simpl in Heq. rewrite Heq. simpl. rewrite Hms.
    right. right. eexists mid, m, _, _. split; [done|]. split; [done|].
    split; [done|]. split; [done|]. simpl. split; [|done].
    case_decide; simpl; lia.
  - destruct (tick_cases mi t rp s) as
      [(r & -> & _) | (mid & m & agent & type & summary & payload & au & used &
                       _ & Hm & _ & _ & _ & _ & _ & Heq & _)]; [by left|].
    simpl in Heq. rewrite Heq. simpl.
    right. right. eexists mid, m, _, _. split; [done|]. split; [done|].
    split; [done|]. split; [done|]. simpl. split; [lia|done].
  - destruct (fork_cases fb t s) as
      [(r & -> & _) | (forkStep & pid & pm & lastEvent & ins & Hcase)]; [by left|].
    simpl in Hcase. destruct Hcase as (Hf & Hp & Hge & Hm & Hl & _).
    rewrite (fork_success fb t s forkStep pid pm lastEvent) by done. simpl.
    right. left. eexists _, _. split; [done|]. split; [done|]. split; [done|]. split.
    + apply last_Some in Hl as [l' ->]. rewrite imap_app. by destruct (imap _ l').
    + by intros d (i & src & Hi & ->)%copies_elem.
Qed.

(** X5. The event log is append-only. In every store the API can produce, a
    request other than the reset leaves every stored event in place and
    unchanged: the old collection is a prefix of the new one. The reset
    empties both collections. *)
Theorem event_log_is_append_only r s :
  reachable s →
  match r with
  | RReset => events (handle r s) = [] ∧ missions (handle r s) = ∅
  | _ => events s `prefix_of` events (handle r s)
  end.
Proof.
  intros [Hwf Hc]%reachable_inv.
  assert (r ≠ RReset → events s `prefix_of` events (handle r s)) as Hp.
  { intros Hr. destruct (handle_shape r s Hwf Hc Hr) as
      [[_ ->] | [(m & evs & _ & _ & -> & _) | (mid & m & u & ev & _ & _ & -> & _)]];
      [done|by apply prefix_app_r..]. }
  destruct r; try (by apply Hp). done.
Qed.

Lemma event_log_is_append_only_witness :
  let s := foldl (λ st r, handle r st) emptyStore
             [ RStart (mkStartBody None None) None 100;
               REmit (mkEmitBody "000000000000000000000000" 2 "Planner" "ASSIGN" "a" None) 200 ] in
  events s `prefix_of`
    events (handle (RFork (mkForkBody "000000000000000000000000" (Some 2)) 300) s).
Proof.
  intros s.
  apply (event_log_is_append_only
           (RFork (mkForkBody "000000000000000000000000" (Some 2)) 300) s).
  apply reachable_foldl. constructor.
Defined.

(** X6. Requests are isolated. In every store the API can produce, a request
    other than the reset changes the record and the log of no mission but
    its target: the mission named by the body for an emit or a tick, the new
    mission for a start or a fork. A tick or an emit on a fork thus never
    touches the parent, and a start or a fork, whose target is a new id,
    never touches a stored mission, the parent of the fork included. *)
Theorem request_touches_one_mission r s id :
  reachable s → r ≠ RReset →
  (targetOf r s ≠ Some id →
   missions (handle r s) !! id = missions s !! id
   ∧ history id (handle r s) = history id s)
  ∧ match r with
    | RStart _ _ _ | RFork _ _ =>
        is_Some (missions s !! id) →
        missions (handle r s) !! id = missions s !! id
        ∧ history id (handle r s) = history id s
    | _ => True
    end.
Proof.
  intros [Hwf Hc]%reachable_inv Hr.
  assert (Hnew : ∀ m evs s',
            targetOf r s = Some (oidCounter s) →
            missions s' = <[oidCounter s := m]> (missions s) →
            events s' = events s ++ evs →
            (∀ e, e ∈ evs → e_missionId e = oidCounter s) →
            oidCounter s ≠ id →
            missions s' !! id = missions s !! id ∧ history id s' = history id s).
  { intros m evs s' _ Hms Hes Hown Hid. rewrite Hms, lookup_insert_ne by done.
    split; [done|]. rewrite (history_of_events id s s' evs) by done.
    rewrite filter_owner_none, app_nil_r; [done|].
    intros e He. rewrite (Hown e He). done. }
  assert (Hupd : ∀ mid u ev s',
            missions s' = alter (applySet u) mid (missions s) →
            events s' = events s ++ [ev] →
            e_missionId ev = mid → mid ≠ id →
            missions s' !! id = missions s !! id ∧ history id s' = history id s).
  { intros mid u ev s' Hms Hes Hown Hid. rewrite Hms, lookup_alter_ne by done.
    split; [done|]. rewrite (history_of_events id s s' [ev]) by done.
    rewrite filter_owner_none, app_nil_r; [done|].
    intros e ->%list_elem_of_singleton. congruence. }
  assert (Hstored : is_Some (missions s !! id) → Some (oidCounter s) ≠ Some id).
  { intros [m Hm] [= Heq]. apply (wf_mission _ Hwf) in Hm as [_ ?]. lia. }
  assert (Hmain : targetOf r s ≠ Some id →
                  missions (handle r s) !! id = missions s !! id
                  ∧ history id (handle r s) = history id s).
  { intros Ht. destruct r as [sb env t|b t|mi t rp|fb t|]; simpl in *; [| | | |done].
    - destruct (start_cases sb env t s) as
        [[_ ->] | (s1 & doc & He & Hid & _ & _ & _ & _ & _ & Hcase)]; [done|].
      simpl in Hcase. destruct Hcase as [[[x Hx] _] | ->].
      { apply findOneEvent_Some in Hx as (Hin & Hmx & _).
        destruct (wf_owner _ Hwf _ Hin) as [m0 Hm0]. rewrite Hmx in Hm0.
        apply (wf_mission _ Hwf) in Hm0 as [_ ?]. lia. }
      eapply Hnew; simpl; [done|done|done| |congruence].
      by intros e ->%list_elem_of_singleton.
    - destruct (emit_cases b t s) as
        [(r & -> & _) | [(s1 & mid & He & -> & _)
         | (s1 & mid & m & agent & type & _ & Hp & _ & _ & He & Hm & Hcase)]];
        [done| |].
      { simpl. destruct (ensureIndexes_Some _ _ He) as (Hms & Hes & _).
        unfold history. by rewrite Hms, Hes. }
      destruct (ensureIndexes_Some _ _ He) as (Hms & Hes & _).
      destruct Hcase as [[_ ->] | (_ & Heq & _)].
      { simpl. unfold history. simpl. by rewrite Hms, Hes. }
      simpl in Heq. rewrite Heq. eapply (Hupd mid); simpl; [by rewrite Hms|done|done|].
      congruence.
    - destruct (tick_cases mi t rp s) as
        [(r & -> & _) | (mid & m & agent & type & summary & payload & au & used &
                         Hp & Hm & _ & _ & _ & _ & _ & Heq & _)]; [done|].
      simpl in Heq. rewrite Heq. eapply (Hupd mid); simpl; [done|done|done|].
      congruence.
    - destruct (fork_cases fb t s) as
        [(r & -> & _) | (forkStep & pid & pm & lastEvent & ins & Hcase)]; [done|].
      simpl in Hcase. destruct Hcase as (Hf & Hp & Hge & Hm & Hl & _).
      rewrite (fork_success fb t s forkStep pid pm lastEvent) by done.
      eapply Hnew; simpl; [done|done|done| |congruence].
      by intros d (i & src & Hi & ->)%copies_elem. }
  split; [exact Hmain|].
  destruct r as [sb env t|b t|mi t rp|fb t|]; try done.
  - intros Hs. apply Hmain. simpl. by apply Hstored.
  - intros Hs. apply Hmain. simpl. by apply Hstored.
Qed.

(** X6 on a parent and its fork: a tick on the fork appends an event and
    leaves the record and the log of the parent as they are, and the fork
    itself left them as they were. *)
Lemma request_touches_one_mission_witness :
  let s0 := foldl (λ st r, handle r st) emptyStore
              [ RStart (mkStartBody None (Some "real")) None 100;
                RTick "000000000000000000000000" 200 None ] in
  let f := RFork (mkForkBody "000000000000000000000000" (Some 2)) 300 in
  let s := handle f s0 in
  let r := RTick (ObjectId_toString 3) 400 None in
  targetOf r s = Some 3%N
  ∧ is_Some (missions s !! 3%N)
  ∧ events (handle r s) ≠ events s
  ∧ (missions (handle r s) !! 0%N = missions s !! 0%N
     ∧ history 0%N (handle r s) = history 0%N s)
  ∧ (missions s !! 0%N = missions s0 !! 0%N
     ∧ history 0%N s = history 0%N s0).
Proof.
  intros s0 f s r.
  assert (Hr0 : reachable s0) by (apply reachable_foldl; constructor).
  assert (Hr : reachable s) by (by constructor).
  split; [vm_compute; reflexivity|]. split; [vm_compute; eauto|].
  split; [vm_compute; discriminate|]. split.
  - apply (proj1 (request_touches_one_mission r s 0%N Hr ltac:(discriminate))).
    vm_compute. discriminate.
  - apply (proj2 (request_touches_one_mission f s0 0%N Hr0 ltac:(discriminate))).
    vm_compute. eauto.
Defined.

(** X7. Mission records only move forward. In every store the API can
    produce, a request other than the reset keeps every existing mission,
    with the same id, title, creation time, lineage and run mode, and with a
    currentStep that is not smaller than before. *)
Theorem mission_record_moves_forward r s id m :
  reachable s → r ≠ RReset →
  missions s !! id = Some m →
  ∃ m',
    missions (handle r s) !! id = Some m'
    ∧ m_currentStep m <= m_currentStep m'
    ∧ m_id m' = m_id m
    ∧ m_title m' = m_title m
    ∧ m_createdAt m' = m_createdAt m
    ∧ m_branchFromMissionId m' = m_branchFromMissionId m
    ∧ m_branchFromStep m' = m_branchFromStep m
    ∧ m_runMode m' = m_runMode m.
Proof.
  intros [Hwf Hc]%reachable_inv Hr Hm.
  destruct (handle_shape r s Hwf Hc Hr) as
    [[Hms Hes] | [(m0 & evs & Hms & Hfresh & _)
     | (mid & m0 & u & ev & Hm0 & Hms & _ & _ & Hle & _)]].
  - exists m. rewrite Hms. by repeat split.
  - exists m. rewrite Hms, lookup_insert_ne by congruence. by repeat split.
  - rewrite Hms, lookup_alter. case_decide as Hd.
    + subst mid. rewrite Hm. assert (m0 = m) as -> by congruence.
      eexists. split; [done|]. by repeat split.
    + exists m. by repeat split.
Qed.

Lemma mission_record_moves_forward_witness :
  let s := foldl (λ st r, handle r st) emptyStore
             [ RStart (mkStartBody None None) None 100;
               REmit (mkEmitBody "000000000000000000000000" 5 "Planner" "CHECKPOINT" "A" None) 200 ] in
  let r := REmit (mkEmitBody "000000000000000000000000" 3 "Critic" "NOTE" "late" None) 300 in
  ∃ m m',
    missions s !! 0%N = Some m
    ∧ missions (handle r s) !! 0%N = Some m'
    ∧ m_currentStep m = 5
    ∧ m_currentStep m <= m_currentStep m'
    ∧ m_createdAt m' = m_createdAt m.
Proof.
  intros s r.
  assert (Hm : missions s !! 0%N
               = Some (mkMission 0 "AI Trends Research Mission" StatusRunning 5 100 200
                         (Some 200) (Some "A") None None (Some RunScripted) None None))
    by (vm_compute; reflexivity).
  assert (Hreach : reachable s) by (apply reachable_foldl; constructor).
  assert (Hr : r ≠ RReset) by discriminate.
  destruct (mission_record_moves_forward r s 0%N _ Hreach Hr Hm)
    as (m' & H1 & H2 & _ & _ & H3 & _).
  eexists _, m'. split; [exact Hm|]. split; [exact H1|]. split; [reflexivity|].
  split; [exact H2|exact H3].
Defined.

(** ** Stores the API can produce *)

(** X8. In every store the API can produce: no two events share a
    (missionId, step) pair; every event belongs to a stored mission; every
    mission has an event at step 1, and its currentStep is at least 1 and
    is the step of one of its events; every event summary is non-empty; and
    an event for a (missionId, step) pair can be looked up by it. *)
Theorem reachable_store_invariants s :
  reachable s →
  NoDup (eventKey <$> events s)
  ∧ (∀ e, e ∈ events s →
       is_Some (missions s !! e_missionId e)
       ∧ e_summary e ≠ ""
       ∧ findOneEvent (e_missionId e) (e_step e) (events s) = Some e)
  ∧ (∀ id m, missions s !! id = Some m →
       m_id m = id
       ∧ 1 <= m_currentStep m
       ∧ (∃ e, e ∈ history id s ∧ e_step e = 1)
       ∧ (∃ e, e ∈ history id s ∧ e_step e = m_currentStep m)).
Proof.
  intros [Hwf Hc]%reachable_inv. split; [apply Hwf|]. split.
  - intros e He. split; [by apply (wf_owner _ Hwf)|]. split; [by apply (wf_summary _ Hwf)|].
    destruct (findOneEvent (e_missionId e) (e_step e) (events s)) as [x|] eqn:Hf.
    + apply findOneEvent_Some in Hf as (Hx & Hm & Hs). f_equal.
      pose proof (wf_unique _ Hwf) as Hnd.
      apply list_elem_of_lookup_1 in He as [i Hi].
      apply list_elem_of_lookup_1 in Hx as [j Hj].
      assert (i = j) as ->; [|congruence].
      eapply (NoDup_lookup _ i j (eventKey e) Hnd).
      * by rewrite list_lookup_fmap, Hi.
      * rewrite list_lookup_fmap, Hj. simpl. unfold eventKey. by rewrite Hm, Hs.
    + rewrite findOneEvent_None in Hf. by destruct (Hf e He).
  - intros id m Hm. destruct (wf_seed _ Hwf id) as (seed & Hs1 & Hs2 & Hs3); [by eexists|].
    assert (Hseed : seed ∈ history id s) by (by apply history_elem).
    destruct (Hc id m Hm) as (Hcs & _).
    destruct (foldEmit_currentStep (history id s)) as (_ & Hle & Hatt).
    rewrite <- Hcs in Hle, Hatt. specialize (Hle seed Hseed).
    split; [by apply (wf_mission _ Hwf)|]. split; [lia|]. split; [eauto|].
    destruct Hatt as [?|?]; [lia|done].
Qed.

Lemma reachable_store_invariants_witness :
  let s := foldl (λ st r, handle r st) emptyStore
             [ RStart (mkStartBody None None) None 100;
               REmit (mkEmitBody "000000000000000000000000" (-1) "Critic" "NOTE" "n" None) 200;
               REmit (mkEmitBody "000000000000000000000000" (-1) "Critic" "NOTE" "m" None) 300 ] in
  length (events s) = 2%nat ∧ NoDup (eventKey <$> events s).
Proof.
  intros s. split; [reflexivity|].
  refine (proj1 (reachable_store_invariants s _)).
  apply reachable_foldl. constructor.
Defined.

Lemma start_ok_form body envModel now s s1 :
  ensureIndexes s = Some s1 →
  findOneEvent (oidCounter s) 1 (events s) = None →
  start body envModel now s =
    (mkStore
       (<[oidCounter s :=
            mkMission (oidCounter s)
              (match sb_title body with
               | Some t => if bool_decide (t = "") then "AI Trends Research Mission" else t
               | None => "AI Trends Research Mission"
               end)
              StatusRunning 1 now now None None None None
              (Some (if bool_decide (sb_runMode body = Some "real")
                     then RunReal else RunScripted))
              (if bool_decide
                    ((if bool_decide (sb_runMode body = Some "real")
                      then RunReal else RunScripted) = RunReal)
               then Some "openai" else None)
              (if bool_decide
                    ((if bool_decide (sb_runMode body = Some "real")
                      then RunReal else RunScripted) = RunReal)
               then Some (match envModel with
                          | Some m => if bool_decide (m = "") then "o3-mini" else m
                          | None => "o3-mini"
                          end)
               else None)]> (missions s))
       (events s ++
        [mkEvent (N.succ (oidCounter s)) (oidCounter s) now 1 Planner PLAN
           "Mission initialized: Research and summarize latest AI trends"
           [("objective", PStr "AI Trends Research"); ("estimatedSteps", PNum 17)]
           (Some SrcScripted)])
       true (N.succ (N.succ (oidCounter s))),
     StartOk (oidCounter s)).
Proof.
  intros He Hfree. destruct (ensureIndexes_Some _ _ He) as (Hms & Hes & Hc & Hu).
  unfold start. rewrite He. simpl.
  rewrite insertOneEvent_free by (simpl; by rewrite Hc, Hes).
  simpl. unfold setEvents, insertOneMission, setMissions. simpl.
  by rewrite Hms, Hes, Hc, Hu.
Qed.

(** X9. In every store the API can produce, a start never fails. It answers
    with an id that no stored mission has, leaves the stored events in
    place, and adds a mission that is fresh: running, at step 1, with the
    seeded step-1 plan event as its whole log. The run mode is real exactly
    when the body asks for "real". As long as ids stay below [16^24], the
    string form of the returned id fetches the new mission and its seed. *)
Theorem start_creates_fresh_mission body envModel now s :
  reachable s →
  ∃ id m seed,
    start body envModel now s = ((start body envModel now s).1, StartOk id)
    ∧ missions s !! id = None
    ∧ missions (start body envModel now s).1 = <[id := m]> (missions s)
    ∧ events (start body envModel now s).1 = events s ++ [seed]
    ∧ freshMission id (start body envModel now s).1
    ∧ e_missionId seed = id ∧ e_step seed = 1 ∧ e_agent seed = Planner
    ∧ e_type seed = PLAN ∧ e_ts seed = now ∧ e_source seed = Some SrcScripted
    ∧ m_createdAt m = now
    ∧ m_runMode m = Some (if bool_decide (sb_runMode body = Some "real")
                          then RunReal else RunScripted)
    ∧ ((id < 16 ^ 24)%N →
       getMission (ObjectId_toString id) (start body envModel now s).1 = Some (m, [seed])).
Proof.
  intros [Hwf Hc]%reachable_inv.
  assert (Hfresh : missions s !! oidCounter s = None).
  { destruct (missions s !! oidCounter s) as [m0|] eqn:Hm0; [|done].
    apply (wf_mission _ Hwf) in Hm0 as [_ ?]. lia. }
  destruct (ensureIndexes_wf s Hwf) as [s1 He].
  assert (Hfree : findOneEvent (oidCounter s) 1 (events s) = None).
  { apply findOneEvent_None. intros e He' Hm _.
    destruct (wf_owner _ Hwf _ He') as [m0 Hm0]. rewrite Hm in Hm0. congruence. }
  rewrite (start_ok_form body envModel now s s1 He Hfree). simpl.
  assert (Hh : filter (λ e, e_missionId e = oidCounter s)
                 (events s ++
                  [mkEvent (N.succ (oidCounter s)) (oidCounter s) now 1 Planner PLAN
                     "Mission initialized: Research and summarize latest AI trends"
                     [("objective", PStr "AI Trends Research"); ("estimatedSteps", PNum 17)]
                     (Some SrcScripted)])
               = [mkEvent (N.succ (oidCounter s)) (oidCounter s) now 1 Planner PLAN
                    "Mission initialized: Research and summarize latest AI trends"
                    [("objective", PStr "AI Trends Research"); ("estimatedSteps", PNum 17)]
                    (Some SrcScripted)]).
  { apply history_new_mission; [done|]. by intros e ->%list_elem_of_singleton. }
  eexists (oidCounter s), _, _.
  split; [done|]. split; [done|]. split; [done|]. split; [done|]. split.
  { eexists _, _. simpl. rewrite lookup_insert_eq.
    split; [done|]. split; [done|]. split; [done|]. split; [exact Hh|done]. }
  do 8 (split; [done|]).
  intros Hlt. unfold getMission. rewrite parseObjectId_toString by done.
  simpl. rewrite lookup_insert_eq. rewrite Hh. done.
Qed.

(** X9 on an empty database. *)
Lemma start_creates_fresh_mission_witness :
  ∃ id m seed,
    start (mkStartBody None (Some "real")) None 100 emptyStore
      = ((start (mkStartBody None (Some "real")) None 100 emptyStore).1, StartOk id)
    ∧ missions (start (mkStartBody None (Some "real")) None 100 emptyStore).1
      = <[id := m]> ∅
    ∧ freshMission id (start (mkStartBody None (Some "real")) None 100 emptyStore).1
    ∧ m_runMode m = Some RunReal
    ∧ getMission (ObjectId_toString id)
        (start (mkStartBody None (Some "real")) None 100 emptyStore).1 = Some (m, [seed]).
Proof.
  destruct (start_creates_fresh_mission (mkStartBody None (Some "real")) None 100 emptyStore)
    as (id & m & seed & H1 & H2 & H3 & _ & H5 & _ & _ & _ & _ & _ & _ & _ & H6 & H7).
  - constructor.
  - exists id, m, seed. split; [exact H1|]. split; [exact H3|]. split; [exact H5|].
    split; [exact H6|]. apply H7.
    assert (id = 0%N) as ->; [|reflexivity].
    clear -H1. vm_compute in H1. by injection H1.
Defined.

(** ** Ticks that do not advance *)

Lemma runTicks_fixed missionId s r :
  (∀ now reply, tick missionId now reply s = (s, r)) →
  ∀ inputs, runTicks missionId inputs s = (s, replicate (length inputs) r).
Proof.
  intros Hfix inputs. induction inputs as [|[now reply] inputs IH]; simpl; [done|].
  by rewrite Hfix, IH.
Qed.

(** X10. A tick that stopped between its insert and its update is never
    completed by later ticks. In the store such a tick leaves behind, every
    later tick on the mission finds the inserted event, answers exactly
    what the interrupted tick would have answered, and changes nothing: the
    record stays at the old step however often tick is called. *)
Theorem interrupted_tick_is_never_completed missionId now reply s s2 mid u r :
  tickInsert missionId now reply s = (s2, inr (mid, u, r)) →
  missions s2 = missions s
  ∧ (∃ e, events s2 = events s ++ [e] ∧ r = TickEvent (e_step e) (default SrcFallback (e_source e)) (Some e))
  ∧ ∀ inputs, runTicks missionId inputs s2 = (s2, replicate (length inputs) r).
Proof.
  intros Hins.
  destruct (tick_cases missionId now reply s) as
    [(r0 & _ & _ & Heq') | (mid' & m & agent & type & summary & payload & au & used &
                       Hp & Hm & Hst & Hle & Hsch & Hfree & Hcont & _ & Heq')].
  { congruence. }
  simpl in Heq'. rewrite Hins in Heq'. injection Heq' as -> -> -> ->.
  split; [done|]. split; [eexists; split; [done|done]|].
  apply runTicks_fixed. intros now' reply'.
  unfold tick, tickInsert.
  rewrite bool_decide_eq_false_2 by (by eapply parseObjectId_nonempty).
  rewrite Hp. simpl. rewrite Hm, Hst. simpl.
  rewrite decide_False by lia. rewrite Hsch.
  rewrite findOneEvent_app, Hfree. unfold findOneEvent at 1, sameKey. simpl.
  rewrite !bool_decide_eq_true_2 by done. simpl.
  do 2 f_equal.
  destruct (tickContent_source _ _ _ _ _ _ _ _ Hcont) as [[-> _]|(-> & _)]; done.
Qed.

Lemma interrupted_tick_is_never_completed_witness :
  let s := (start (mkStartBody None (Some "real")) None 100 emptyStore).1 in
  let s2 := (tickInsert "000000000000000000000000" 200 None s).1 in
  (m_currentStep <$> missions s2 !! 0%N) = Some 1
  ∧ (e_step <$> events s2) = [1; 2]
  ∧ ∃ r, ∀ inputs,
      runTicks "000000000000000000000000" inputs s2 = (s2, replicate (length inputs) r).
Proof.
  intros s s2. split; [reflexivity|]. split; [reflexivity|].
  destruct (tickInsert "000000000000000000000000" 200 None s) as [s2' [r0|[[mid u] r]]] eqn:E.
  - vm_compute in E. discriminate.
  - exists r. subst s2. simpl.
    exact (proj2 (proj2 (interrupted_tick_is_never_completed _ _ _ _ _ _ _ _ E))).
Defined.

(** X11. A running mission whose currentStep has reached the end of the
    schedule is never finished by tick: every tick answers status done and
    writes nothing, so the record stays running. A mission forked from the
    last step of a completed parent is in this state. *)
Theorem tick_past_schedule_reports_done missionId mid m s :
  parseObjectId missionId = Some mid →
  missions s !! mid = Some m →
  m_status m = StatusRunning →
  getTotalSteps <= m_currentStep m →
  ∀ inputs,
    runTicks missionId inputs s = (s, replicate (length inputs) (TickStatus StatusDone)).
Proof.
  intros Hp Hm Hst Hge. apply runTicks_fixed. intros now reply.
  unfold tick, tickInsert.
  rewrite bool_decide_eq_false_2 by (by eapply parseObjectId_nonempty).
  rewrite Hp, Hm, Hst. simpl. by rewrite decide_True by lia.
Qed.

(** X11 on the fork of a completed mission at step 17. *)
Lemma tick_past_schedule_reports_done_witness :
  let s := foldl (λ st r, handle r st) emptyStore
             (RStart (mkStartBody None (Some "real")) None 100
              :: replicate 16 (RTick "000000000000000000000000" 200 None)
              ++ [RFork (mkForkBody "000000000000000000000000" (Some 17)) 300]) in
  (m_status <$> missions s !! 0%N) = Some StatusDone
  ∧ (m_status <$> missions s !! 18%N) = Some StatusRunning
  ∧ (m_currentStep <$> missions s !! 18%N) = Some 17
  ∧ ∀ inputs,
      runTicks (ObjectId_toString 18) inputs s
      = (s, replicate (length inputs) (TickStatus StatusDone)).
Proof.
  intros s. split; [vm_compute; reflexivity|].
  split; [vm_compute; reflexivity|]. split; [vm_compute; reflexivity|].
  assert (Hm : missions s !! 18%N =
               Some (mkMission 18 "AI Trends Research Mission (fork)" StatusRunning 17 300 300
                       (Some 200)
                       (Some "Checkpoint: Analysis complete. 8 quality summaries, 156 citations mapped.")
                       (Some 0%N) (Some 17) None None None)) by (vm_compute; reflexivity).
  refine (tick_past_schedule_reports_done (ObjectId_toString 18) 18%N _ s _ Hm _ _).
  - reflexivity.
  - reflexivity.
  - vm_compute. discriminate.
Defined.

(** ** The content of a ticked event *)

Lemma demoScript_covers n agent type :
  getAgentAndTypeForStep n = Some (agent, type) →
  ∃ d, List.find (fun e => bool_decide (d_step e = n)) demoScript = Some d
       ∧ d_step d = n ∧ d_type d = type ∧ In d demoScript.
Proof.
  intros Hs.
  assert (1 <= n <= 17) as Hn.
  { apply getAgentAndTypeForStep_Some in Hs. apply list_elem_of_In in Hs.
    unfold stepSchedule in Hs. simpl in Hs.
    repeat (destruct Hs as [Hs|Hs]; [injection Hs as <- _ _; lia|]). done. }
  assert (n = 1 ∨ n = 2 ∨ n = 3 ∨ n = 4 ∨ n = 5 ∨ n = 6 ∨ n = 7 ∨ n = 8 ∨ n = 9
          ∨ n = 10 ∨ n = 11 ∨ n = 12 ∨ n = 13 ∨ n = 14 ∨ n = 15 ∨ n = 16 ∨ n = 17)
    as Hc by lia.
  repeat (destruct Hc as [-> | Hc]); try subst n;
    vm_compute in Hs; injection Hs as <- <-;
    (eexists; split; [reflexivity|]; split; [reflexivity|]; split; [reflexivity|];
     simpl; tauto).
Qed.

(** X12. The event a tick appends is stamped with the request time and
    takes its text from exactly one provider. When the generator returns an
    event, the summary and payload are the generator's and the source is
    openai. Otherwise they are those of the scripted table's entry for the
    step, which exists for every scheduled step and has the scheduled kind
    (the generic fallback text is never used), and the source is fallback. *)
Theorem tick_event_content missionId now reply s :
  events (tick missionId now reply s).1 = events s
  ∨ ∃ e,
      events (tick missionId now reply s).1 = events s ++ [e]
      ∧ e_ts e = now
      ∧ parseObjectId missionId = Some (e_missionId e)
      ∧ match generateEventWithOpenAI reply with
        | Some g =>
            e_summary e = g_summary g ∧ e_payload e = g_payload g
            ∧ e_source e = Some SrcOpenai
        | None =>
            ∃ d, d ∈ demoScript ∧ d_step d = e_step e ∧ d_type d = e_type e
                 ∧ e_summary e = d_summary d ∧ e_payload e = d_payload d
                 ∧ e_source e = Some SrcFallback
        end.
Proof.
  destruct (tick_cases missionId now reply s) as
    [(r & -> & _ & _) | (mid & m & agent & type & summary & payload & au & used &
                     Hp & Hm & Hst & Hle & Hsch & Hfree & Hc & Heq & _)].
  - by left.
  - right. simpl in Heq. rewrite Heq. simpl. eexists. split; [done|]. simpl.
    split; [done|]. split; [done|].
    unfold tickContent in Hc.
    destruct (generateEventWithOpenAI reply) as [g|]; [by injection Hc as <- <- _ <-|].
    destruct (demoScript_covers _ _ _ Hsch) as (d & Hf & Hd1 & Hd2 & Hin).
    rewrite Hf in Hc. injection Hc as <- <- _ <-.
    exists d. split; [by apply list_elem_of_In|]. done.
Qed.

(** ** The context handed to the generator *)

Lemma insertByStepDesc_perm e l : insertByStepDesc e l ≡ₚ e :: l.
Proof.
  induction l as [|x l IH]; simpl; [done|].
  case_decide; [done|]. rewrite IH. apply Permutation_swap.
Qed.

Lemma sortByStepDesc_perm l : sortByStepDesc l ≡ₚ l.
Proof.
  induction l as [|x l IH]; simpl; [done|].
  by rewrite insertByStepDesc_perm, IH.
Qed.

Lemma insertByStepDesc_sorted e l :
  StronglySorted (flip byStep) l → StronglySorted (flip byStep) (insertByStepDesc e l).
Proof.
  induction 1 as [|x l Hs IH Hall]; simpl.
  - repeat constructor.
  - case_decide as Hle.
    + constructor; [by constructor|]. constructor; [done|].
      eapply Forall_impl; [exact Hall|]. unfold flip, byStep. intros; simpl in *; lia.
    + constructor; [done|]. rewrite insertByStepDesc_perm. constructor; [|done].
      unfold flip, byStep. lia.
Qed.

Lemma sortByStepDesc_sorted l : StronglySorted (flip byStep) (sortByStepDesc l).
Proof.
  induction l as [|x l IH]; simpl; [constructor|]. by apply insertByStepDesc_sorted.
Qed.

Lemma StronglySorted_rev (l : list MissionEvent) :
  StronglySorted (flip byStep) l → StronglySorted byStep (rev l).
Proof.
  induction 1 as [|x l Hs IH Hall]; simpl; [constructor|].
  apply StronglySorted_app_2; [|done|repeat constructor].
  intros x1 x2 Hx1 ->%list_elem_of_singleton.
  apply list_elem_of_In, in_rev, list_elem_of_In in Hx1.
  rewrite Forall_forall in Hall. by apply Hall.
Qed.

Lemma sliceLast_suffix {A} k (l : list A) : sliceLast k l `suffix_of` l.
Proof. destruct k; simpl; [done|apply suffix_drop]. Qed.

Lemma sliceLast_length {A} k (l : list A) :
  (0 < k)%nat → length (sliceLast k l) = (k `min` length l)%nat.
Proof.
  intros Hk. destruct k as [|k]; [lia|]. unfold sliceLast.
  rewrite length_drop. lia.
Qed.

Lemma sliceLast_nonempty {A} k (l : list A) : l ≠ [] → sliceLast k l ≠ [].
Proof.
  intros Hne Hnil. apply (f_equal length) in Hnil. destruct k; simpl in Hnil.
  - by destruct l.
  - rewrite length_drop in Hnil. destruct l; [done|]. simpl in Hnil. lia.
Qed.

Lemma contextEvents_length mid s :
  length (contextEvents mid s) = (40 `min` length (history mid s))%nat.
Proof.
  unfold contextEvents, CONTEXT_EVENTS_LIMIT. fold (history mid s).
  rewrite length_rev, length_take, sortByStepDesc_perm. lia.
Qed.

Lemma contextEvents_elem mid s e : e ∈ contextEvents mid s → e ∈ history mid s.
Proof.
  unfold contextEvents. fold (history mid s). intros He.
  apply list_elem_of_In, in_rev, list_elem_of_In in He.
  rewrite <- (sortByStepDesc_perm (history mid s)). by eapply subseteq_take.
Qed.

Lemma rerankEvents_elem ranking candidates topK e :
  e ∈ rerankEvents ranking candidates topK → e ∈ candidates.
Proof.
  assert (Hslice : e ∈ sliceLast topK candidates → e ∈ candidates).
  { intros He. eapply elem_of_suffix; [exact He|apply sliceLast_suffix]. }
  unfold rerankEvents. destruct ranking as [indices|]; [|done].
  destruct (omap _ indices) as [|x r] eqn:E; [done|].
  rewrite <- E. intros (i & _ & Hi)%list_elem_of_omap.
  case_decide; [|done]. by eapply list_elem_of_lookup_2.
Qed.

Lemma rerankEvents_nonempty ranking candidates topK :
  candidates ≠ [] → rerankEvents ranking candidates topK ≠ [].
Proof.
  intros Hne. unfold rerankEvents.
  destruct ranking as [indices|]; [|by apply sliceLast_nonempty].
  destruct (omap _ indices); [by apply sliceLast_nonempty|done].
Qed.

(** X13. The window of context events a tick loads is the tail of the
    mission's log: at most 40 events, all of the ticked mission, in
    ascending step order, and no event left out has a larger step than an
    event in the window. A log of at most 40 events is loaded whole. *)
Theorem context_window_is_log_tail mid s :
  length (contextEvents mid s) = (40 `min` length (history mid s))%nat
  ∧ StronglySorted byStep (contextEvents mid s)
  ∧ (∀ e, e ∈ contextEvents mid s → e ∈ history mid s)
  ∧ (∀ e e', e ∈ contextEvents mid s → e' ∈ history mid s →
             e' ∉ contextEvents mid s → e_step e' <= e_step e)
  ∧ ((length (history mid s) <= 40)%nat → contextEvents mid s ≡ₚ history mid s).
Proof.
  split; [apply contextEvents_length|].
  split; [|split; [apply contextEvents_elem|]].
  all: unfold contextEvents, CONTEXT_EVENTS_LIMIT; fold (history mid s).
  all: pose proof (sortByStepDesc_perm (history mid s)) as Hperm.
  all: pose proof (sortByStepDesc_sorted (history mid s)) as Hsorted.
  all: revert Hperm Hsorted; generalize (sortByStepDesc (history mid s)).
  all: intros l Hperm Hsorted.
  all: rewrite <- (take_drop 40 l) in Hsorted.
  all: assert (Hin : ∀ e, e ∈ rev (take 40 l) ↔ e ∈ take 40 l)
         by (intros e; rewrite !list_elem_of_In; symmetry; apply in_rev).
  - apply StronglySorted_rev. by apply StronglySorted_app_1_l in Hsorted.
  - split.
    + intros e e' He%Hin He' Hnot.
      rewrite <- Hperm, <- (take_drop 40 l) in He'.
      apply elem_of_app in He' as [He'|He']; [by destruct Hnot; apply Hin|].
      apply (StronglySorted_app_1_elem_of _ _ _ e e' Hsorted He He').
    + intros Hlen. etrans; [|exact Hperm].
      rewrite take_ge by (rewrite Hperm; lia).
      symmetry. apply Permutation_rev.
Qed.

(** X14. [rerankEvents] never invents an event, and never returns nothing
    for a non-empty candidate list: every event it returns is one of the
    candidates, whatever indices the ranking service replies. Without a
    usable ranking, or when no index of the reply denotes a candidate, it
    returns the last [topK] candidates in their order ([topK] of them when
    there are that many), and all of them when [topK] is 0. *)
Theorem rerankEvents_returns_candidates ranking candidates topK :
  (∀ e, e ∈ rerankEvents ranking candidates topK → e ∈ candidates)
  ∧ (candidates ≠ [] → rerankEvents ranking candidates topK ≠ [])
  ∧ ((ranking = None
      ∨ ∃ indices, ranking = Some indices
           ∧ ∀ i, i ∈ indices → ¬ (0 <= i < Z.of_nat (length candidates))) →
     rerankEvents ranking candidates topK = sliceLast topK candidates
     ∧ rerankEvents ranking candidates topK `suffix_of` candidates
     ∧ ((0 < topK)%nat →
        length (rerankEvents ranking candidates topK) = (topK `min` length candidates)%nat)
     ∧ (topK = 0%nat → rerankEvents ranking candidates topK = candidates)).
Proof.
  split; [intros e; apply rerankEvents_elem|].
  split; [apply rerankEvents_nonempty|].
  intros Hfall.
  assert (Heq : rerankEvents ranking candidates topK = sliceLast topK candidates).
  { unfold rerankEvents. destruct Hfall as [->|(indices & -> & Hout)]; [done|].
    destruct (omap _ indices) as [|x r] eqn:E; [done|].
    assert (x ∈ omap (λ i : Z, if decide (0 <= i) then candidates !! Z.to_nat i else None)
                  indices) as Hx by (rewrite E; by left).
    apply list_elem_of_omap in Hx as (i & Hi & Hl). case_decide; [|done].
    apply lookup_lt_Some in Hl. destruct (Hout i Hi). lia. }
  rewrite Heq. split; [done|]. split; [apply sliceLast_suffix|].
  split; [apply sliceLast_length|]. by intros ->.
Qed.

(** X15. In every store the API can produce, the prompt of the generator for
    a tick on a stored mission lists between one and eight events, all of
    them events of that mission, whatever the ranking service replies. *)
Theorem prompt_events_bounded ranking mid s :
  reachable s →
  is_Some (missions s !! mid) →
  (1 <= length (promptEvents ranking mid s) <= 8)%nat
  ∧ ∀ e, e ∈ promptEvents ranking mid s → e ∈ history mid s.
Proof.
  intros [Hwf Hc]%reachable_inv Hm.
  destruct (wf_seed _ Hwf mid Hm) as (seed & Hs1 & Hs2 & _).
  assert (Hh : history mid s ≠ []).
  { intros Hnil. assert (seed ∈ history mid s) as Hin by (by apply history_elem).
    rewrite Hnil in Hin. by apply elem_of_nil in Hin. }
  pose proof (contextEvents_length mid s) as Hlen.
  unfold promptEvents, rankedContext.
  destruct (contextEvents mid s) as [|c rest] eqn:Hctx.
  { destruct (history mid s) as [|h hs]; [done|].
    change (length (h :: hs)) with (S (length hs)) in Hlen.
    change (length (@nil MissionEvent)) with 0%nat in Hlen. lia. }
  pose proof (rerankEvents_nonempty ranking (c :: rest) RERANK_TOP_K ltac:(done)) as Hne.
  split.
  - rewrite sliceLast_length by lia.
    destruct (rerankEvents ranking (c :: rest) RERANK_TOP_K) as [|r rs]; [done|].
    change (length (r :: rs)) with (S (length rs)). lia.
  - intros e He. apply contextEvents_elem. rewrite Hctx.
    apply (rerankEvents_elem ranking _ RERANK_TOP_K).
    eapply elem_of_suffix; [exact He|apply sliceLast_suffix].
Qed.

(** X15 on a mission ticked nine times, with a ranking reply that names an
    index out of range and a negative one. *)
Lemma prompt_events_bounded_witness :
  let s := foldl (λ st r, handle r st) emptyStore
             (RStart (mkStartBody None (Some "real")) None 100
              :: replicate 9 (RTick "000000000000000000000000" 200 None)) in
  let ranking := Some [7; 99; -1; 0] in
  reachable s
  ∧ is_Some (missions s !! 0%N)
  ∧ e_step <$> promptEvents ranking 0%N s = [8; 1]
  ∧ (1 <= length (promptEvents ranking 0%N s) <= 8)%nat
  ∧ ∀ e, e ∈ promptEvents ranking 0%N s → e ∈ history 0%N s.
Proof.
  intros s ranking.
  assert (Hr : reachable s) by (apply reachable_foldl; constructor).
  assert (Hm : is_Some (missions s !! 0%N)) by (vm_compute; eauto).
  split; [exact Hr|]. split; [exact Hm|]. split; [vm_compute; reflexivity|].
  exact (prompt_events_bounded ranking 0%N s Hr Hm).
Defined.

(** ** The scripted driver of the page *)

Lemma withCumulativeDelay_events c l : (withCumulativeDelay c l).*2 = l.
Proof. revert c. induction l as [|d l IH]; intros c; simpl; [done|]. by rewrite IH. Qed.

Lemma withCumulativeDelay_lower c l x :
  Forall (λ d, 0 <= d_delayMs d) l → x ∈ withCumulativeDelay c l → c <= x.1.
Proof.
  revert c. induction l as [|d l IH]; intros c Hpos; simpl.
  - by intros ?%elem_of_nil.
  - apply Forall_cons in Hpos as [Hd Hl].
    intros [->|Hx]%elem_of_cons; simpl; [lia|]. apply IH in Hx; [lia|done].
Qed.

Lemma withCumulativeDelay_sorted c l :
  Forall (λ d, 0 <= d_delayMs d) l →
  StronglySorted (λ d1 d2, d_step d1 < d_step d2) l →
  StronglySorted (λ x y, x.1 <= y.1 ∧ d_step x.2 < d_step y.2) (withCumulativeDelay c l).
Proof.
  revert c. induction l as [|d l IH]; intros c Hpos Hs; simpl; [constructor|].
  apply Forall_cons in Hpos as [Hd Hl].
  apply StronglySorted_inv in Hs as [Hs Hall].
  constructor; [by apply IH|].
  apply Forall_forall. intros x Hx. simpl. split.
  - by apply (withCumulativeDelay_lower _ l).
  - rewrite Forall_forall in Hall. apply Hall.
    rewrite <- (withCumulativeDelay_events (c + d_delayMs d) l).
    apply list_elem_of_fmap. by exists x.
Qed.

Lemma demoScript_entry d :
  d ∈ demoScript →
  1 <= d_step d <= 17 ∧ d_summary d ≠ "" ∧ 0 <= d_delayMs d
  ∧ (d_type d = DONE ↔ d_step d = 17)
  ∧ ∃ agent, getAgentAndTypeForStep (d_step d) = Some (agent, d_type d).
Proof.
  intros Hd. unfold demoScript in Hd.
  repeat (apply elem_of_cons in Hd as [->|Hd];
          [simpl; split; [lia|]; split; [done|]; split; [lia|];
           split; [split; intros ?; first [done|lia]|eexists; reflexivity]|]).
  by apply elem_of_nil in Hd.
Qed.

Lemma demoScript_sorted : StronglySorted (λ d1 d2, d_step d1 < d_step d2) demoScript.
Proof.
  unfold demoScript.
  repeat (constructor; [|repeat (constructor; [simpl; lia|]); constructor]).
  constructor.
Qed.

Lemma StronglySorted_filter {A} (R : A → A → Prop) (f : A → bool) l :
  StronglySorted R l → StronglySorted R (List.filter f l).
Proof.
  induction 1 as [|x l Hs IH Hall]; simpl; [constructor|].
  destruct (f x); [|done]. constructor; [done|].
  apply Forall_forall. intros y [Hy _]%list_elem_of_In%filter_In.
  rewrite Forall_forall in Hall. by apply Hall, list_elem_of_In.
Qed.

(** X16. [scheduleDemoEvents] sets one timer for each scripted event whose
    step is above [startFromStep] and not yet in the set of scheduled steps,
    and for no other event. The timers are listed in ascending step order
    with delays that never decrease, so they fire in script order. The steps
    scheduled are added to the set, so a second call from the same or a
    later step sets no timer until the set is cleared. *)
Theorem scheduleDemoEvents_schedules_once scheduledSteps startFromStep :
  let timers := (scheduleDemoEvents scheduledSteps startFromStep).1 in
  let scheduled' := (scheduleDemoEvents scheduledSteps startFromStep).2 in
  (∀ d, d ∈ timers.*2 ↔
        d ∈ demoScript ∧ d_step d > startFromStep ∧ d_step d ∉ scheduledSteps)
  ∧ StronglySorted (λ x y, x.1 <= y.1 ∧ d_step x.2 < d_step y.2) timers
  ∧ (∀ step, step ∈ scheduled' ↔
             step ∈ scheduledSteps ∨ ∃ d, d ∈ timers.*2 ∧ d_step d = step)
  ∧ ∀ later, startFromStep <= later → (scheduleDemoEvents scheduled' later).1 = [].
Proof.
  intros timers scheduled'. unfold timers, scheduled', scheduleDemoEvents.
  cbv zeta. cbn [fst snd].
  set (f := λ e : DemoEvent, bool_decide (d_step e > startFromStep)
                             && negb (bool_decide (d_step e ∈ scheduledSteps))).
  assert (Hf : ∀ d, d ∈ List.filter f demoScript ↔
                d ∈ demoScript ∧ d_step d > startFromStep ∧ d_step d ∉ scheduledSteps).
  { intros d. rewrite list_elem_of_In, filter_In, <- list_elem_of_In. unfold f.
    rewrite andb_true_iff, negb_true_iff, bool_decide_eq_true, bool_decide_eq_false.
    tauto. }
  rewrite withCumulativeDelay_events.
  split; [exact Hf|]. split; [|split].
  - apply withCumulativeDelay_sorted.
    + apply Forall_forall. intros d [Hd _]%Hf.
      apply demoScript_entry in Hd. tauto.
    + apply StronglySorted_filter, demoScript_sorted.
  - intros step. rewrite elem_of_union, elem_of_list_to_set, list_elem_of_fmap.
    split; (intros [?|(d & ? & ?)]; [by left|right; by exists d]).
  - intros later Hlater.
    match goal with |- withCumulativeDelay 0 ?l = [] => assert (l = []) as ->; [|done] end.
    match goal with |- ?l = [] => destruct l as [|d ds] eqn:E; [done|] end.
    assert (Hd : In d (d :: ds)) by (by left). rewrite <- E in Hd.
    apply filter_In in Hd as [Hd Hcond].
    rewrite andb_true_iff, negb_true_iff, bool_decide_eq_true, bool_decide_eq_false
      in Hcond.
    destruct Hcond as [Hgt Hnot]. destruct Hnot.
    destruct (decide (d_step d ∈ scheduledSteps)) as [Hin|Hnin].
    + apply elem_of_union. by left.
    + apply elem_of_union. right. apply elem_of_list_to_set, list_elem_of_fmap.
      exists d. split; [done|]. apply Hf. split; [by apply list_elem_of_In|].
      split; [lia|done].
Qed.

(** One scripted event posted for the next step of a mission driven so far
    step by step. *)
Lemma emit_advances missionId mid c now d s :
  wellFormed s →
  parseObjectId missionId = Some mid →
  atStep mid c s → 1 <= c < 17 →
  d ∈ demoScript → d_step d = c + 1 →
  ∃ e,
    (emit (emitEventBody missionId d) now s).2 = EmitOk false
    ∧ events (emit (emitEventBody missionId d) now s).1 = events s ++ [e]
    ∧ e = mkEvent (oidCounter s) mid now (d_step d) (d_agent d) (d_type d)
            (d_summary d) (d_payload d) None
    ∧ atStep mid (c + 1) (emit (emitEventBody missionId d) now s).1
    ∧ ∀ mid', mid' ≠ mid →
        missions (emit (emitEventBody missionId d) now s).1 !! mid' = missions s !! mid'.
Proof.
  intros Hwf Hp Hat Hc Hd Hstep.
  pose proof (atStep_free mid c s (c + 1) Hat ltac:(lia)) as Hfree.
  destruct (demoScript_entry d Hd) as (Hrange & Hsum & _ & Hdone & _).
  assert (Hvalid : validEmitBody (emitEventBody missionId d)).
  { unfold validEmitBody, missingRequired, emitEventBody. simpl.
    rewrite Hp. split; [|split; [by eexists|split]].
    - rewrite !orb_false_iff, !bool_decide_eq_false.
      split; [split; [split; [split|]|]|]; try done.
      + by eapply parseObjectId_nonempty.
      + lia.
      + by destruct (d_agent d).
      + by destruct (d_type d).
    - exists (d_agent d). by destruct (d_agent d).
    - exists (d_type d). by destruct (d_type d). }
  destruct (ensureIndexes_wf s Hwf) as [s0 Hs0].
  destruct (emit_cases (emitEventBody missionId d) now s)
    as [(r & _ & _ & _ & Hr)|[(s1 & mid' & _ & _ & Hp' & Hnone)
        |(s1 & mid' & mission & agent & type & _ & Hp' & Ha & Ht & Hs1 & Hm & Hcase)]].
  { destruct (Hr Hvalid) as [_ Hn]. congruence. }
  { simpl in Hp'. rewrite Hp in Hp'. injection Hp' as <-.
    destruct Hat as (m & Hm & _). congruence. }
  simpl in Hp'. rewrite Hp in Hp'. injection Hp' as <-.
  assert (agent = d_agent d) as ->.
  { simpl in Ha. destruct (d_agent d); by injection Ha as <-. }
  assert (type = d_type d) as ->.
  { simpl in Ht. destruct (d_type d); by injection Ht as <-. }
  simpl in Hcase. rewrite Hstep, Hfree in Hcase.
  destruct Hcase as [[[? ?] _]|[_ [Hemit _]]]; [done|].
  destruct (ensureIndexes_Some _ _ Hs1) as (Hms & Hes & Hcnt & _).
  rewrite Hemit. simpl. eexists. split; [done|]. split; [done|].
  split; [by rewrite Hstep|].
  destruct Hat as (m & Hm' & Hcs & Hst & Hh).
  rewrite Hm in Hm'. injection Hm' as <-.
  split.
  - unfold atStep. simpl. rewrite Hms, lookup_alter_eq, Hm. simpl.
    eexists. split; [done|]. simpl.
    rewrite decide_True by lia. simpl. split; [done|]. split.
    + rewrite Hst. rewrite getTotalSteps_eq.
      rewrite bool_decide_eq_false_2 by lia.
      destruct (decide (d_type d = DONE)) as [Hdn|Hdn]; simpl.
      * rewrite bool_decide_eq_true_2; [done|]. apply Hdone in Hdn. lia.
      * rewrite bool_decide_eq_false_2; [done|]. intros Heq.
        apply Hdn, Hdone. lia.
    + unfold history. simpl. rewrite filter_app, fmap_app.
      fold (history mid s). rewrite Hh.
      rewrite filter_cons_True by done. simpl.
      rewrite (seqZ_app 1 c 1) by lia. f_equal.
      rewrite seqZ_cons by lia. rewrite seqZ_nil by lia. f_equal. lia.
  - intros mid' Hne. simpl. rewrite Hms. by rewrite lookup_alter_ne.
Qed.

Lemma emitAll_advance missionId mid fired c s :
  parseObjectId missionId = Some mid →
  reachable s → atStep mid c s → 1 <= c →
  Forall (λ p, p.2 ∈ demoScript) fired →
  d_step <$> fired.*2 = seqZ (c + 1) (Z.of_nat (length fired)) →
  c + Z.of_nat (length fired) <= 17 →
  reachable (emitAll missionId fired s)
  ∧ atStep mid (c + Z.of_nat (length fired)) (emitAll missionId fired s)
  ∧ (∃ new,
        events (emitAll missionId fired s) = events s ++ new
        ∧ Forall2 (λ e p, e_missionId e = mid ∧ e_ts e = p.1
                          ∧ e_step e = d_step p.2 ∧ e_agent e = d_agent p.2
                          ∧ e_type e = d_type p.2 ∧ e_summary e = d_summary p.2
                          ∧ e_payload e = d_payload p.2) new fired)
  ∧ ∀ mid', mid' ≠ mid → missions (emitAll missionId fired s) !! mid' = missions s !! mid'.
Proof.
  intros Hp. revert c s.
  induction fired as [|[now d] fired IH]; intros c s Hr Hat Hc Hin Hsteps Hle.
  - simpl. rewrite Z.add_0_r. split; [done|]. split; [done|].
    split; [|done]. exists []. by rewrite app_nil_r.
  - apply Forall_cons in Hin as [Hd Hin]. simpl in Hd.
    change (length ((now, d) :: fired)) with (S (length fired)) in *.
    rewrite Nat2Z.inj_succ in *.
    rewrite seqZ_cons in Hsteps by lia. simpl in Hsteps.
    injection Hsteps as Hstep Hsteps.
    replace (Z.pred (Z.succ (Z.of_nat (length fired)))) with (Z.of_nat (length fired))
      in Hsteps by lia.
    replace (Z.succ (c + 1)) with (c + 1 + 1) in Hsteps by lia.
    pose proof (proj1 (reachable_inv s Hr)) as Hwf.
    destruct (emit_advances missionId mid c now d s Hwf Hp Hat ltac:(lia) Hd Hstep)
      as (e & _ & Hev & He & Hat1 & Hoth).
    assert (Hr1 : reachable (emit (emitEventBody missionId d) now s).1).
    { apply (reachable_handle (REmit (emitEventBody missionId d) now)), Hr. }
    destruct (IH (c + 1) _ Hr1 Hat1 ltac:(lia) Hin Hsteps ltac:(lia))
      as (Hr2 & Hat2 & (new & Hnew & Hall) & Hoth2).
    cbn [emitAll]. split; [done|]. split.
    { by replace (c + Z.succ (Z.of_nat (length fired)))
        with (c + 1 + Z.of_nat (length fired)) by lia. }
    split.
    + exists (e :: new). rewrite Hnew, Hev, <- app_assoc. split; [done|].
      constructor; [|done]. by rewrite He.
    + intros mid' Hne. by rewrite Hoth2, Hoth.
Qed.

Lemma scheduleDemoEvents_from_step c :
  0 <= c <= 17 →
  d_step <$> (scheduleDemoEvents ∅ c).1.*2 = seqZ (c + 1) (17 - c)
  ∧ length (scheduleDemoEvents ∅ c).1 = Z.to_nat (17 - c).
Proof.
  intros Hc.
  assert (c = 0 ∨ c = 1 ∨ c = 2 ∨ c = 3 ∨ c = 4 ∨ c = 5 ∨ c = 6 ∨ c = 7 ∨ c = 8 ∨ c = 9
          ∨ c = 10 ∨ c = 11 ∨ c = 12 ∨ c = 13 ∨ c = 14 ∨ c = 15 ∨ c = 16 ∨ c = 17)
    as Hcase by lia.
  repeat (destruct Hcase as [-> | Hcase]); try subst c; split; vm_compute; reflexivity.
Qed.

(** X17. A scripted mission resumes from its stored step. For a mission
    driven step by step to step [c], whose timers were lost (the set of
    scheduled steps is empty, as after a crash of the page), the timers
    that [scheduleDemoEvents] sets from step [c], fired in order, append
    exactly one event for each of the steps [c + 1] to 17, with the content
    of the script, and leave the mission done at step 17 with a log of the
    steps 1 to 17. No other mission's record changes. *)
Theorem scripted_run_resumes_to_done missionId mid c times s :
  reachable s →
  parseObjectId missionId = Some mid →
  atStep mid c s → 1 <= c <= 17 →
  length times = length (scheduleDemoEvents ∅ c).1 →
  let fired := zip times (scheduleDemoEvents ∅ c).1.*2 in
  let s' := emitAll missionId fired s in
  atStep mid 17 s'
  ∧ reachable s'
  ∧ (∃ new,
        events s' = events s ++ new
        ∧ e_step <$> new = seqZ (c + 1) (17 - c)
        ∧ Forall2 (λ e p, e_missionId e = mid ∧ e_ts e = p.1
                          ∧ e_step e = d_step p.2 ∧ e_agent e = d_agent p.2
                          ∧ e_type e = d_type p.2 ∧ e_summary e = d_summary p.2
                          ∧ e_payload e = d_payload p.2) new fired)
  ∧ ∀ mid', mid' ≠ mid → missions s' !! mid' = missions s !! mid'.
Proof.
  intros Hr Hp Hat Hc Hlen fired s'.
  destruct (scheduleDemoEvents_from_step c ltac:(lia)) as [Hsteps Htl].
  assert (Hsnd : fired.*2 = (scheduleDemoEvents ∅ c).1.*2).
  { unfold fired. apply snd_zip. rewrite length_fmap. lia. }
  assert (Hfl : Z.of_nat (length fired) = 17 - c).
  { unfold fired. rewrite length_zip, length_fmap, Hlen, Htl. lia. }
  assert (Hin : Forall (λ p, p.2 ∈ demoScript) fired).
  { apply Forall_forall. intros p Hpin.
    assert (p.2 ∈ fired.*2) as Hp2 by (apply list_elem_of_fmap; by exists p).
    rewrite Hsnd in Hp2. unfold scheduleDemoEvents in Hp2. cbv zeta in Hp2.
    cbn [fst] in Hp2. rewrite withCumulativeDelay_events in Hp2.
    by apply list_elem_of_In, filter_In in Hp2 as [?%list_elem_of_In _]. }
  destruct (emitAll_advance missionId mid fired c s Hp Hr Hat ltac:(lia) Hin)
    as (Hr' & Hat' & (new & Hnew & Hall) & Hoth).
  { by rewrite Hsnd, Hfl. }
  { lia. }
  replace (c + Z.of_nat (length fired)) with 17 in Hat' by lia.
  split; [done|]. split; [done|]. split; [|done].
  exists new. split; [done|]. split; [|done].
  rewrite <- Hsteps, <- Hsnd. clear -Hall.
  induction Hall as [|e p new fired (_ & _ & Hs & _) _ IH]; [done|].
  rewrite !fmap_cons. by f_equal.
Qed.

(** X17 on a scripted mission right after its start: the sixteen timers
    set from step 1 complete it. *)
Lemma scripted_run_resumes_to_done_witness :
  let s := (start (mkStartBody None (Some "scripted")) None 100 emptyStore).1 in
  let times := seqZ 200 16 in
  let s' := emitAll "000000000000000000000000"
              (zip times (scheduleDemoEvents ∅ 1).1.*2) s in
  (m_currentStep <$> missions s !! 0%N) = Some 1
  ∧ (scheduleDemoEvents ∅ 1).1.*1
    = [2500; 4500; 7500; 9500; 12000; 15000; 17500; 20500; 22500; 25000; 27500;
       30500; 33000; 36000; 38000; 40500]
  ∧ atStep 0%N 17 s'
  ∧ (m_status <$> missions s' !! 0%N) = Some StatusDone.
Proof.
  intros s times s'.
  assert (Hr : reachable s).
  { apply (reachable_handle (RStart (mkStartBody None (Some "scripted")) None 100)).
    constructor. }
  assert (Hat : atStep 0%N 1 s).
  { eexists. split; [vm_compute; reflexivity|]. split; [reflexivity|].
    split; vm_compute; reflexivity. }
  split; [vm_compute; reflexivity|]. split; [vm_compute; reflexivity|].
  split; [|vm_compute; reflexivity].
  refine (proj1 (scripted_run_resumes_to_done "000000000000000000000000" 0%N 1
                   times s Hr _ Hat _ _)).
  - reflexivity.
  - lia.
  - vm_compute. reflexivity.
Defined.

(** ** A fork driven to completion *)

Lemma steps_seqZ_sorted l a n : e_step <$> l = seqZ a n → StronglySorted byStep l.
Proof.
  revert a n. induction l as [|x l IH]; intros a n H; [constructor|].
  destruct (decide (0 < n)) as [Hn|Hn].
  2:{ rewrite seqZ_nil in H by lia. done. }
  rewrite seqZ_cons in H by lia. rewrite fmap_cons in H. injection H as Hx Hl.
  constructor; [by eapply IH|].
  apply Forall_forall. intros y Hy. unfold byStep.
  assert (e_step y ∈ seqZ (Z.succ a) (Z.pred n)) as Hin.
  { rewrite <- Hl. apply list_elem_of_fmap. by exists y. }
  apply elem_of_seqZ in Hin. lia.
Qed.

Lemma steps_filter_le h c k :
  e_step <$> h = seqZ 1 c → 0 <= k →
  e_step <$> filter (λ e, e_step e <= k) h = seqZ 1 (Z.min c k).
Proof.
  intros H Hk. revert c H. induction h as [|x h IH] using rev_ind; intros c H.
  - apply (f_equal length) in H. rewrite length_seqZ in H. simpl in H.
    rewrite seqZ_nil by lia. done.
  - assert (1 <= c) as Hc.
    { apply (f_equal length) in H.
      rewrite length_seqZ, length_fmap, length_app in H. simpl in H. lia. }
    replace c with ((c - 1) + 1) in H by lia.
    rewrite seqZ_app in H by lia. rewrite fmap_app in H.
    rewrite (seqZ_cons _ 1) in H by lia.
    rewrite (seqZ_nil _ (Z.pred 1)) in H by lia.
    apply app_inj_tail in H as [Hh Hx]. simpl in Hx.
    rewrite filter_app, fmap_app, (IH _ Hh).
    destruct (decide (e_step x <= k)) as [Hle|Hgt].
    + rewrite filter_cons_True by done. rewrite filter_nil.
      replace (Z.min (c - 1) k) with (c - 1) by lia.
      replace (Z.min c k) with ((c - 1) + 1) by lia.
      rewrite (seqZ_app 1 (c - 1) 1) by lia. f_equal.
      rewrite (seqZ_cons _ 1) by lia. rewrite (seqZ_nil _ (Z.pred 1)) by lia.
      rewrite fmap_cons, Hx. f_equal.
    + rewrite filter_cons_False by done. rewrite filter_nil, app_nil_r.
      f_equal. lia.
Qed.

Lemma loadParentEvents_atStep pid c k s :
  atStep pid c s → 0 <= k →
  e_step <$> loadParentEvents pid k (events s) = seqZ 1 (Z.min c k).
Proof.
  intros (m & _ & _ & _ & Hh) Hk. unfold loadParentEvents.
  assert (Heq : filter (λ e, e_missionId e = pid ∧ e_step e <= k) (events s)
                = filter (λ e, e_step e <= k) (history pid s)).
  { unfold history. clear. induction (events s) as [|x l IH]; [done|].
    destruct (decide (e_missionId x = pid)) as [Hm|Hm].
    - rewrite (filter_cons_True (λ e, e_missionId e = pid)) by done.
      destruct (decide (e_step x <= k)) as [Hs|Hs].
      + rewrite !filter_cons_True by done. by rewrite IH.
      + rewrite !filter_cons_False by tauto. done.
    - rewrite (filter_cons_False (λ e, e_missionId e = pid)) by done.
      rewrite filter_cons_False by tauto. done. }
  rewrite Heq.
  pose proof (steps_filter_le _ _ k Hh Hk) as Hsteps.
  rewrite sortByStep_id; [done|]. by eapply steps_seqZ_sorted.
Qed.

Lemma tick_other_mission missionId mid now reply s id :
  parseObjectId missionId = Some mid → id ≠ mid →
  missions (tick missionId now reply s).1 !! id = missions s !! id
  ∧ history id (tick missionId now reply s).1 = history id s.
Proof.
  intros Hp Hid.
  destruct (tick_cases missionId now reply s) as
    [(r & Heq & _) | (mid' & m & agent & type & summary & payload & au & used &
                       Hp' & _ & _ & _ & _ & _ & _ & Heq & _)].
  - by rewrite Heq.
  - rewrite Hp in Hp'. injection Hp' as <-. simpl in Heq. rewrite Heq. simpl.
    rewrite lookup_alter_ne by done. split; [done|].
    unfold history. simpl. rewrite filter_app, filter_cons_False by (simpl; congruence).
    by rewrite filter_nil, app_nil_r.
Qed.

Lemma runTicks_other_mission missionId mid inputs s id :
  parseObjectId missionId = Some mid → id ≠ mid →
  missions (runTicks missionId inputs s).1 !! id = missions s !! id
  ∧ history id (runTicks missionId inputs s).1 = history id s.
Proof.
  intros Hp Hid. revert s. induction inputs as [|[now reply] inputs IH]; intros s; [done|].
  simpl. pose proof (tick_other_mission missionId mid now reply s id Hp Hid) as [H1 H2].
  destruct (tick missionId now reply s) as [s1 r]. specialize (IH s1).
  destruct (runTicks missionId inputs s1) as [s2 rs]. simpl in *.
  destruct IH as [IH1 IH2]. by rewrite IH1, IH2.
Qed.

(** X18. A fork of a mission driven by ticks can itself be driven by ticks.
    When the parent is at step [c] and the fork is taken at [forkStep], the
    new mission is running at step [min c forkStep] with one event for each
    step up to it; below the last step, [17 - min c forkStep] ticks on the
    new mission then bring it to done at step 17 with a full log, and
    neither the fork nor the ticks change the record or the log of the
    parent. *)
Theorem fork_resumes_to_done body now s pid forkStep c inputs :
  reachable s →
  (oidCounter s < 16 ^ 24)%N →
  f_forkStep body = Some forkStep →
  parseObjectId (f_parentMissionId body) = Some pid →
  atStep pid c s → 1 <= c → 1 <= forkStep →
  Z.min c forkStep < 17 →
  Z.of_nat (length inputs) = 17 - Z.min c forkStep →
  let child := oidCounter s in
  let forked := (fork body now s).1 in
  let final := (runTicks (ObjectId_toString child) inputs forked).1 in
  (fork body now s).2 = ForkOk child
  ∧ atStep child (Z.min c forkStep) forked
  ∧ atStep child 17 final
  ∧ missions final !! pid = missions s !! pid
  ∧ history pid final = history pid s.
Proof.
  intros Hr Hid Hf Hp Hat Hc Hk Hlt Hlen child forked final.
  pose proof (proj1 (reachable_inv s Hr)) as Hwf.
  pose proof (loadParentEvents_atStep pid c forkStep s Hat ltac:(lia)) as Hsteps.
  pose proof Hat as (pm & Hpm & _).
  assert (Hpid : (pid < oidCounter s)%N) by (apply (wf_mission _ Hwf) in Hpm; tauto).
  set (j := Z.min c forkStep) in *.
  assert (∃ lastEvent, last (loadParentEvents pid forkStep (events s)) = Some lastEvent
                       ∧ e_step lastEvent = j) as (lastEvent & Hl & Hls).
  { assert (Hlast : last (e_step <$> loadParentEvents pid forkStep (events s)) = Some j).
    { rewrite Hsteps. replace j with ((j - 1) + 1) at 1 by lia.
      rewrite seqZ_app by lia. rewrite (seqZ_cons _ 1) by lia.
      rewrite (seqZ_nil _ (Z.pred 1)) by lia. rewrite last_snoc. f_equal. lia. }
    rewrite fmap_last in Hlast.
    destruct (last _) as [e|]; [|done]. exists e. split; [done|].
    by injection Hlast. }
  pose proof (fork_success body now s forkStep pid pm lastEvent Hwf Hf Hp Hk Hpm Hl)
    as Heq.
  cbv zeta in Heq.
  set (copies := imap _ (loadParentEvents pid forkStep (events s))) in Heq.
  assert (Hown : ∀ e, e ∈ copies → e_missionId e = oidCounter s).
  { by intros d (i & src & Hi & ->)%copies_elem. }
  assert (Hchild : atStep child j forked).
  { unfold forked, child. rewrite Heq. unfold atStep. cbn [fst missions events].
    rewrite lookup_insert_eq. eexists. split; [done|]. cbn [m_currentStep m_status].
    split; [done|]. split.
    - rewrite bool_decide_eq_false_2; [done|]. rewrite getTotalSteps_eq. lia.
    - unfold history. cbn [events]. rewrite history_new_mission by done.
      unfold copies. by rewrite copies_steps. }
  assert (Hpc : parseObjectId (ObjectId_toString child) = Some child)
    by (by apply parseObjectId_toString).
  assert (pid ≠ child) as Hne by (unfold child; lia).
  split; [by rewrite Heq|]. split; [done|]. split.
  - pose proof (runTicks_advance (ObjectId_toString child) child inputs j forked
                  Hpc Hchild ltac:(lia) ltac:(lia)) as [Hfin _].
    by replace (j + Z.of_nat (length inputs)) with 17 in Hfin by lia.
  - destruct (runTicks_other_mission (ObjectId_toString child) child inputs forked pid
                Hpc Hne) as [H1 H2].
    unfold final. rewrite H1, H2. unfold forked. rewrite Heq. cbn [fst missions].
    rewrite lookup_insert_ne by done. split; [done|].
    unfold history at 1. cbn [events]. by apply history_other_mission.
Qed.

(** X18 on a mission ticked to step 9 and forked at step 6: eleven ticks
    complete the fork. *)
Lemma fork_resumes_to_done_witness :
  let s := foldl (λ st r, handle r st) emptyStore
             (RStart (mkStartBody None (Some "real")) None 100
              :: replicate 8 (RTick "000000000000000000000000" 200 None)) in
  let body := mkForkBody "000000000000000000000000" (Some 6) in
  let inputs := replicate 11 (400, None) in
  let forked := (fork body 300 s).1 in
  let final := (runTicks (ObjectId_toString (oidCounter s)) inputs forked).1 in
  (m_currentStep <$> missions s !! 0%N) = Some 9
  ∧ (fork body 300 s).2 = ForkOk (oidCounter s)
  ∧ atStep (oidCounter s) (Z.min 9 6) forked
  ∧ atStep (oidCounter s) 17 final
  ∧ missions final !! 0%N = missions s !! 0%N
  ∧ history 0%N final = history 0%N s.
Proof.
  intros s body inputs forked final.
  assert (Hr : reachable s) by (apply reachable_foldl; constructor).
  assert (Hat : atStep 0%N 9 s).
  { eexists. split; [vm_compute; reflexivity|]. split; [reflexivity|].
    split; vm_compute; reflexivity. }
  split; [vm_compute; reflexivity|].
  refine (fork_resumes_to_done body 300 s 0%N 6 9 inputs Hr _ _ _ Hat _ _ _ _).
  - vm_compute. reflexivity.
  - reflexivity.
  - reflexivity.
  - lia.
  - lia.
  - lia.
  - reflexivity.
Defined.

(** ** What the page shows for each agent *)

(** X19. [getAgentLatestEvents] shows, for each agent, an event of that
    agent with the largest step among the agent's events in the list, and
    nothing exactly when the list holds no event of the agent. *)
Theorem getAgentLatestEvents_largest_step evts a :
  match getAgentLatestEvents evts a with
  | None => ∀ e, e ∈ evts → e_agent e ≠ a
  | Some latest =>
      latest ∈ evts ∧ e_agent latest = a
      ∧ ∀ e, e ∈ evts → e_agent e = a → e_step e <= e_step latest
  end.
Proof.
  revert a. induction evts as [|x evts IH] using rev_ind; intros a.
  - simpl. by intros e ?%elem_of_nil.
  - unfold getAgentLatestEvents. rewrite fold_left_app. cbn [fold_left].
    fold (getAgentLatestEvents evts).
    assert (Hkeep : a ≠ e_agent x →
              match getAgentLatestEvents evts a with
              | None => ∀ e, e ∈ evts ++ [x] → e_agent e ≠ a
              | Some latest =>
                  latest ∈ evts ++ [x] ∧ e_agent latest = a
                  ∧ ∀ e, e ∈ evts ++ [x] → e_agent e = a → e_step e <= e_step latest
              end).
    { intros Hne. specialize (IH a).
      destruct (getAgentLatestEvents evts a) as [latest|].
      - destruct IH as (Hin & Hag & Hmax). split; [apply elem_of_app; by left|].
        split; [done|].
        intros e [He| ->%list_elem_of_singleton]%elem_of_app Ha; [by apply Hmax|done].
      - intros e [He| ->%list_elem_of_singleton]%elem_of_app; [by apply IH|done]. }
    assert (Hnew : ∀ bound : Z,
              (∀ e, e ∈ evts → e_agent e = e_agent x → e_step e <= bound) →
              bound <= e_step x →
              x ∈ evts ++ [x] ∧ e_agent x = e_agent x
              ∧ ∀ e, e ∈ evts ++ [x] → e_agent e = e_agent x → e_step e <= e_step x).
    { intros bound Hb Hle. split; [apply elem_of_app; right; by left|]. split; [done|].
      intros e [He| ->%list_elem_of_singleton]%elem_of_app Ha; [|lia].
      specialize (Hb e He Ha). lia. }
    pose proof (IH (e_agent x)) as IHx.
    destruct (getAgentLatestEvents evts (e_agent x)) as [latest|] eqn:Hx.
    + destruct IHx as (Hin & Hag & Hmax). case_decide as Hgt.
      * destruct (decide (a = e_agent x)) as [->|Hne]; [|by apply Hkeep].
        apply (Hnew (e_step latest)); [done|lia].
      * destruct (decide (a = e_agent x)) as [->|Hne]; [|by apply Hkeep].
        rewrite Hx. split; [apply elem_of_app; by left|]. split; [done|].
        intros e [He| ->%list_elem_of_singleton]%elem_of_app Ha; [by apply Hmax|lia].
    + destruct (decide (a = e_agent x)) as [->|Hne]; [|by apply Hkeep].
      apply (Hnew (e_step x)); [|lia].
      intros e He Ha. by destruct (IHx e He).
Qed.

(** ** The read routes *)

Lemma sorted_NoDup_strict l :
  StronglySorted byStep l → NoDup (e_step <$> l) →
  StronglySorted (λ a b, e_step a < e_step b) l.
Proof.
  induction 1 as [|x l Hs IH Hall]; [constructor|].
  rewrite fmap_cons. intros [Hx Hnd]%NoDup_cons.
  constructor; [by apply IH|].
  apply Forall_forall. intros y Hy. rewrite Forall_forall in Hall.
  specialize (Hall y Hy). unfold byStep in Hall.
  assert (e_step x ≠ e_step y); [|lia].
  intros Heq. apply Hx. rewrite Heq. apply list_elem_of_fmap. by exists y.
Qed.

Lemma history_NoDup_steps mid s : wellFormed s → NoDup (e_step <$> history mid s).
Proof.
  intros Hwf. apply (NoDup_steps _ mid).
  - apply (sublist_NoDup _ (eventKey <$> events s)); [apply Hwf|].
    apply fmap_sublist. apply sublist_filter.
  - intros e He. apply history_elem in He. tauto.
Qed.

(** X20. In every store the API can produce, the get route answers for
    exactly the stored missions, with the stored record and the head of the
    log: the (at most 200) events of smallest step, in strictly ascending
    step order. The list is never empty, it holds only events of the
    mission, and every event of the mission it leaves out has a larger step
    than all the events returned. *)
Theorem getMission_returns_log_head missionId s :
  reachable s →
  match getMission missionId s with
  | None => ∀ oid, parseObjectId missionId = Some oid → missions s !! oid = None
  | Some (mission, snapshot) =>
      ∃ oid,
        parseObjectId missionId = Some oid
        ∧ missions s !! oid = Some mission
        ∧ length snapshot = (200 `min` length (history oid s))%nat
        ∧ snapshot ≠ []
        ∧ StronglySorted (λ a b, e_step a < e_step b) snapshot
        ∧ (∀ e, e ∈ snapshot → e ∈ history oid s)
        ∧ (∀ e e', e ∈ snapshot → e' ∈ history oid s → e' ∉ snapshot →
                   e_step e < e_step e')
  end.
Proof.
  intros [Hwf _]%reachable_inv. unfold getMission.
  destruct (parseObjectId missionId) as [oid|]; [|done].
  destruct (missions s !! oid) as [m|] eqn:Hm; [|by intros ? [= <-]].
  exists oid. split; [done|]. split; [done|].
  fold (history oid s).
  pose proof (sortByStep_perm (history oid s)) as Hperm.
  pose proof (sortByStep_sorted (history oid s)) as Hsorted.
  assert (Hnd : NoDup (e_step <$> sortByStep (history oid s))).
  { rewrite Hperm. by apply history_NoDup_steps. }
  apply sorted_NoDup_strict in Hsorted; [|done]. clear Hnd.
  assert (Hne : history oid s ≠ []).
  { destruct (wf_seed _ Hwf oid ltac:(by eexists)) as (seed & Hs1 & Hs2 & _).
    intros Hnil. assert (seed ∈ history oid s) as Hin by (by apply history_elem).
    rewrite Hnil in Hin. by apply elem_of_nil in Hin. }
  revert Hperm Hsorted. generalize (sortByStep (history oid s)). intros l Hperm Hsorted.
  rewrite <- (take_drop 200 l) in Hsorted.
  split; [|split; [|split; [|split]]].
  - rewrite length_take, Hperm. lia.
  - intros Hnil. apply (f_equal length) in Hnil.
    rewrite length_take, Hperm in Hnil.
    destruct (history oid s); [done|]. simpl in Hnil. lia.
  - by apply StronglySorted_app_1_l in Hsorted.
  - intros e He. rewrite <- Hperm. by eapply subseteq_take.
  - intros e e' He He' Hnot.
    rewrite <- Hperm, <- (take_drop 200 l) in He'.
    apply elem_of_app in He' as [He'|He']; [done|].
    apply (StronglySorted_app_1_elem_of _ _ _ e e' Hsorted He He').
Qed.

Lemma insertByCreatedAtDesc_perm m l : insertByCreatedAtDesc m l ≡ₚ m :: l.
Proof.
  induction l as [|x l IH]; simpl; [done|].
  case_decide; [done|]. rewrite IH. apply Permutation_swap.
Qed.

Lemma insertByCreatedAtDesc_sorted m l :
  StronglySorted (λ a b, m_createdAt b <= m_createdAt a) l →
  StronglySorted (λ a b, m_createdAt b <= m_createdAt a) (insertByCreatedAtDesc m l).
Proof.
  induction 1 as [|x l Hs IH Hall]; simpl.
  - repeat constructor.
  - case_decide as Hle.
    + constructor; [by constructor|]. constructor; [done|].
      eapply Forall_impl; [exact Hall|]. intros; simpl in *; lia.
    + constructor; [done|]. rewrite insertByCreatedAtDesc_perm. constructor; [lia|done].
Qed.

(** X21. The list route returns the newest missions first: at most 50
    stored records, in descending order of creation time, and every stored
    mission it leaves out was created no later than all the missions
    returned. With at most 50 missions stored, every one of them is
    returned. *)
Theorem listMissions_newest_first s :
  length (listMissions s) = (50 `min` size (missions s))%nat
  ∧ StronglySorted (λ a b, m_createdAt b <= m_createdAt a) (listMissions s)
  ∧ (∀ m, m ∈ listMissions s → ∃ id, missions s !! id = Some m)
  ∧ (∀ m id m', m ∈ listMissions s → missions s !! id = Some m' →
                m' ∉ listMissions s → m_createdAt m' <= m_createdAt m)
  ∧ ((size (missions s) <= 50)%nat →
     ∀ id m, missions s !! id = Some m → m ∈ listMissions s).
Proof.
  unfold listMissions.
  set (all := (map_to_list (missions s)).*2).
  assert (Hall : ∀ m, m ∈ all ↔ ∃ id, missions s !! id = Some m).
  { intros m. unfold all. rewrite list_elem_of_fmap. split.
    - intros ([id m'] & -> & Hin). exists id. by apply elem_of_map_to_list in Hin.
    - intros (id & Hin). exists (id, m). split; [done|]. by apply elem_of_map_to_list. }
  assert (Hlen : length all = size (missions s)).
  { unfold all. by rewrite length_fmap, length_map_to_list. }
  assert (Hperm : foldr insertByCreatedAtDesc [] all ≡ₚ all).
  { clear. induction all as [|x l IH]; simpl; [done|].
    by rewrite insertByCreatedAtDesc_perm, IH. }
  assert (Hsorted : StronglySorted (λ a b, m_createdAt b <= m_createdAt a)
                      (foldr insertByCreatedAtDesc [] all)).
  { clear. induction all as [|x l IH]; simpl; [constructor|].
    by apply insertByCreatedAtDesc_sorted. }
  revert Hperm Hsorted. generalize (foldr insertByCreatedAtDesc [] all).
  intros l Hperm Hsorted.
  rewrite <- (take_drop 50 l) in Hsorted.
  split; [|split; [|split; [|split]]].
  - rewrite length_take, Hperm, Hlen. lia.
  - by apply StronglySorted_app_1_l in Hsorted.
  - intros m Hm. apply Hall. rewrite <- Hperm. by eapply subseteq_take.
  - intros m id m' Hm Hm' Hnot.
    assert (m' ∈ l) as Hin by (rewrite Hperm; apply Hall; eauto).
    rewrite <- (take_drop 50 l) in Hin.
    apply elem_of_app in Hin as [Hin|Hin]; [done|].
    apply (StronglySorted_app_1_elem_of _ _ _ m m' Hsorted Hm Hin).
  - intros Hsize id m Hm. rewrite take_ge by (rewrite Hperm, Hlen; lia).
    rewrite Hperm. apply Hall. eauto.
Qed.

(** X20 on a mission ticked twice, and on an id that is not stored. *)
Lemma getMission_returns_log_head_witness :
  let s := foldl (λ st r, handle r st) emptyStore
             (RStart (mkStartBody None (Some "real")) None 100
              :: replicate 2 (RTick "000000000000000000000000" 200 None)) in
  (e_step <$> default [] (snd <$> getMission "000000000000000000000000" s)) = [1; 2; 3]
  ∧ getMission "00000000000000000000000a" s = None
  ∧ match getMission "000000000000000000000000" s with
    | None => ∀ oid, parseObjectId "000000000000000000000000" = Some oid →
                     missions s !! oid = None
    | Some (mission, snapshot) =>
        ∃ oid,
          parseObjectId "000000000000000000000000" = Some oid
          ∧ missions s !! oid = Some mission
          ∧ length snapshot = (200 `min` length (history oid s))%nat
          ∧ snapshot ≠ []
          ∧ StronglySorted (λ a b, e_step a < e_step b) snapshot
          ∧ (∀ e, e ∈ snapshot → e ∈ history oid s)
          ∧ (∀ e e', e ∈ snapshot → e' ∈ history oid s → e' ∉ snapshot →
                     e_step e < e_step e')
    end.
Proof.
  intros s. split; [vm_compute; reflexivity|]. split; [vm_compute; reflexivity|].
  apply (getMission_returns_log_head "000000000000000000000000" s).
  apply reachable_foldl. constructor.
Defined.

(** ** What the responses say about the store *)

(** X22. In every store the API can produce, a fork is refused only for a
    malformed body or an unknown parent. Every stored mission has its step-1
    event, so the refusal for an empty prefix and the server error are never
    answered: a body with a valid id of a stored mission and a forkStep of
    at least 1 always creates a new running mission, under an id that was
    free, at a step between 1 and forkStep. Every refusal leaves the
    database as it was. *)
Theorem fork_refuses_only_bad_requests body now s :
  reachable s →
  match (fork body now s).2 with
  | ForkOk id =>
      id = oidCounter s
      ∧ missions s !! id = None
      ∧ ∃ forkStep pid child,
          f_forkStep body = Some forkStep ∧ 1 <= forkStep
          ∧ parseObjectId (f_parentMissionId body) = Some pid
          ∧ is_Some (missions s !! pid)
          ∧ missions (fork body now s).1 !! id = Some child
          ∧ 1 <= m_currentStep child <= forkStep
          ∧ m_status child = StatusRunning
          ∧ m_branchFromMissionId child = Some pid
  | ForkNotFound =>
      (fork body now s).1 = s
      ∧ ∃ pid, parseObjectId (f_parentMissionId body) = Some pid ∧ missions s !! pid = None
  | ForkBadRequest error =>
      (fork body now s).1 = s
      ∧ error ≠ notForkable
      ∧ (f_forkStep body = None
         ∨ parseObjectId (f_parentMissionId body) = None
         ∨ ∃ forkStep, f_forkStep body = Some forkStep ∧ forkStep < 1)
  | ForkServerError => False
  end.
Proof.
  intros [Hwf _]%reachable_inv.
  destruct (f_forkStep body) as [forkStep|] eqn:Hf.
  2:{ unfold fork. rewrite Hf. simpl. split; [done|]. split; [done|]. by left. }
  destruct (decide (f_parentMissionId body = "")) as [Hempty|Hne].
  { unfold fork. rewrite Hf, bool_decide_eq_true_2 by done. simpl.
    split; [done|]. split; [done|]. right. left. by rewrite Hempty. }
  destruct (parseObjectId (f_parentMissionId body)) as [pid|] eqn:Hp.
  2:{ unfold fork. rewrite Hf, bool_decide_eq_false_2, Hp by done. simpl.
      split; [done|]. split; [done|]. right. by left. }
  destruct (decide (forkStep < 1)) as [Hlt|Hge].
  { unfold fork. rewrite Hf, bool_decide_eq_false_2, Hp, decide_True by done. simpl.
    split; [done|]. split; [done|]. right. right. eauto. }
  destruct (missions s !! pid) as [pm|] eqn:Hm.
  2:{ unfold fork. rewrite Hf, bool_decide_eq_false_2, Hp, decide_False, Hm by done.
      simpl. split; [done|]. eauto. }
  destruct (wf_seed _ Hwf pid ltac:(by eexists)) as (seed & Hs1 & Hs2 & Hs3).
  assert (Hseed : seed ∈ loadParentEvents pid forkStep (events s)).
  { apply loadParentEvents_elem. split; [done|]. split; [done|]. lia. }
  destruct (last (loadParentEvents pid forkStep (events s))) as [lastEvent|] eqn:Hl.
  2:{ apply last_None in Hl. rewrite Hl in Hseed. by apply elem_of_nil in Hseed. }
  rewrite (fork_success body now s forkStep pid pm lastEvent) by (done || lia).
  cbn [fst snd]. split; [done|]. split.
  { destruct (missions s !! oidCounter s) as [m0|] eqn:Hm0; [|done].
    apply (wf_mission _ Hwf) in Hm0 as [_ ?]. lia. }
  eexists forkStep, pid, _. split; [done|]. split; [lia|]. split; [done|].
  split; [by eexists|]. cbn [missions]. split; [by rewrite lookup_insert_eq|].
  cbn [m_currentStep m_status m_branchFromMissionId].
  split; [|done].
  destruct (sortByStep_last _ _ Hl) as [Hin Hmax].
  apply list_elem_of_filter in Hin as [[_ Hle] _]. split; [|done].
  rewrite <- Hs3. apply Hmax. apply list_elem_of_filter. split; [|done].
  split; [done|lia].
Qed.

(** X22 on a fresh mission: a fork at step 5 is clamped to step 1, a fork at
    step 0 is a bad request. *)
Lemma fork_refuses_only_bad_requests_witness :
  let s := (start (mkStartBody None (Some "real")) None 100 emptyStore).1 in
  (fork (mkForkBody "000000000000000000000000" (Some 0)) 300 s).2
    = ForkBadRequest "forkStep must be an integer >= 1"
  ∧ match (fork (mkForkBody "000000000000000000000000" (Some 5)) 300 s).2 with
    | ForkOk id =>
        id = oidCounter s
        ∧ missions s !! id = None
        ∧ ∃ forkStep pid child,
            Some 5 = Some forkStep ∧ 1 <= forkStep
            ∧ parseObjectId "000000000000000000000000" = Some pid
            ∧ is_Some (missions s !! pid)
            ∧ missions (fork (mkForkBody "000000000000000000000000" (Some 5)) 300 s).1 !! id
              = Some child
            ∧ 1 <= m_currentStep child <= forkStep
            ∧ m_status child = StatusRunning
            ∧ m_branchFromMissionId child = Some pid
    | _ => False
    end.
Proof.
  intros s. split; [vm_compute; reflexivity|].
  assert (Hr : reachable s).
  { apply (reachable_handle (RStart (mkStartBody None (Some "real")) None 100)).
    constructor. }
  pose proof (fork_refuses_only_bad_requests
                (mkForkBody "000000000000000000000000" (Some 5)) 300 s Hr) as H.
  assert (Hok : (fork (mkForkBody "000000000000000000000000" (Some 5)) 300 s).2
                = ForkOk (oidCounter s)) by (vm_compute; reflexivity).
  rewrite Hok in H |- *. exact H.
Defined.

(** X23. In every store the API can produce, the responses of emit and tick
    tell what happened to the log. Emit answers [{ok: true}] exactly when it
    appended one event, with the step and the mission of the body; it
    answers [duplicate] only when an event with that mission and step was
    already stored; every other answer leaves both collections as they
    were, and the server error is never answered. A tick that answers with
    an event always names an event that is in the log afterwards, for the
    ticked mission and at the answered step; a tick that answers anything
    else changes nothing. *)
Theorem responses_reflect_the_log s :
  reachable s →
  (∀ body now,
     match (emit body now s).2 with
     | EmitOk false =>
         ∃ e, events (emit body now s).1 = events s ++ [e]
              ∧ e_step e = b_step body
              ∧ parseObjectId (b_missionId body) = Some (e_missionId e)
     | EmitOk true =>
         missions (emit body now s).1 = missions s
         ∧ events (emit body now s).1 = events s
         ∧ ∃ mid, parseObjectId (b_missionId body) = Some mid
                  ∧ is_Some (findOneEvent mid (b_step body) (events s))
     | EmitServerError => False
     | _ => missions (emit body now s).1 = missions s
            ∧ events (emit body now s).1 = events s
     end)
  ∧ (∀ missionId now reply,
       match (tick missionId now reply s).2 with
       | TickEvent step used event =>
           ∃ e, event = Some e
                ∧ e ∈ events (tick missionId now reply s).1
                ∧ e_step e = step
                ∧ parseObjectId missionId = Some (e_missionId e)
       | _ => (tick missionId now reply s).1 = s
       end).
Proof.
  intros [Hwf Hc]%reachable_inv. split.
  - intros body now.
    destruct (ensureIndexes_wf s Hwf) as [s0 Hs0].
    destruct (ensureIndexes_Some _ _ Hs0) as (Hms & Hes & Hcnt & Hu).
    unfold emit, emitInsert.
    destruct (missingRequired body); [done|].
    destruct (parseObjectId (b_missionId body)) as [mid|] eqn:Hp; [|done].
    destruct (lookupAgent (b_agent body)) as [agent|]; [|done].
    destruct (lookupType (b_type body)) as [type|]; [|done].
    rewrite Hs0.
    destruct (missions s0 !! mid) as [mission|]; [|by cbn [fst snd]].
    cbn [newObjectId]. cbv zeta.
    match goal with
    | |- context [insertOneEvent ?e ?st] => destruct (insertOneEvent e st) as [s3|] eqn:Hins
    end.
    + unfold insertOneEvent in Hins.
      destruct (uniqueIndex _ && _); [discriminate|]. injection Hins as <-.
      cbn [fst snd]. eexists. cbn [updateOneMission setMissions setEvents events].
      rewrite Hes. split; [done|]. done.
    + unfold insertOneEvent in Hins.
      destruct (uniqueIndex _ && bool_decide _) eqn:Hdup; [|discriminate].
      apply andb_true_iff in Hdup as [_ Hdup]. apply bool_decide_eq_true in Hdup.
      cbn in Hdup. rewrite Hes in Hdup.
      cbn [fst snd missions events]. split; [done|]. split; [done|]. eauto.
  - intros missionId now reply.
    destruct (tick_cases missionId now reply s) as
      [(r & Heq & _ & Hins) | (mid & m & agent & type & summary & payload & au & used &
                         Hp & _ & _ & _ & _ & _ & _ & Heq & _)].
    + rewrite Heq. cbn [fst snd]. destruct r as [msg| |st|step used event|]; try done.
      * unfold tickInsert in Hins.
        destruct (bool_decide (missionId = "")); [discriminate|].
        destruct (parseObjectId missionId) as [mid|] eqn:Hp; [|discriminate].
        destruct (missions s !! mid) as [m|]; [|discriminate].
        destruct (bool_decide (m_status m ≠ StatusRunning)); [discriminate|].
        cbv zeta in Hins.
        destruct (decide (m_currentStep m + 1 > getTotalSteps)); [discriminate|].
        destruct (getAgentAndTypeForStep (m_currentStep m + 1)) as [[agent type]|];
          [|discriminate].
        destruct (findOneEvent mid (m_currentStep m + 1) (events s))
          as [existing|] eqn:Hfind.
        -- injection Hins as <- _ <-.
           apply findOneEvent_Some in Hfind as (Hin & Hmid & Hst).
           exists existing. split; [done|]. split; [done|]. split; [done|].
           by rewrite Hmid.
        -- destruct (tickContent reply (m_currentStep m + 1) agent type)
             as [[[summary payload] au] used0].
           cbn [newObjectId] in Hins. cbv zeta in Hins.
           rewrite insertOneEvent_free in Hins by done. discriminate.
    + cbv zeta in Heq. rewrite Heq. cbn [fst snd].
      eexists. split; [done|].
      split; [|done]. cbn [updateOneMission setMissions setEvents events].
      apply elem_of_app. right. by left.
Qed.

(** X23 on a fresh mission: an emit at step 2 is stored, and a tick then
    answers with the step-3 event it has appended. *)
Lemma responses_reflect_the_log_witness :
  let s := (start (mkStartBody None (Some "scripted")) None 100 emptyStore).1 in
  let body := mkEmitBody "000000000000000000000000" 2 "Planner" "ASSIGN" "assigned" None in
  (emit body 200 s).2 = EmitOk false
  ∧ (∃ e, events (emit body 200 s).1 = events s ++ [e]
          ∧ e_step e = 2
          ∧ parseObjectId "000000000000000000000000" = Some (e_missionId e))
  ∧ match (tick "000000000000000000000000" 300 None (emit body 200 s).1).2 with
    | TickEvent step used event =>
        step = 3
        ∧ ∃ e, event = Some e
               ∧ e ∈ events (tick "000000000000000000000000" 300 None (emit body 200 s).1).1
               ∧ e_step e = step
               ∧ parseObjectId "000000000000000000000000" = Some (e_missionId e)
    | _ => False
    end.
Proof.
  intros s body.
  assert (Hr : reachable s).
  { apply (reachable_handle (RStart (mkStartBody None (Some "scripted")) None 100)).
    constructor. }
  assert (Hr' : reachable (emit body 200 s).1).
  { apply (reachable_handle (REmit body 200)), Hr. }
  assert (Hok : (emit body 200 s).2 = EmitOk false) by (vm_compute; reflexivity).
  split; [exact Hok|]. split.
  - pose proof (proj1 (responses_reflect_the_log s Hr) body 200) as H.
    rewrite Hok in H. exact H.
  - pose proof (proj2 (responses_reflect_the_log _ Hr')
                  "000000000000000000000000" 300 None) as H.
    destruct (tick "000000000000000000000000" 300 None (emit body 200 s).1).2
      as [msg| |st|step used event|] eqn:Ht; try (vm_compute in Ht; discriminate Ht).
    split; [|exact H]. vm_compute in Ht. congruence.
Defined.

(** ** Forking at the last checkpoint *)

Lemma wf_key_inj s e1 e2 :
  wellFormed s → e1 ∈ events s → e2 ∈ events s →
  e_missionId e1 = e_missionId e2 → e_step e1 = e_step e2 → e1 = e2.
Proof.
  intros Hwf [i Hi]%list_elem_of_lookup_1 [j Hj]%list_elem_of_lookup_1 Hm Hs.
  assert (i = j) as ->; [|congruence].
  apply (NoDup_lookup _ i j (eventKey e1) (wf_unique _ Hwf)).
  - by rewrite list_lookup_fmap, Hi.
  - rewrite list_lookup_fmap, Hj. unfold eventKey. simpl. by rewrite Hm, Hs.
Qed.

(** X24. The page's "Last Checkpoint" choice forks exactly at that
    checkpoint. In every store the API can produce, when the get route
    returns a snapshot whose last checkpoint is at a step [k] of at least 1,
    a fork of the mission at [k] succeeds and the new mission stands at the
    checkpoint: its currentStep and branchFromStep are [k], its
    lastCheckpointAt is the checkpoint's timestamp and its latestSummary is
    the checkpoint's summary, whatever summary the parent's record holds. *)
Theorem fork_at_last_checkpoint missionId now s mission snapshot k :
  reachable s →
  getMission missionId s = Some (mission, snapshot) →
  getLastCheckpointStep snapshot = Some k →
  1 <= k →
  ∃ pid cp child,
    parseObjectId missionId = Some pid
    ∧ cp ∈ history pid s ∧ e_type cp = CHECKPOINT ∧ e_step cp = k
    ∧ (fork (mkForkBody missionId (Some k)) now s).2 = ForkOk (oidCounter s)
    ∧ missions (fork (mkForkBody missionId (Some k)) now s).1 !! oidCounter s = Some child
    ∧ m_currentStep child = k
    ∧ m_branchFromStep child = Some k
    ∧ m_lastCheckpointAt child = Some (e_ts cp)
    ∧ m_latestSummary child = Some (e_summary cp).
Proof.
  intros [Hwf _]%reachable_inv Hget Hk Hge.
  destruct (getMission_snapshot _ _ _ _ Hget) as (pid & Hp & Hm & _ & _ & Hsub).
  unfold getLastCheckpointStep in Hk.
  destruct (lastCheckpointOf snapshot) as [cp|] eqn:Hcp; [|done].
  injection Hk as Hk.
  apply lastCheckpointOf_Some in Hcp as [Hin Htype].
  apply Hsub in Hin. pose proof Hin as [Hev Hown]%history_elem.
  assert (Hpre : cp ∈ filter (λ e, e_missionId e = pid ∧ e_step e <= k) (events s)).
  { apply list_elem_of_filter. split; [|done]. split; [done|lia]. }
  destruct (last (loadParentEvents pid k (events s))) as [lastEvent|] eqn:Hl.
  2:{ apply last_None in Hl.
      assert (cp ∈ loadParentEvents pid k (events s)) as Hc
        by (by apply (proj2 (sortByStep_elem _ _))).
      rewrite Hl in Hc. by apply elem_of_nil in Hc. }
  destruct (sortByStep_last _ _ Hl) as [Hlin Hmax].
  apply list_elem_of_filter in Hlin as [[Hlown Hlle] Hlev].
  assert (lastEvent = cp) as ->.
  { apply (wf_key_inj s); [done|done|done|congruence|].
    specialize (Hmax cp Hpre). lia. }
  assert (Hlc : lastCheckpointOf (loadParentEvents pid k (events s)) = Some cp).
  { apply last_Some in Hl as [l' ->]. rewrite lastCheckpointOf_snoc.
    by rewrite decide_True. }
  exists pid, cp. eexists. split; [done|]. split; [done|]. split; [done|].
  split; [done|].
  rewrite (fork_success (mkForkBody missionId (Some k)) now s k pid mission cp)
    by done.
  cbn [fst snd missions]. rewrite lookup_insert_eq. split; [done|].
  split; [done|]. cbn [m_currentStep m_branchFromStep m_lastCheckpointAt m_latestSummary].
  split; [done|]. split; [by rewrite Hk|]. rewrite Hlc.
  split; [done|]. unfold forkLatestSummary.
  rewrite bool_decide_eq_false_2; [done|]. by apply (wf_summary _ Hwf).
Qed.

(** X24 on a mission ticked to step 8: the last checkpoint is at step 6. *)
Lemma fork_at_last_checkpoint_witness :
  let s := foldl (λ st r, handle r st) emptyStore
             (RStart (mkStartBody None (Some "real")) None 100
              :: replicate 7 (RTick "000000000000000000000000" 200 None)) in
  (m_currentStep <$> missions s !! 0%N) = Some 8
  ∧ ∃ mission snapshot,
      getMission "000000000000000000000000" s = Some (mission, snapshot)
      ∧ getLastCheckpointStep snapshot = Some 6
      ∧ ∃ pid cp child,
          parseObjectId "000000000000000000000000" = Some pid
          ∧ cp ∈ history pid s ∧ e_type cp = CHECKPOINT ∧ e_step cp = 6
          ∧ (fork (mkForkBody "000000000000000000000000" (Some 6)) 300 s).2
            = ForkOk (oidCounter s)
          ∧ missions (fork (mkForkBody "000000000000000000000000" (Some 6)) 300 s).1
              !! oidCounter s = Some child
          ∧ m_currentStep child = 6
          ∧ m_branchFromStep child = Some 6
          ∧ m_lastCheckpointAt child = Some (e_ts cp)
          ∧ m_latestSummary child = Some (e_summary cp).
Proof.
  intros s. split; [vm_compute; reflexivity|].
  assert (Hr : reachable s) by (apply reachable_foldl; constructor).
  destruct (getMission "000000000000000000000000" s) as [[mission snapshot]|] eqn:Hget.
  2:{ vm_compute in Hget. discriminate Hget. }
  exists mission, snapshot. split; [done|].
  assert (Hk : getLastCheckpointStep snapshot = Some 6).
  { vm_compute in Hget. injection Hget as _ <-. vm_compute. reflexivity. }
  split; [exact Hk|].
  apply (fork_at_last_checkpoint "000000000000000000000000" 300 s mission snapshot 6
           Hr Hget Hk). lia.
Defined.
